(** * CMMC test-bank tooling: question extraction and EPUB export

    Shallow embedding of
      - [Archive/scripts/extract_cmmc_questions_baseline.py]
      - [Archive/scripts/extract_cmmc_questions_fixed.py]
      - [Archive/scripts/export_rapid_memory_epub.py]

    Python [str] values are modelled as lists of characters whose code
    points lie in U+0000..U+00FF; the character classes below are the
    restriction of Python's Unicode classes to that range.  [int] values
    are exact ([N]); console output ([print]) is not part of the model.

    Two exceptions of the interpreter bound what is stated of whole
    runs.  [int] refuses a run of digits longer than the limit of the
    interpreter: [parse_questions] is given both as the list of its
    records and as a run that may raise [ValueError].  [zf.writestr]
    encodes a [str] as UTF-8, which never fails on the texts of this
    model but raises [UnicodeEncodeError] on a [str] with a lone
    surrogate: that [build_epub] returns is stated of its chapter loop,
    which encodes nothing, or taken as a hypothesis. *)

From Stdlib Require Import Ascii String List Bool Arith NArith ZArith Lia.
From Stdlib Require Import DecimalString DecimalN.
Import ListNotations.

(** ** Text and character classes *)

Definition text := list ascii.

(** String literals of the source are written [T "..."]. *)
Definition T (s : string) : text := list_ascii_of_string s.

(** The double quote, and literals that contain it: [Tq] reads a
    backquote as a double quote (no literal of the sources has a
    backquote of its own). *)
Definition dq : ascii := ascii_of_N 34.

Definition Tq (s : string) : text :=
  map (fun c => if Ascii.eqb c "`" then dq else c) (T s).

(** The code point of a character. *)
Definition code (c : ascii) : N := N_of_ascii c.

Definition in_range (lo hi : N) (c : ascii) : bool :=
  (lo <=? code c)%N && (code c <=? hi)%N.

Definition nl : ascii := ascii_of_N 10.

(** [\s], also the set removed by [str.strip()]. *)
Definition is_space (c : ascii) : bool :=
  existsb (N.eqb (code c)) [9; 10; 11; 12; 13; 28; 29; 30; 31; 32; 133; 160]%N.

(** [\d] *)
Definition is_digit (c : ascii) : bool := in_range 48 57 c.

(** [str.isalnum()] on one character. *)
Definition is_alnum (c : ascii) : bool :=
  in_range 48 57 c || in_range 65 90 c || in_range 97 122 c
  || existsb (N.eqb (code c)) [170; 178; 179; 181; 185; 186; 188; 189; 190]%N
  || in_range 192 214 c || in_range 216 246 c || in_range 248 255 c.

(** [\w] *)
Definition is_word (c : ascii) : bool := is_alnum c || (code c =? 95)%N.

(** [.] without [re.DOTALL], and with it. *)
Definition not_nl (c : ascii) : bool := negb (code c =? 10)%N.
Definition any_char (c : ascii) : bool := true.

Definition is_char (c : ascii) : ascii -> bool := Ascii.eqb c.

(** Lower-casing of the ASCII letters, enough to compare a character of
    the subject with an ASCII character of a pattern under [(?i)]. *)
Definition ascii_lower (c : ascii) : ascii :=
  if in_range 65 90 c then ascii_of_N (code c + 32) else c.

Definition is_char_i (c : ascii) : ascii -> bool :=
  fun x => Ascii.eqb (ascii_lower c) (ascii_lower x).

(** [str.lower()] on one character. *)
Definition char_lower (c : ascii) : ascii :=
  if in_range 65 90 c || in_range 192 214 c || in_range 216 222 c
  then ascii_of_N (code c + 32) else c.

(** [str.lstrip()] and [str.rstrip()]. *)
Fixpoint lstrip (s : text) : text :=
  match s with
  | c :: s' => if is_space c then lstrip s' else s
  | [] => []
  end.

Definition rstrip (s : text) : text := rev (lstrip (rev s)).

(** [str.strip()] *)
Definition strip (s : text) : text := rstrip (lstrip s).

(** [s[i:j]] for [0 <= i], [0 <= j]. *)
Definition slice (s : text) (i j : nat) : text := firstn (j - i) (skipn i s).

(** ** Regular expressions of the [re] module

    The fragment used by the three scripts.  Every quantifier in the
    sources ranges over a single character class, so repetition is a
    constructor over a class. *)

Inductive regex : Type :=
| Eps
| Chr (p : ascii -> bool)
| Seq (r1 r2 : regex)
| Alt (r1 r2 : regex)
| Rep (greedy : bool) (lo : nat) (p : ascii -> bool)
| Grp (n : nat) (r : regex)
| Ahead (r : regex)
| Bol
| Eol
| Eos
| WordB.

(** A literal string, and the same under [(?i)]. *)
Fixpoint lit (s : text) : regex :=
  match s with
  | [] => Eps
  | c :: s' => Seq (Chr (is_char c)) (lit s')
  end.

Fixpoint lit_i (s : text) : regex :=
  match s with
  | [] => Eps
  | c :: s' => Seq (Chr (is_char_i c)) (lit_i s')
  end.

(** Concatenation of the parts of a pattern. *)
Fixpoint seqs (rs : list regex) : regex :=
  match rs with
  | [] => Eps
  | [r] => r
  | r :: rs' => Seq r (seqs rs')
  end.

(** [p*], [p+], [p*?] and [r?]. *)
Definition star (p : ascii -> bool) : regex := Rep true 0 p.
Definition plus (p : ascii -> bool) : regex := Rep true 1 p.
Definition lazy_star (p : ascii -> bool) : regex := Rep false 0 p.
Definition opt (r : regex) : regex := Alt r Eps.

(** A position in the subject: the characters already passed (nearest
    first), the characters still ahead, and the groups captured so far. *)
Record mstate : Type := MState {
  before : text;
  after : text;
  caps : list (nat * text)
}.

(** Recording group [n], and the text between two positions. *)
Definition set_cap (n : nat) (s : text) (st : mstate) : mstate :=
  MState (before st) (after st) ((n, s) :: caps st).

Definition consumed (st st' : mstate) : text :=
  firstn (length (after st) - length (after st')) (after st).

Arguments consumed : simpl never.

(** [^] and [$] under [re.MULTILINE], [$] without it, and [\b]. *)
Definition at_bol (st : mstate) : bool :=
  match before st with
  | [] => true
  | c :: _ => (code c =? 10)%N
  end.

Definition at_eol (st : mstate) : bool :=
  match after st with
  | [] => true
  | c :: _ => (code c =? 10)%N
  end.

Definition at_eos (st : mstate) : bool :=
  match after st with
  | [] => true
  | [c] => (code c =? 10)%N
  | _ => false
  end.

Definition at_wordb (st : mstate) : bool :=
  let l := match before st with c :: _ => is_word c | [] => false end in
  let r := match after st with c :: _ => is_word c | [] => false end in
  xorb l r.

(** Backtracking repetition of a class: greedy tries the longer match
    first, lazy the shorter. *)
Fixpoint rep (greedy : bool) (lo : nat) (p : ascii -> bool)
    (b a : text) (cs : list (nat * text))
    (k : mstate -> option mstate) {struct a} : option mstate :=
  let stay (_ : unit) := match lo with
                         | 0 => k (MState b a cs)
                         | S _ => None
                         end in
  let go (_ : unit) := match a with
                       | c :: a' =>
                           if p c then rep greedy (pred lo) p (c :: b) a' cs k
                           else None
                       | [] => None
                       end in
  if greedy then
    match go tt with
    | Some st' => Some st'
    | None => stay tt
    end
  else
    match stay tt with
    | Some st' => Some st'
    | None => go tt
    end.

(** The matcher in continuation-passing style: [k] is the rest of the
    pattern, and alternatives are tried in the order [re] tries them. *)
Fixpoint rmatch (r : regex) (st : mstate)
    (k : mstate -> option mstate) {struct r} : option mstate :=
  match r with
  | Eps => k st
  | Chr p =>
      match after st with
      | c :: a' => if p c then k (MState (c :: before st) a' (caps st))
                   else None
      | [] => None
      end
  | Seq r1 r2 => rmatch r1 st (fun st' => rmatch r2 st' k)
  | Alt r1 r2 =>
      match rmatch r1 st k with
      | Some st' => Some st'
      | None => rmatch r2 st k
      end
  | Rep g lo p => rep g lo p (before st) (after st) (caps st) k
  | Grp n r1 => rmatch r1 st (fun st' => k (set_cap n (consumed st st') st'))
  | Ahead r1 =>
      match rmatch r1 st Some with
      | Some _ => k st
      | None => None
      end
  | Bol => if at_bol st then k st else None
  | Eol => if at_eol st then k st else None
  | Eos => if at_eos st then k st else None
  | WordB => if at_wordb st then k st else None
  end.

(** A match object: [m.start()], [m.end()] and the captured groups. *)
Record match_obj : Type := MatchObj {
  m_start : nat;
  m_end : nat;
  m_caps : list (nat * text)
}.

Fixpoint lookup_cap (n : nat) (cs : list (nat * text)) : text :=
  match cs with
  | [] => []
  | (i, s) :: cs' => if Nat.eqb i n then s else lookup_cap n cs'
  end.

(** [m.group(n)] for a group that took part in the match. *)
Definition group (m : match_obj) (n : nat) : text := lookup_cap n (m_caps m).

(** A match that begins at the position [b], [a]. *)
Definition match_at (r : regex) (b a : text) : option match_obj :=
  match rmatch r (MState b a []) Some with
  | Some st' => Some (MatchObj (length b) (length (before st')) (caps st'))
  | None => None
  end.

(** The leftmost match at or after the position. *)
Fixpoint search_from (r : regex) (b a : text) : option match_obj :=
  match match_at r b a with
  | Some m => Some m
  | None =>
      match a with
      | [] => None
      | c :: a' => search_from r (c :: b) a'
      end
  end.

(** [re.search(r, s)] *)
Definition re_search (r : regex) (s : text) : option match_obj :=
  search_from r [] s.

(** [re.finditer] and [re.sub] walk the subject once; [skip] counts the
    characters still covered by the last match.  The patterns the scripts
    pass to them never match the empty string. *)
Fixpoint finditer_loop (r : regex) (skip : nat) (b a : text)
    : list match_obj :=
  match skip with
  | S n =>
      match a with
      | [] => []
      | c :: a' => finditer_loop r n (c :: b) a'
      end
  | 0 =>
      match match_at r b a with
      | Some m =>
          m :: match a with
               | [] => []
               | c :: a' => finditer_loop r (m_end m - m_start m - 1) (c :: b) a'
               end
      | None =>
          match a with
          | [] => []
          | c :: a' => finditer_loop r 0 (c :: b) a'
          end
      end
  end.

Definition re_finditer (r : regex) (s : text) : list match_obj :=
  finditer_loop r 0 [] s.

Fixpoint sub_loop (r : regex) (repl : text) (skip : nat) (b a : text)
    : text :=
  match skip with
  | S n =>
      match a with
      | [] => []
      | c :: a' => sub_loop r repl n (c :: b) a'
      end
  | 0 =>
      match match_at r b a with
      | Some m =>
          repl ++ match a with
                  | [] => []
                  | c :: a' =>
                      (if m_end m - m_start m =? 0 then [c] else [])
                      ++ sub_loop r repl (m_end m - m_start m - 1) (c :: b) a'
                  end
      | None =>
          match a with
          | [] => []
          | c :: a' => c :: sub_loop r repl 0 (c :: b) a'
          end
      end
  end.

(** [re.sub(r, repl, s)] for a replacement without group references. *)
Definition re_sub (r : regex) (repl : text) (s : text) : text :=
  sub_loop r repl 0 [] s.

(** ** Exceptions *)

(** The exceptions of the runs modelled here. *)
Inductive exn : Type := AttributeError | TypeError | ValueError.

Inductive result (A : Type) : Type :=
| Ok (a : A)
| Raise (e : exn).

Arguments Ok {A} a.
Arguments Raise {A} e.

(** Sequencing: an exception ends the run. *)
Definition bind {A B : Type} (x : result A) (f : A -> result B) : result B :=
  match x with
  | Ok a => f a
  | Raise e => Raise e
  end.

Notation "x <- e1 ;; e2" := (bind e1 (fun x => e2))
  (at level 61, e1 at next level, right associativity).

(** ** The extractor scripts *)

(** [s == t] on strings. *)
Definition text_eqb (s t : text) : bool :=
  if list_eq_dec ascii_dec s t then true else false.

(** The value of [int(s)] on a run of decimal digits ([int_] below is
    the call, which may raise), and [str(n)]. *)
Definition int_of_digits (s : text) : N :=
  fold_left (fun acc c => (acc * 10 + (code c - 48))%N) s 0%N.

Definition str_of_int (n : N) : text :=
  T (NilEmpty.string_of_uint (N.to_uint n)).

(** One entry of a record's ['choices'] list. *)
Record Choice : Type := mkChoice {
  c_id : text;
  c_text : text;
  c_correct : bool
}.

(** The dict appended to [questions]. *)
Record QuestionRecord : Type := mkQuestion {
  q_id : text;
  q_domain : text;
  q_question : text;
  q_choices : list Choice;
  q_explanation : text;
  q_reference : text
}.

(** [r'\n?\d+ of \d+\n?'] *)
Definition page_marker_re : regex :=
  seqs [opt (Chr (is_char nl)); plus is_digit; lit (T " of "); plus is_digit;
        opt (Chr (is_char nl))].

(** [r'Question\s*#:\s*(\d+)\s*-\s*\[(.*?)\]'] *)
Definition header_re : regex :=
  seqs [lit (T "Question"); star is_space; lit (T "#:"); star is_space;
        Grp 1 (plus is_digit); star is_space; lit (T "-"); star is_space;
        lit (T "["); Grp 2 (lazy_star not_nl); lit (T "]")].

(** [r'Answer:\s*([A-D])'] *)
Definition answer_re : regex :=
  seqs [lit (T "Answer:"); star is_space; Grp 1 (Chr (in_range 65 68))].

(** [r'(.*?)\s*A\.\s*] followed by a second group holding [.*], with
    [re.DOTALL] *)
Definition q_re : regex :=
  seqs [Grp 1 (lazy_star any_char); star is_space; lit (T "A."); star is_space;
        Grp 2 (star any_char)].

(** [r'A\.\s*(.*?)(?=B\.\s*|$)'] with [re.DOTALL], and likewise for B, C. *)
Definition choice_re (this next : string) : regex :=
  seqs [lit (T this); star is_space; Grp 1 (lazy_star any_char);
        Ahead (Alt (Seq (lit (T next)) (star is_space)) Eos)].

Definition a_re : regex := choice_re "A." "B.".
Definition b_re : regex := choice_re "B." "C.".
Definition c_re : regex := choice_re "C." "D.".

(** The header matches of [cleaned], each with its number, its domain
    and the content that runs up to the next header. *)
Record block : Type := mkBlock {
  b_num : N;
  b_domain : text;
  b_content : text
}.

Fixpoint blocks_of (cleaned : text) (matches : list match_obj) : list block :=
  match matches with
  | [] => []
  | m :: rest =>
      let start := m_end m in
      let end_ := match rest with
                  | m' :: _ => m_start m'
                  | [] => length cleaned
                  end in
      mkBlock (int_of_digits (group m 1)) (strip (group m 2))
              (strip (slice cleaned start end_))
      :: blocks_of cleaned rest
  end.

(** Lines 44-56: the blocks of a text, after the page markers are cut. *)
Definition blocks (text_ : text) : list block :=
  let cleaned := re_sub page_marker_re [nl] text_ in
  blocks_of cleaned (re_finditer header_re cleaned).

(** [m.group(1).strip() if m else ''] *)
Definition group1_stripped (m : option match_obj) : text :=
  match m with
  | Some m => strip (group m 1)
  | None => []
  end.

(** The list [choices], given the answer letter and the four texts. *)
Definition mk_choices (letter a b c d : text) : list Choice :=
  [ mkChoice (T "A") a (text_eqb letter (T "A"));
    mkChoice (T "B") b (text_eqb letter (T "B"));
    mkChoice (T "C") c (text_eqb letter (T "C"));
    mkChoice (T "D") d (text_eqb letter (T "D")) ].

(** The body of [for idx, m in enumerate(matches)]: [None] is [continue],
    [Some q] is [questions.append(q)]. *)
Fixpoint parse_loop (body : block -> option QuestionRecord) (bs : list block)
    : list QuestionRecord :=
  match bs with
  | [] => []
  | b :: bs' =>
      match body b with
      | Some q => q :: parse_loop body bs'
      | None => parse_loop body bs'
      end
  end.

Module Baseline.

Definition boilerplate : list regex :=
  [ (* (?i)Why the Correct Answer is.*?\? *)
    seqs [lit_i (T "Why the Correct Answer is"); lazy_star not_nl; lit (T "?")];
    (* (?i)Why Not the Other Options.*?\? *)
    seqs [lit_i (T "Why Not the Other Options"); lazy_star not_nl; lit (T "?")];
    (* (?i)Relevant CMMC 2\.0 References.*?$ *)
    seqs [lit_i (T "Relevant CMMC 2.0 References"); lazy_star not_nl; Eol];
    (* (?i)Official References from CMMC 2\.0.*?$ *)
    seqs [lit_i (T "Official References from CMMC 2.0"); lazy_star not_nl; Eol];
    (* (?i)Final Verification and Conclusion.*?$ *)
    seqs [lit_i (T "Final Verification and Conclusion"); lazy_star not_nl; Eol];
    (* (?i)Final Answer:#.*?$ *)
    seqs [lit_i (T "Final Answer:#"); lazy_star not_nl; Eol];
    lit (T "Leaders in it certification");
    lit (T "Practice Exam");
    lit (T "Cyber AB - CMMC-CCP");
    (* ^\d+ of \d+$ *)
    seqs [Bol; plus is_digit; lit (T " of "); plus is_digit; Eol] ].

(** Lines 15-25: the removals, in order. *)
Definition strip_boilerplate (s : text) : text :=
  fold_left (fun acc r => re_sub r [] acc) boilerplate s.

(** Lines 27-29: [\n+] and [\s+] to one space, then [strip()]. *)
Definition collapse (s : text) : text :=
  strip (re_sub (plus is_space) (T " ")
           (re_sub (plus (is_char nl)) (T " ") s)).

Definition clean_explanation (s : text) : text :=
  collapse (strip_boilerplate s).

(** [r'D\.\s*(.*?)(?=\s*Answer:)'] with [re.DOTALL] *)
Definition d_re : regex :=
  seqs [lit (T "D."); star is_space; Grp 1 (lazy_star any_char);
        Ahead (Seq (star is_space) (lit (T "Answer:")))].

Definition parse_block (b : block) : option QuestionRecord :=
  let content := b_content b in
  match re_search answer_re content with
  | None => None
  | Some answer_match =>
      let correct_letter := group answer_match 1 in
      match re_search q_re content with
      | None => None
      | Some q_match =>
          let question_text := strip (group q_match 1) in
          let a_text := group1_stripped (re_search a_re content) in
          let b_text := group1_stripped (re_search b_re content) in
          let c_text := group1_stripped (re_search c_re content) in
          let d_text := group1_stripped (re_search d_re content) in
          let explanation_part :=
            strip (skipn (m_end answer_match) content) in
          let choices := mk_choices correct_letter a_text b_text c_text d_text in
          let explanation :=
            match explanation_part with
            | [] => []
            | _ => clean_explanation explanation_part
            end in
          Some (mkQuestion (T "Q" ++ str_of_int (b_num b)) (b_domain b)
                  question_text choices explanation [])
      end
  end.

Definition parse_questions (text_ : text) : list QuestionRecord :=
  parse_loop parse_block (blocks text_).

End Baseline.

Module Fixed.

Definition boilerplate : list regex :=
  [ seqs [lit_i (T "Why the Correct Answer is"); lazy_star not_nl; lit (T "?")];
    seqs [lit_i (T "Why Not the Other Options"); lazy_star not_nl; lit (T "?")];
    seqs [lit_i (T "Relevant CMMC 2.0 References"); lazy_star not_nl; Eol];
    seqs [lit_i (T "Official References from CMMC 2.0"); lazy_star not_nl; Eol];
    seqs [lit_i (T "Final Verification and Conclusion"); lazy_star not_nl; Eol];
    seqs [lit_i (T "Final Answer:#"); lazy_star not_nl; Eol];
    lit (T "Leaders in it certification");
    lit (T "Practice Exam");
    lit (T "Cyber AB - CMMC-CCP");
    (* \b\d+\s+of\s+\d+\b *)
    seqs [WordB; plus is_digit; plus is_space; lit (T "of"); plus is_space;
          plus is_digit; WordB];
    (* ^\d+ of \d+$ *)
    seqs [Bol; plus is_digit; lit (T " of "); plus is_digit; Eol] ].

(** Lines 15-27: the removals, in order. *)
Definition strip_boilerplate (s : text) : text :=
  fold_left (fun acc r => re_sub r [] acc) boilerplate s.

(** Lines 29-31. *)
Definition collapse (s : text) : text :=
  strip (re_sub (plus is_space) (T " ")
           (re_sub (plus (is_char nl)) (T " ") s)).

Definition clean_explanation (s : text) : text :=
  collapse (strip_boilerplate s).

(** [r'D\.\s*(.*?)(?=Answer:\s*|$)'] with [re.DOTALL] *)
Definition d_re : regex :=
  seqs [lit (T "D."); star is_space; Grp 1 (lazy_star any_char);
        Ahead (Alt (Seq (lit (T "Answer:")) (star is_space)) Eos)].

(** [r'Answer:\s*[A-D]\s*] followed by a group holding [.*], with
    [re.DOTALL] *)
Definition explanation_re : regex :=
  seqs [lit (T "Answer:"); star is_space; Chr (in_range 65 68);
        star is_space; Grp 1 (star any_char)].

Definition parse_block (b : block) : option QuestionRecord :=
  let content := b_content b in
  match re_search q_re content with
  | None => None
  | Some q_match =>
      let question_text := strip (group q_match 1) in
      let rest := group q_match 2 in
      match re_search a_re rest, re_search b_re rest, re_search c_re rest,
            re_search d_re rest, re_search answer_re rest with
      | Some a_match, Some b_match, Some c_match, Some d_match,
        Some answer_match =>
          let a_text := strip (group a_match 1) in
          let b_text := strip (group b_match 1) in
          let c_text := strip (group c_match 1) in
          let d_text := strip (group d_match 1) in
          let correct_letter := group answer_match 1 in
          let choices := mk_choices correct_letter a_text b_text c_text d_text in
          let explanation :=
            match re_search explanation_re rest with
            | Some explanation_match =>
                clean_explanation (strip (group explanation_match 1))
            | None => []
            end in
          Some (mkQuestion (T "Q" ++ str_of_int (b_num b)) (b_domain b)
                  question_text choices explanation [])
      | _, _, _, _, _ => None
      end
  end.

Definition parse_questions (text_ : text) : list QuestionRecord :=
  parse_loop parse_block (blocks text_).

End Fixed.

(** *** Runs of [parse_questions] *)

(** The interpreter's limit on the digits of a decimal conversion,
    [sys.get_int_max_str_digits()]: 4300 unless configured otherwise,
    0 where there is no limit. *)
Definition default_max_str_digits : nat := 4300.

Definition over_limit (max_str_digits : nat) (s : text) : bool :=
  (0 <? max_str_digits) && (max_str_digits <? length s).

(** [int(s)] on a run of decimal digits.  ([str(n)] in the id of a
    record has no more digits than [s] and stays within the limit.) *)
Definition int_ (max_str_digits : nat) (s : text) : result N :=
  if over_limit max_str_digits s then Raise ValueError
  else Ok (int_of_digits s).

(** [for idx, m in enumerate(matches)]: line 52 may raise, and
    [questions] is the list appended to so far. *)
Fixpoint parse_matches (max_str_digits : nat)
    (body : block -> option QuestionRecord) (cleaned : text)
    (matches : list match_obj) (questions : list QuestionRecord)
    : result (list QuestionRecord) :=
  match matches with
  | [] => Ok questions
  | m :: rest =>
      q_num <- int_ max_str_digits (group m 1) ;;
      let start := m_end m in
      let end_ := match rest with
                  | m' :: _ => m_start m'
                  | [] => length cleaned
                  end in
      let b := mkBlock q_num (strip (group m 2))
                 (strip (slice cleaned start end_)) in
      parse_matches max_str_digits body cleaned rest
        (match body b with
         | Some q => questions ++ [q]
         | None => questions
         end)
  end.

(** [parse_questions(text)] of the two scripts: the list it returns, or
    the exception it raises. *)
Definition baseline_parse_questions (max_str_digits : nat) (text_ : text)
    : result (list QuestionRecord) :=
  let cleaned := re_sub page_marker_re [nl] text_ in
  parse_matches max_str_digits Baseline.parse_block cleaned
    (re_finditer header_re cleaned) [].

Definition fixed_parse_questions (max_str_digits : nat) (text_ : text)
    : result (list QuestionRecord) :=
  let cleaned := re_sub page_marker_re [nl] text_ in
  parse_matches max_str_digits Fixed.parse_block cleaned
    (re_finditer header_re cleaned) [].

(** *** Reading the source text and [main] *)

(** [r'\b\d+\s+of\s+\d+\b'] *)
Definition raw_marker_re : regex :=
  seqs [WordB; plus is_digit; plus is_space; lit (T "of"); plus is_space;
        plus is_digit; WordB].

(** [extract_raw_text()], the same in both scripts.  [raw] is the [str]
    that [TXT_PATH.read_text(encoding='utf-8')] returns: the decoded
    content of the file, every line ending read as one newline. *)
Definition extract_raw_text (raw : text) : text :=
  re_sub raw_marker_re [] raw.

(** What [main()] writes to [RAW_TEXT_PATH], and the list it passes to
    [json.dumps] for [QUESTIONS_JSON_PATH] unless [parse_questions]
    raises. *)
Definition baseline_main (max_str_digits : nat) (raw : text)
    : text * result (list QuestionRecord) :=
  let raw_text := extract_raw_text raw in
  (raw_text, baseline_parse_questions max_str_digits raw_text).

Definition fixed_main (max_str_digits : nat) (raw : text)
    : text * result (list QuestionRecord) :=
  let raw_text := extract_raw_text raw in
  (raw_text, fixed_parse_questions max_str_digits raw_text).

(** ** The book builder: [export_rapid_memory_epub.py] *)

(** What [json.loads] returns; a [dict] keeps its items in order. *)
#[warnings="-register-all"]
Inductive json : Type :=
| JNull
| JBool (b : bool)
| JNum (n : Z)   (* integers stand for every number *)
| JStr (s : text)
| JArr (xs : list json)
| JObj (items : list (text * json)).

(** The value of a key, if the dict has it. *)
Fixpoint dict_lookup (k : text) (items : list (text * json)) : option json :=
  match items with
  | [] => None
  | (k', v) :: rest => if text_eqb k' k then Some v else dict_lookup k rest
  end.

(** [q.get(k, default)]; only a [dict] has the method. *)
Definition get (q : json) (k : text) (default : json) : result json :=
  match q with
  | JObj items =>
      Ok (match dict_lookup k items with
          | Some v => v
          | None => default
          end)
  | _ => Raise AttributeError
  end.

(** [bool(v)] *)
Definition truthy (v : json) : bool :=
  match v with
  | JNull => false
  | JBool b => b
  | JNum n => negb (Z.eqb n 0)
  | JStr s => negb (text_eqb s [])
  | JArr xs => match xs with [] => false | _ => true end
  | JObj items => match items with [] => false | _ => true end
  end.

(** [v or d] *)
Definition py_or (v d : json) : json := if truthy v then v else d.

(** The receiver of a [str] method ([strip], and [replace] inside
    [html.escape]). *)
Definition as_str (v : json) : result text :=
  match v with
  | JStr s => Ok s
  | _ => Raise AttributeError
  end.

(** [s.replace(c, r)] for a one-character [c]. *)
Definition replace_char (c : ascii) (r : text) (s : text) : text :=
  flat_map (fun x => if Ascii.eqb x c then r else [x]) s.

(** [html.escape(s)] with the default [quote=True]. *)
Definition html_escape (s : text) : text :=
  let s := replace_char "&" (T "&amp;") s in
  let s := replace_char "<" (T "&lt;") s in
  let s := replace_char ">" (T "&gt;") s in
  let s := replace_char dq (T "&quot;") s in
  replace_char "'" (T "&#x27;") s.

(** [sep.join(parts)] *)
Fixpoint join (sep : text) (parts : list text) : text :=
  match parts with
  | [] => []
  | [p] => p
  | p :: rest => p ++ sep ++ join sep rest
  end.

(** [s.split('\n\n')]; [cur] holds the current piece, last character
    first. *)
Fixpoint split_blank (cur : text) (s : text) : list text :=
  match s with
  | [] => [rev cur]
  | c1 :: s1 =>
      match s1 with
      | c2 :: s2 =>
          if Ascii.eqb c1 nl && Ascii.eqb c2 nl
          then rev cur :: split_blank [] s2
          else split_blank (c1 :: cur) s1
      | [] => [rev (c1 :: cur)]
      end
  end.

(** [bool(s)] on a string. *)
Definition nonempty (s : text) : bool :=
  match s with
  | [] => false
  | _ => true
  end.

Definition _as_paragraphs (text_ : text) : text :=
  let text_ := strip text_ in
  if nonempty text_ then
    let parts := filter nonempty (map strip (split_blank [] text_)) in
    join [nl]
      (map (fun p => T "<p>" ++ replace_char nl (T "<br/>") (html_escape p)
                     ++ T "</p>") parts)
  else [].

(** [s.strip('-')], from the left. *)
Fixpoint strip_dash_l (s : text) : text :=
  match s with
  | c :: s' => if Ascii.eqb c "-" then strip_dash_l s' else s
  | [] => []
  end.

Definition _slugify (s : text) : text :=
  let t := map (fun ch => if is_alnum ch then char_lower ch else "-"%char) s in
  rev (strip_dash_l (rev (strip_dash_l t))).

(** [f'{idx:02d}'] *)
Definition pad2 (n : nat) : text :=
  if n <? 10 then T "0" ++ str_of_int (N.of_nat n) else str_of_int (N.of_nat n).

(** *** Grouping by domain (lines 30-36) *)

(** Keys of a [dict] are compared with [==]; [True == 1] and
    [False == 0]. *)
Definition key_num (v : json) : option Z :=
  match v with
  | JBool true => Some 1%Z
  | JBool false => Some 0%Z
  | JNum n => Some n
  | _ => None
  end.

Definition key_eqb (a b : json) : bool :=
  match a, b with
  | JNull, JNull => true
  | JStr s, JStr t => text_eqb s t
  | _, _ =>
      match key_num a, key_num b with
      | Some x, Some y => Z.eqb x y
      | _, _ => false
      end
  end.

Definition hashable (v : json) : bool :=
  match v with
  | JArr _ | JObj _ => false
  | _ => true
  end.

(** [domains.setdefault(key, []).append(q)] *)
Fixpoint setdefault_append (key q : json) (domains : list (json * list json))
    : list (json * list json) :=
  match domains with
  | [] => [(key, [q])]
  | (k, items) :: rest =>
      if key_eqb k key then (k, items ++ [q]) :: rest
      else (k, items) :: setdefault_append key q rest
  end.

Fixpoint group_domains (questions : list json)
    (domains : list (json * list json)) : result (list (json * list json)) :=
  match questions with
  | [] => Ok domains
  | q :: rest =>
      key <- get q (T "domain") (JStr (T "Uncategorized")) ;;
      if hashable key
      then group_domains rest (setdefault_append key q domains)
      else Raise TypeError
  end.

(** [(domain, _slugify(domain) or 'domain')]; iterating anything but a
    [str] key fails. *)
Definition domain_item (domain : json) : result (text * text) :=
  match domain with
  | JStr d =>
      let slug := _slugify d in
      Ok (d, if nonempty slug then slug else T "domain")
  | _ => Raise TypeError
  end.

(** A loop that stops at the first exception. *)
Fixpoint map_result {A B : Type} (f : A -> result B) (l : list A)
    : result (list B) :=
  match l with
  | [] => Ok []
  | x :: rest =>
      y <- f x ;;
      ys <- map_result f rest ;;
      Ok (y :: ys)
  end.

(** *** One question block (lines 99-119) *)

(** [for c in q.get('choices') or []: if c.get('correct') is True: ...
    break] *)
Fixpoint find_correct (cs : list json) : result (option json) :=
  match cs with
  | [] => Ok None
  | c :: rest =>
      v <- get c (T "correct") JNull ;;
      match v with
      | JBool true => Ok (Some c)
      | _ => find_correct rest
      end
  end.

Definition correct_choice_of (choices : json) : result (option json) :=
  if truthy choices then
    match choices with
    | JArr cs => find_correct cs
    | JStr _ | JObj _ => Raise AttributeError
    | _ => Raise TypeError
    end
  else Ok None.

(** A literal line: the text and its newline. *)
Definition ln (s : string) : text := Tq s ++ [nl].

Definition qa_block (qid question_html answer_id : text) (sep answer_text : text)
    : text :=
  ln "<div class=`qa`>"
  ++ Tq "  <h2 id=`" ++ qid ++ Tq "`>" ++ qid ++ ln "</h2>"
  ++ T "  " ++ question_html ++ [nl]
  ++ Tq "  <p class=`answer`><b>Answer:</b> " ++ answer_id ++ sep
  ++ answer_text ++ ln "</p>"
  ++ ln "  <hr/>"
  ++ T "</div>".

Definition render_question (q : json) : result text :=
  qid0 <- get q (T "id") JNull ;;
  let qid := py_or qid0 (JStr []) in
  question0 <- get q (T "question") JNull ;;
  question <- as_str (py_or question0 (JStr [])) ;;
  let question_text := strip question in
  choices <- get q (T "choices") JNull ;;
  correct_choice <- correct_choice_of choices ;;
  let chosen := match correct_choice with
                | Some c => c
                | None => JObj []
                end in
  answer_text0 <- get chosen (T "text") JNull ;;
  let answer_text := py_or answer_text0 (JStr []) in
  answer_id0 <- get chosen (T "id") JNull ;;
  let answer_id := py_or answer_id0 (JStr []) in
  qid_s <- as_str qid ;;
  answer_id_s <- as_str answer_id ;;
  answer_text_s <- as_str answer_text ;;
  Ok (qa_block (html_escape qid_s) (_as_paragraphs question_text)
        (html_escape answer_id_s)
        (if truthy answer_text then T ": " else [])
        (html_escape answer_text_s)).

(** *** Chapters, navigation and package documents (lines 77-198) *)

Definition chapter_xhtml (domain : text) (q_blocks : list text) : text :=
  ln "<?xml version=`1.0` encoding=`utf-8`?>"
  ++ ln "<!DOCTYPE html>"
  ++ ln "<html xmlns=`http://www.w3.org/1999/xhtml` xml:lang=`en`>"
  ++ ln "<head>"
  ++ T "  <title>" ++ html_escape domain ++ ln "</title>"
  ++ ln "  <link rel=`stylesheet` type=`text/css` href=`../styles/style.css`/>"
  ++ ln "</head>"
  ++ ln "<body>"
  ++ Tq "  <p class=`domain`>" ++ html_escape domain ++ ln "</p>"
  ++ T "  <h1>" ++ html_escape domain ++ ln "</h1>"
  ++ join [nl] q_blocks
  ++ [nl] ++ ln "</body>" ++ ln "</html>".

(** The lists and the dict the chapter loop fills. *)
Record locals : Type := mkLocals {
  nav_items : list (text * text);
  manifest_items : list text;
  spine_items : list text;
  chapters : list (text * text)
}.

Definition initial_locals : locals :=
  mkLocals []
    [ Tq "<item id=`nav` href=`nav.xhtml` media-type=`application/xhtml+xml` properties=`nav`/>";
      Tq "<item id=`css` href=`styles/style.css` media-type=`text/css`/>";
      Tq "<item id=`icon` href=`pwa-icon.svg` media-type=`image/svg+xml`/>";
      Tq "<item id=`title` href=`text/title.xhtml` media-type=`application/xhtml+xml`/>";
      Tq "<item id=`ncx` href=`toc.ncx` media-type=`application/x-dtbncx+xml`/>" ]
    [ Tq "<itemref idref=`title`/>" ]
    [].

(** [d[k] = v] on a dict with [str] keys. *)
Fixpoint dict_set (k v : text) (d : list (text * text)) : list (text * text) :=
  match d with
  | [] => [(k, v)]
  | (k', v') :: rest =>
      if text_eqb k' k then (k', v) :: rest else (k', v') :: dict_set k v rest
  end.

(** [domains[domain]]; the key was taken from [domains] itself. *)
Fixpoint domains_index (domains : list (json * list json)) (domain : text)
    : list json :=
  match domains with
  | [] => []
  | (k, items) :: rest =>
      if key_eqb k (JStr domain) then items else domains_index rest domain
  end.

(** [f'text/{idx:02d}-{slug}.xhtml'] and [f'domain{idx:02d}']. *)
Definition file_name_of (idx : nat) (slug : text) : text :=
  T "text/" ++ pad2 idx ++ T "-" ++ slug ++ T ".xhtml".

Definition item_id_of (idx : nat) : text := T "domain" ++ pad2 idx.

(** The lines appended to [manifest_items] and [spine_items]. *)
Definition manifest_item (item_id file_name : text) : text :=
  Tq "<item id=`" ++ item_id ++ Tq "` href=`" ++ file_name
  ++ Tq "` media-type=`application/xhtml+xml`/>".

Definition spine_item (item_id : text) : text :=
  Tq "<itemref idref=`" ++ item_id ++ Tq "`/>".

(** [for idx, (domain, slug) in enumerate(domain_items, start=1)] *)
Fixpoint chapters_loop (domains : list (json * list json))
    (domain_items : list (text * text)) (idx : nat) (st : locals)
    : result locals :=
  match domain_items with
  | [] => Ok st
  | (domain, slug) :: rest =>
      let file_name := file_name_of idx slug in
      let item_id := item_id_of idx in
      q_blocks <- map_result render_question (domains_index domains domain) ;;
      chapters_loop domains rest (S idx)
        (mkLocals
           (nav_items st ++ [(domain, file_name)])
           (manifest_items st ++ [manifest_item item_id file_name])
           (spine_items st ++ [spine_item item_id])
           (dict_set file_name (chapter_xhtml domain q_blocks) (chapters st)))
  end.

Definition container_xml : text :=
  ln "<?xml version=`1.0` encoding=`UTF-8`?>"
  ++ ln "<container version=`1.0` xmlns=`urn:oasis:names:tc:opendocument:xmlns:container`>"
  ++ ln "  <rootfiles>"
  ++ ln "    <rootfile full-path=`OEBPS/content.opf` media-type=`application/oebps-package+xml`/>"
  ++ ln "  </rootfiles>"
  ++ ln "</container>".

Definition style_css : text :=
  ln "body { font-family: serif; line-height: 1.5; }"
  ++ ln "h1, h2, h3 { font-family: sans-serif; }"
  ++ ln "h1 { font-size: 1.6em; margin: 0 0 0.8em 0; }"
  ++ ln "h2 { font-size: 1.2em; margin: 1.2em 0 0.5em 0; }"
  ++ ln ".domain { font-size: 0.9em; color: #555; margin: 0 0 0.3em 0; }"
  ++ ln ".qa { margin: 0 0 1.2em 0; }"
  ++ ln ".answer { margin-top: 0.3em; }"
  ++ ln ".answer b { font-family: sans-serif; }"
  ++ ln "hr { border: none; border-top: 1px solid #ccc; margin: 1.2em 0; }".

Definition nav_xhtml (nav : list (text * text)) : text :=
  ln "<?xml version=`1.0` encoding=`utf-8`?>"
  ++ ln "<!DOCTYPE html>"
  ++ ln "<html xmlns=`http://www.w3.org/1999/xhtml` xmlns:epub=`http://www.idpf.org/2007/ops` xml:lang=`en`>"
  ++ ln "<head>"
  ++ ln "  <title>Table of Contents</title>"
  ++ ln "  <link rel=`stylesheet` type=`text/css` href=`styles/style.css`/>"
  ++ ln "</head>"
  ++ ln "<body>"
  ++ ln "  <nav epub:type=`toc` id=`toc`>"
  ++ ln "    <h1>Contents</h1>"
  ++ ln "    <ol>"
  ++ concat (map (fun '(label, href) =>
                    Tq "      <li><a href=`" ++ html_escape href ++ Tq "`>"
                    ++ html_escape label ++ ln "</a></li>") nav)
  ++ ln "    </ol>"
  ++ ln "  </nav>"
  ++ ln "</body>"
  ++ ln "</html>".

Definition nav_point (i : nat) (label href : text) : text :=
  Tq "    <navPoint id=`navPoint-" ++ str_of_int (N.of_nat i)
  ++ Tq "` playOrder=`" ++ str_of_int (N.of_nat i) ++ ln "`>"
  ++ T "      <navLabel><text>" ++ html_escape label ++ ln "</text></navLabel>"
  ++ Tq "      <content src=`" ++ html_escape href ++ ln "`/>"
  ++ ln "    </navPoint>".

(** [for i, (label, href) in enumerate(nav_items, start=1)] *)
Fixpoint ncx_navpoints (i : nat) (nav : list (text * text)) : list text :=
  match nav with
  | [] => []
  | (label, href) :: rest => nav_point i label href :: ncx_navpoints (S i) rest
  end.

Definition toc_ncx (book_id title : text) (nav : list (text * text)) : text :=
  ln "<?xml version=`1.0` encoding=`UTF-8`?>"
  ++ ln "<!DOCTYPE ncx PUBLIC `-//NISO//DTD ncx 2005-1//EN` `http://www.daisy.org/z3986/2005/ncx-2005-1.dtd`>"
  ++ ln "<ncx xmlns=`http://www.daisy.org/z3986/2005/ncx/` version=`2005-1`>"
  ++ ln "  <head>"
  ++ Tq "    <meta name=`dtb:uid` content=`" ++ book_id ++ ln "`/>"
  ++ ln "  </head>"
  ++ T "  <docTitle><text>" ++ html_escape title ++ ln "</text></docTitle>"
  ++ ln "  <navMap>"
  ++ concat (ncx_navpoints 1 nav)
  ++ ln "  </navMap>"
  ++ ln "</ncx>".

Definition content_opf (book_id title now : text) (manifest spine : list text)
    : text :=
  ln "<?xml version=`1.0` encoding=`UTF-8`?>"
  ++ ln "<package xmlns=`http://www.idpf.org/2007/opf` unique-identifier=`bookid` version=`3.0`>"
  ++ ln "  <metadata xmlns:dc=`http://purl.org/dc/elements/1.1/`>"
  ++ Tq "    <dc:identifier id=`bookid`>urn:uuid:" ++ book_id ++ ln "</dc:identifier>"
  ++ T "    <dc:title>" ++ html_escape title ++ ln "</dc:title>"
  ++ T "    <dc:language>" ++ html_escape (T "en") ++ ln "</dc:language>"
  ++ T "    <dc:creator>" ++ html_escape (T "GRCJP") ++ ln "</dc:creator>"
  ++ T "    <dc:date>" ++ html_escape now ++ ln "</dc:date>"
  ++ ln "  </metadata>"
  ++ ln "  <manifest>"
  ++ concat (map (fun line => T "    " ++ line ++ [nl]) manifest)
  ++ ln "  </manifest>"
  ++ ln "  <spine toc=`ncx`>"
  ++ concat (map (fun line => T "    " ++ line ++ [nl]) spine)
  ++ ln "  </spine>"
  ++ ln "</package>".

(** *** The archive (lines 202-220) *)

Definition bytes := list Byte.byte.

(** What [writestr] stores for a [str]: its UTF-8 encoding. *)
Definition utf8_char (c : ascii) : bytes :=
  if (code c <? 128)%N then [byte_of_ascii c]
  else [byte_of_ascii (ascii_of_N (192 + code c / 64));
        byte_of_ascii (ascii_of_N (128 + code c mod 64))].

Definition utf8 (s : text) : bytes := flat_map utf8_char s.

(** The title page holds U+2192, outside the range of [text]; it is
    given by its encoding. *)
Definition title_xhtml (title : text) : bytes :=
  utf8 (ln "<?xml version=`1.0` encoding=`utf-8`?>"
        ++ ln "<!DOCTYPE html>"
        ++ ln "<html xmlns=`http://www.w3.org/1999/xhtml` xml:lang=`en`>"
        ++ ln "<head>"
        ++ ln "  <title>CMMC Rapid Memory</title>"
        ++ ln "  <link rel=`stylesheet` type=`text/css` href=`styles/style.css`/>"
        ++ ln "</head>"
        ++ ln "<body>"
        ++ T "  <h1>" ++ html_escape title ++ ln "</h1>"
        ++ T "  <p><b>Rapid Memory Mode:</b> Question ")
  ++ [Byte.xe2; Byte.x86; Byte.x92]
  ++ utf8 (ln " Answer</p>"
           ++ ln "  <p>This book was generated from the CMMC CCP Test Bank JSON.</p>"
           ++ ln "</body>"
           ++ ln "</html>").

Inductive compression : Type := ZIP_STORED | ZIP_DEFLATED.

Record zip_entry : Type := mkEntry {
  e_name : text;
  e_data : bytes;
  e_compress : compression
}.

(** [zipfile.ZipFile(out_path, 'w')] is opened without a [compression]
    argument; entries written without a [compress_type] take the default
    of the archive. *)
Definition archive_default : compression := ZIP_STORED.

(** [zf.writestr(name, data, compress_type=c)] and
    [zf.write(path, arcname=name)]. *)
Definition writestr (zf : list zip_entry) (name : text) (data : bytes)
    (c : compression) : list zip_entry :=
  zf ++ [mkEntry name data c].

Definition write (zf : list zip_entry) (name : text) (file : bytes)
    : list zip_entry :=
  zf ++ [mkEntry name file archive_default].

Definition write_archive (st : locals) (book_id title now : text)
    (icon : option bytes) : list zip_entry :=
  let oebps := T "OEBPS" in
  let zf := [] in
  let zf := writestr zf (T "mimetype") (utf8 (T "application/epub+zip"))
              ZIP_STORED in
  let zf := writestr zf (T "META-INF/container.xml") (utf8 container_xml)
              ZIP_DEFLATED in
  let zf := writestr zf (oebps ++ T "/content.opf")
              (utf8 (content_opf book_id title now (manifest_items st)
                       (spine_items st))) ZIP_DEFLATED in
  let zf := writestr zf (oebps ++ T "/toc.ncx")
              (utf8 (toc_ncx book_id title (nav_items st))) ZIP_DEFLATED in
  let zf := writestr zf (oebps ++ T "/nav.xhtml")
              (utf8 (nav_xhtml (nav_items st))) ZIP_DEFLATED in
  let zf := writestr zf (oebps ++ T "/styles/style.css") (utf8 style_css)
              ZIP_DEFLATED in
  let zf := match icon with
            | Some file => write zf (oebps ++ T "/pwa-icon.svg") file
            | None => zf
            end in
  let zf := writestr zf (oebps ++ T "/text/title.xhtml") (title_xhtml title)
              ZIP_DEFLATED in
  fold_left (fun zf '(href, content) =>
               writestr zf (oebps ++ T "/" ++ href) (utf8 content) ZIP_DEFLATED)
            (chapters st) zf.

(** The state [build_epub] leaves behind: its lists and the archive at
    [out_path]. *)
Record book : Type := mkBook {
  book_locals : locals;
  book_archive : list zip_entry
}.

(** [build_epub(questions, out_path, title=title)].  [book_id] is the
    fresh [uuid4], [now] the formatted clock, and [icon] the content of
    [public/pwa-icon.svg] when that file exists. *)
Definition build_epub (questions : list json) (title : text)
    (book_id now : text) (icon : option bytes) : result book :=
  domains <- group_domains questions [] ;;
  domain_items <- map_result (fun '(domain, _) => domain_item domain) domains ;;
  st <- chapters_loop domains domain_items 1 initial_locals ;;
  Ok (mkBook st (write_archive st book_id title now icon)).

(** Lines 30-134 of [build_epub]: the grouping and the chapter loop,
    which end before the archive is opened. *)
Definition chapter_documents (questions : list json) : result locals :=
  domains <- group_domains questions [] ;;
  domain_items <- map_result (fun '(domain, _) => domain_item domain) domains ;;
  chapters_loop domains domain_items 1 initial_locals.

(** * Notions the statements use *)

(** ** Runs of a pattern *)

(** What a pattern may do from a position, without the order in which
    [re] tries the alternatives. *)
Inductive Step : regex -> mstate -> mstate -> Prop :=
| St_eps : forall st, Step Eps st st
| St_chr : forall p c b a cs,
    p c = true -> Step (Chr p) (MState b (c :: a) cs) (MState (c :: b) a cs)
| St_seq : forall r1 r2 st1 st2 st3,
    Step r1 st1 st2 -> Step r2 st2 st3 -> Step (Seq r1 r2) st1 st3
| St_alt_l : forall r1 r2 st st', Step r1 st st' -> Step (Alt r1 r2) st st'
| St_alt_r : forall r1 r2 st st', Step r2 st st' -> Step (Alt r1 r2) st st'
| St_rep : forall g lo p b a cs n,
    lo <= n -> n <= length a -> forallb p (firstn n a) = true ->
    Step (Rep g lo p) (MState b a cs)
         (MState (rev (firstn n a) ++ b) (skipn n a) cs)
| St_grp : forall n r st st',
    Step r st st' -> Step (Grp n r) st (set_cap n (consumed st st') st')
| St_ahead : forall r st st', Step r st st' -> Step (Ahead r) st st
| St_bol : forall st, at_bol st = true -> Step Bol st st
| St_eol : forall st, at_eol st = true -> Step Eol st st
| St_eos : forall st, at_eos st = true -> Step Eos st st
| St_wordb : forall st, at_wordb st = true -> Step WordB st st.

(** The pattern never looks at what lies before the position. *)
Fixpoint ctx_free (r : regex) : bool :=
  match r with
  | Bol | WordB => false
  | Seq r1 r2 | Alt r1 r2 => ctx_free r1 && ctx_free r2
  | Grp _ r1 | Ahead r1 => ctx_free r1
  | _ => true
  end.

(** Two continuations that fail together wherever the same text lies
    ahead. *)
Definition agree (k1 k2 : mstate -> option mstate) : Prop :=
  forall s1 s2, after s1 = after s2 -> (k1 s1 = None <-> k2 s2 = None).


(** ** Extractor *)

(** [x is None] *)
Definition is_none {A : Type} (x : option A) : bool :=
  match x with None => true | Some _ => false end.

(** Lines joined by newlines. *)
Definition lines (ls : list text) : text := join [nl] ls.

(** The question headers [parse_questions] finds in a text. *)
Definition headers (text_ : text) : list match_obj :=
  re_finditer header_re (re_sub page_marker_re [nl] text_).

(** The block has no [Answer: <letter>] marker. *)
Definition lacks_answer (b : block) : bool :=
  is_none (re_search answer_re (b_content b)).

(** The block has no [A.] marker ([q_match] is [None]). *)
Definition lacks_choice_A (b : block) : bool :=
  is_none (re_search q_re (b_content b)).

(** How many elements satisfy [f]. *)
Definition count_if {A : Type} (f : A -> bool) (l : list A) : nat :=
  length (filter f l).

(** The markers [A.], [B.], [C.], [D.] and [Answer: <letter>] follow one
    another, so that every choice text ends at the next marker. *)
Definition well_marked_re : regex :=
  seqs [lit (T "A."); lazy_star any_char; lit (T "B."); lazy_star any_char;
        lit (T "C."); lazy_star any_char; lit (T "D."); lazy_star any_char;
        lit (T "Answer:"); star is_space; Chr (in_range 65 68)].

(** Every block of the text is so marked. *)
Definition well_marked (text_ : text) : bool :=
  forallb (fun b => negb (is_none (re_search well_marked_re (b_content b))))
          (blocks text_).

(** Two records agree on all but the choice texts, the correct flags
    and the explanation. *)
Definition same_head (q q' : QuestionRecord) : Prop :=
  q_id q = q_id q' /\ q_domain q = q_domain q' /\ q_question q = q_question q'
  /\ map c_id (q_choices q) = map c_id (q_choices q')
  /\ q_reference q = q_reference q'.

(** [embeds R l l']: the elements of [l] are related, in order, to
    elements of a subsequence of [l']. *)
Inductive embeds {A : Type} (R : A -> A -> Prop) : list A -> list A -> Prop :=
| embeds_nil : embeds R [] []
| embeds_skip : forall y l l', embeds R l l' -> embeds R l (y :: l')
| embeds_take : forall x y l l',
    R x y -> embeds R l l' -> embeds R (x :: l) (y :: l').

(** Length of the run of [p] at the head of [s]. *)
Fixpoint span_len (p : ascii -> bool) (s : text) : nat :=
  match s with
  | c :: s' => if p c then S (span_len p s') else 0
  | [] => 0
  end.

(** Every maximal run of [p] replaced by one space; [inrun] tells that
    the run has begun. *)
Fixpoint squeeze (p : ascii -> bool) (inrun : bool) (s : text) : text :=
  match s with
  | [] => []
  | c :: s' =>
      if p c then
        if inrun then squeeze p true s' else " "%char :: squeeze p true s'
      else c :: squeeze p false s'
  end.

(** Whitespace is single spaces, none after [prev_space]. *)
Fixpoint tidy (prev_space : bool) (s : text) : bool :=
  match s with
  | [] => true
  | c :: s' =>
      if is_space c
      then Ascii.eqb c " " && negb prev_space && tidy true s'
      else tidy false s'
  end.

(** The text does not begin with whitespace. *)
Definition no_lead (s : text) : bool :=
  match s with
  | [] => true
  | c :: _ => negb (is_space c)
  end.


(** ** Book builder *)

(** A choice dict of [questions.json]. *)
Definition json_of_choice (c : Choice) : json :=
  JObj [(T "id", JStr (c_id c)); (T "text", JStr (c_text c));
        (T "correct", JBool (c_correct c))].

(** A question dict with all six keys, as [json.dumps] gets it from the
    extractor. *)
Definition json_of_question (q : QuestionRecord) : json :=
  JObj [(T "id", JStr (q_id q)); (T "domain", JStr (q_domain q));
        (T "question", JStr (q_question q));
        (T "choices", JArr (map json_of_choice (q_choices q)));
        (T "explanation", JStr (q_explanation q));
        (T "reference", JStr (q_reference q))].

(** A dict whose domain is absent or a string. *)
Definition is_obj_with_str_domain (q : json) : Prop :=
  exists items, q = JObj items
    /\ (dict_lookup (T "domain") items = None
        \/ exists d, dict_lookup (T "domain") items = Some (JStr d)).

(** A question dict the builder can file and render. *)
Definition renderable (q : json) : Prop :=
  is_obj_with_str_domain q /\ exists t, render_question q = Ok t.

(** An item of [domains] with a string key and renderable questions. *)
Definition str_key (kv : json * list json) : Prop :=
  (exists d, fst kv = JStr d) /\ Forall renderable (snd kv).

(** Id and text of the first choice marked correct, both empty when
    there is none. *)
Definition answer_of (q : QuestionRecord) : text * text :=
  match find c_correct (q_choices q) with
  | Some c => (c_id c, c_text c)
  | None => ([], [])
  end.

(** The block [build_epub] writes for a record. *)
Definition block_of (q : QuestionRecord) : text :=
  qa_block (html_escape (q_id q)) (_as_paragraphs (strip (q_question q)))
    (html_escape (fst (answer_of q)))
    (if nonempty (snd (answer_of q)) then T ": " else [])
    (html_escape (snd (answer_of q))).

(** The record belongs to domain [d]. *)
Definition in_domain (d : text) (q : QuestionRecord) : bool :=
  text_eqb (q_domain q) d.

(** Every chapter document holds the blocks of the records of one
    domain, in input order. *)
Definition chapters_of (qs : list QuestionRecord) (st : locals) : Prop :=
  Forall (fun kv => exists d,
            snd kv = chapter_xhtml d (map block_of (filter (in_domain d) qs)))
         (chapters st).

(** The key is missing from the dict, or its value is [None]. *)
Definition absent_or_null (k : text) (items : list (text * json)) : bool :=
  match dict_lookup k items with
  | None | Some JNull => true
  | Some _ => false
  end.

(** Tests on archive entries. *)
Definition compression_eqb (a b : compression) : bool :=
  match a, b with
  | ZIP_STORED, ZIP_STORED | ZIP_DEFLATED, ZIP_DEFLATED => true
  | _, _ => false
  end.

Definition is_icon_entry (e : zip_entry) : bool :=
  text_eqb (e_name e) (T "OEBPS/pwa-icon.svg")
  && compression_eqb (e_compress e) ZIP_STORED.

Definition is_deflated (e : zip_entry) : bool :=
  compression_eqb (e_compress e) ZIP_DEFLATED.

(** The domain under which [build_epub] files a question dict. *)
Definition domain_of (q : json) : text :=
  match q with
  | JObj items =>
      match dict_lookup (T "domain") items with
      | Some (JStr d) => d
      | Some _ => []
      | None => T "Uncategorized"
      end
  | _ => []
  end.

(** The distinct values of a list, each at its first occurrence. *)
Fixpoint first_seen (l : list text) : list text :=
  match l with
  | [] => []
  | x :: rest => x :: filter (fun y => negb (text_eqb x y)) (first_seen rest)
  end.

(** [_slugify(domain) or 'domain'] *)
Definition slug_of (d : text) : text :=
  let slug := _slugify d in
  if nonempty slug then slug else T "domain".

(** [enumerate(l, start=idx)] *)
Fixpoint numbered (idx : nat) (l : list text) : list (nat * text) :=
  match l with
  | [] => []
  | d :: rest => (idx, d) :: numbered (S idx) rest
  end.

(** One step of the grouping, on the keys alone. *)
Definition add_label (acc : list text) (d : text) : list text :=
  if existsb (fun k => text_eqb k d) acc then acc else acc ++ [d].

(** [s.startswith(p)] *)
Fixpoint starts_with (p s : text) : bool :=
  match p, s with
  | [], _ => true
  | c :: p', d :: s' => Ascii.eqb c d && starts_with p' s'
  | _ :: _, [] => false
  end.

(** The opening of every tag the chapter template writes. *)
Definition chapter_tags : list text :=
  [ Tq "<?xml version=`1.0` encoding=`utf-8`?>"; T "<!DOCTYPE html>";
    Tq "<html xmlns=`http://www.w3.org/1999/xhtml` xml:lang=`en`>";
    T "<head>"; T "</head>"; T "<title>"; T "</title>";
    Tq "<link rel=`stylesheet` type=`text/css` href=`../styles/style.css`/>";
    T "<body>"; T "</body>"; T "</html>";
    Tq "<p class=`domain`>"; Tq "<p class=`answer`>"; T "<p>"; T "</p>";
    T "<h1>"; T "</h1>"; Tq "<h2 id=`"; T "</h2>";
    Tq "<div class=`qa`>"; T "</div>"; T "<b>"; T "</b>"; T "<br/>"; T "<hr/>" ].

(** The references [html.escape] writes. *)
Definition entities : list text :=
  [ T "&amp;"; T "&lt;"; T "&gt;"; T "&quot;"; T "&#x27;" ].

(** [ok] holds of every non-empty suffix of [s]. *)
Fixpoint scan (ok : text -> bool) (s : text) : bool :=
  match s with
  | [] => true
  | _ :: s' => ok s && scan ok s'
  end.

(** The text begins with the character [c]. *)
Definition begins (c : ascii) (s : text) : bool :=
  match s with
  | d :: _ => Ascii.eqb c d
  | [] => false
  end.

(** In escaped text no [<], [>], double or single quote occurs, and
    every [&] opens a reference. *)
Definition plain_or_entity (s : text) : bool :=
  negb (begins "<" s || begins ">" s || begins dq s || begins "'" s)
  && (negb (begins "&" s) || existsb (fun e => starts_with e s) entities).

Definition escaped_text : text -> bool := scan plain_or_entity.

(** In a chapter document every [<] opens a tag of the template and
    every [&] opens a reference. *)
Definition tag_or_entity (s : text) : bool :=
  (negb (begins "<" s) || existsb (fun t => starts_with t s) chapter_tags)
  && (negb (begins "&" s) || existsb (fun e => starts_with e s) entities).

Definition markup_from_template : text -> bool := scan tag_or_entity.

(** A test on the head of a text that still holds when text is
    appended. *)
Definition stable (ok : text -> bool) : Prop :=
  forall c s t, ok (c :: s) = true -> ok ((c :: s) ++ t) = true.

(** Every chapter document written so far passes the test. *)
Definition all_chapters_markup (st : locals) : Prop :=
  Forall (fun kv => markup_from_template (snd kv) = true) (chapters st).

(** The book of a run that returned. *)
Definition book_or_empty (r : result book) : book :=
  match r with
  | Ok b => b
  | Raise _ => mkBook initial_locals []
  end.


(** ** Sample inputs *)

(** One well-formed question block. *)
Definition one_block : text :=
  lines [T "Question #: 1 - [Access Control]"; T "What is it?";
         T "A. foo B. bar C. baz D. qux"; T "Answer: B"; T "Because."].

(** The record the baseline parser emits for it. *)
Definition one_block_record : QuestionRecord :=
  mkQuestion (T "Q1") (T "Access Control") (T "What is it?")
    [ mkChoice (T "A") (T "foo") false; mkChoice (T "B") (T "bar") true;
      mkChoice (T "C") (T "baz") false; mkChoice (T "D") (T "qux") false ]
    (T "Because.") [].


(** A boilerplate phrase inside a copy of itself. *)
Definition nested_phrase : text := T "PracPractice Examtice Exam".

(** Text without boilerplate, with runs of whitespace. *)
Definition spaced : text :=
  lines [T "  two   words"; T ""; T " and a line  "].

(** Three questions whose domains first occur in the order Risk, Access. *)
Definition two_domains : list json :=
  [ JObj [(T "id", JStr (T "Q1")); (T "domain", JStr (T "Risk"))];
    JObj [(T "id", JStr (T "Q2")); (T "domain", JStr (T "Access"))];
    JObj [(T "id", JStr (T "Q3")); (T "domain", JStr (T "Risk"))] ].

Definition two_domains_book : book :=
  book_or_empty (build_epub two_domains (T "t") (T "id") (T "now") None).

(** One question dict whose domain is [null]. *)
Definition null_domain : list json := [JObj [(T "domain", JNull)]].

(** A record with markup characters in id, domain, stem and answer. *)
Definition markup_question : QuestionRecord :=
  mkQuestion (T "Q<1>") (T "Risk & Audit") (T "Is a < b & c?")
    [ mkChoice (T "A") (T "no") false; mkChoice (T "B") (T "it's so") true ]
    [] [].

Definition markup_book : book :=
  book_or_empty (build_epub [json_of_question markup_question]
                   (T "t") (T "id") (T "now") None).

(** A record none of whose choices is marked correct. *)
Definition no_correct : QuestionRecord :=
  mkQuestion (T "Q7") (T "Risk") (T "Which one?")
    [ mkChoice (T "A") (T "this") false; mkChoice (T "B") (T "that") false ]
    [] [].


(** ** Positions, slices and further notions *)

(** The first position of [s] from which [test] holds of the rest. *)
Fixpoint first_where (test : text -> bool) (s : text) : option nat :=
  if test s then Some 0
  else match s with
       | [] => None
       | _ :: s' => option_map S (first_where test s')
       end.

(** [s.find(mk)], as an option. *)
Definition find_sub (mk : text) (s : text) : option nat :=
  first_where (starts_with mk) s.

(** The position reached from [b], [a] after [n] more characters. *)
Definition advance (n : nat) (b a : text) (cs : list (nat * text)) : mstate :=
  MState (rev (firstn n a) ++ b) (skipn n a) cs.

(** [$] without [re.MULTILINE], on the text ahead. *)
Definition at_end (s : text) : bool :=
  match s with
  | [] => true
  | [c] => (code c =? 10)%N
  | _ => false
  end.

(** The lookahead [(?=next\s*|$)]. *)
Definition stops (next : text) (s : text) : bool :=
  starts_with next s || at_end s.

(** The text up to the first position that passes [look], all of it when
    there is none. *)
Definition text_upto (look : text -> bool) (s : text) : text :=
  match first_where look s with
  | Some n => firstn n s
  | None => s
  end.

(** The match object of a choice pattern at a position that starts with
    the marker. *)
Definition choice_match (this next : text) (b a : text) : match_obj :=
  let st1 := advance (length this) b a [] in
  let st2 := advance (span_len is_space (after st1)) (before st1) (after st1) [] in
  let n := match first_where (stops next) (after st2) with
           | Some n => n
           | None => 0
           end in
  MatchObj (length b)
           (length (before (advance n (before st2) (after st2) [])))
           [(1, firstn n (after st2))].

(** After optional whitespace the text starts with [mk]: the lookahead
    [(?=\s*mk)]. *)
Definition starts_after_space (mk : text) (s : text) : bool :=
  starts_with mk (lstrip s).

(** [x is not None] *)
Definition is_some {A : Type} (x : option A) : bool :=
  match x with Some _ => true | None => false end.

(** The text starts with one of the letters [A] to [D]. *)
Definition letter_ahead (s : text) : bool :=
  match s with
  | c :: _ => in_range 65 68 c
  | [] => false
  end.

(** [Answer:\s*[A-D]] matches here. *)
Definition answer_at (s : text) : bool :=
  starts_with (T "Answer:") s && letter_ahead (lstrip (skipn 7 s)).

(** The first answer marker of a text: its letter and what follows it. *)
Definition answer_split (s : text) : option (text * text) :=
  option_map (fun i => let r := lstrip (skipn (i + 7) s) in
                       (firstn 1 r, skipn 1 r))
             (first_where answer_at s).

(** Where the stem pattern ends when its first group takes [n]
    characters, and the two groups it has captured. *)
Definition q_state (n : nat) (b a : text) : mstate :=
  let st1 := advance n b a [(1, firstn n a)] in
  let st2 := advance (span_len is_space (after st1)) (before st1) (after st1)
               (caps st1) in
  let st3 := advance 2 (before st2) (lstrip (after st1)) (caps st1) in
  MState (rev (lstrip (after st3))
          ++ before (advance (span_len is_space (after st3)) (before st3)
                       (after st3) (caps st3)))
         [] ((2, lstrip (after st3)) :: caps st3).

(** The position after the letter of an answer marker that begins at
    [b], [a]. *)
Definition answer_state (b a : text) : mstate :=
  let st1 := advance 7 b a [] in
  let st2 := advance (span_len is_space (after st1)) (before st1) (after st1)
               [] in
  advance 1 (before st2) (after st2) [(1, firstn 1 (after st2))].

(** Where the explanation pattern ends when it begins at [b], [a],
    and its group. *)
Definition explanation_state (b a : text) : mstate :=
  let st1 := advance 7 b a [] in
  let st2 := advance (span_len is_space (after st1)) (before st1) (after st1)
               [] in
  let st3 := advance 1 (before st2) (after st2) [] in
  MState (rev (lstrip (after st3))
          ++ before (advance (span_len is_space (after st3)) (before st3)
                       (after st3) []))
         [] [(1, lstrip (after st3))].

(** The stripped text between the first [D.] and the first [Answer:]
    after it; empty when either is missing. *)
Definition last_choice_text (s : text) : text :=
  match find_sub (T "D.") s with
  | Some i =>
      match find_sub (T "Answer:") (skipn (i + 2) s) with
      | Some j => strip (firstn j (skipn (i + 2) s))
      | None => []
      end
  | None => []
  end.

(** [D.] here, and [Answer:] somewhere after it. *)
Definition d_at (s : text) : bool :=
  starts_with (T "D.") s
  && is_some (first_where (starts_after_space (T "Answer:"))
                (lstrip (skipn 2 s))).

(** Where the baseline pattern for choice D ends when it begins at
    [b], [a], and its group. *)
Definition d_state (b a : text) : mstate :=
  let st1 := advance 2 b a [] in
  let st2 := advance (span_len is_space (after st1)) (before st1) (after st1)
               [] in
  let n := match first_where (starts_after_space (T "Answer:")) (after st2) with
           | Some n => n
           | None => 0
           end in
  set_cap 1 (firstn n (after st2)) (advance n (before st2) (after st2) []).

(** The stripped text of a choice: from its marker to the next marker or
    the end of the text; [None] without the marker. *)
Definition choice_text (this next : string) (s : text) : option text :=
  option_map
    (fun i => strip (text_upto (stops (T next))
                       (lstrip (skipn (i + length (T this)) s))))
    (find_sub (T this) s).

(** [x if x is not None else ''] *)
Definition or_empty (x : option text) : text :=
  match x with
  | Some t => t
  | None => []
  end.

(** The baseline block parser written with positions and slices. *)
Definition baseline_slice_block (b : block) : option QuestionRecord :=
  let content := b_content b in
  match answer_split content with
  | None => None
  | Some (letter, tail) =>
      match find_sub (T "A.") content with
      | None => None
      | Some i =>
          Some (mkQuestion (T "Q" ++ str_of_int (b_num b)) (b_domain b)
                  (strip (firstn i content))
                  (mk_choices letter
                     (or_empty (choice_text "A." "B." content))
                     (or_empty (choice_text "B." "C." content))
                     (or_empty (choice_text "C." "D." content))
                     (last_choice_text content))
                  (match strip tail with
                   | [] => []
                   | _ => Baseline.clean_explanation (strip tail)
                   end)
                  [])
      end
  end.

(** The fixed block parser written with positions and slices. *)
Definition fixed_slice_block (b : block) : option QuestionRecord :=
  let content := b_content b in
  match find_sub (T "A.") content with
  | None => None
  | Some i =>
      let rest := lstrip (skipn (i + 2) content) in
      match choice_text "A." "B." rest, choice_text "B." "C." rest,
            choice_text "C." "D." rest, choice_text "D." "Answer:" rest,
            answer_split rest with
      | Some a_text, Some b_text, Some c_text, Some d_text,
        Some (letter, tail) =>
          Some (mkQuestion (T "Q" ++ str_of_int (b_num b)) (b_domain b)
                  (strip (firstn i content))
                  (mk_choices letter a_text b_text c_text d_text)
                  (Fixed.clean_explanation (strip tail))
                  [])
      | _, _, _, _, _ => None
      end
  end.

(** The text has no whitespace at either end. *)
Definition trimmed (s : text) : Prop := strip s = s.

(** The block has both markers the baseline parser asks for. *)
Definition has_markers (b : block) : bool :=
  negb (lacks_answer b || lacks_choice_A b).

(** The pattern has no look-ahead and no anchor: what it does on a text
    it does on every longer text. *)
Fixpoint no_lookaround (r : regex) : bool :=
  match r with
  | Ahead _ | Bol | Eol | Eos | WordB => false
  | Seq r1 r2 | Alt r1 r2 => no_lookaround r1 && no_lookaround r2
  | Grp _ r1 => no_lookaround r1
  | _ => true
  end.

(** The position [st] with [w] appended to the subject. *)
Definition extend (w : text) (st : mstate) : mstate :=
  MState (before st) (after st ++ w) (caps st).

(** [finditer] found the matches [ms] from position [from] on: each is
    non-empty and begins where the pattern first matches again. *)
Fixpoint leftmost_matches (r : regex) (s : text) (from : nat)
    (ms : list match_obj) : Prop :=
  match ms with
  | [] => forall p, from <= p -> match_at r [] (skipn p s) = None
  | m :: ms' =>
      from <= m_start m /\ m_start m < m_end m
      /\ (forall p, from <= p -> p < m_start m ->
                    match_at r [] (skipn p s) = None)
      /\ leftmost_matches r s (m_end m) ms'
  end.

(** A character [_slugify] may write: a lower-case alphanumeric or a
    hyphen. *)
Definition slug_char (c : ascii) : bool :=
  (is_alnum c && Ascii.eqb (char_lower c) c) || Ascii.eqb c "-".

(** [build_epub] files the question dict under domain [d]. *)
Definition filed_under (d : text) (q : json) : bool :=
  text_eqb (domain_of q) d.

(** The chapter written for the [i]-th domain [d], given the questions
    filed under it: its key in [chapters] and its document. *)
Definition chapter_for (items_of : text -> list json)
    (numbered_domain : nat * text) (kv : text * text) : Prop :=
  let '(i, d) := numbered_domain in
  fst kv = file_name_of i (slug_of d)
  /\ exists q_blocks,
       map_result render_question (items_of d) = Ok q_blocks
       /\ snd kv = chapter_xhtml d q_blocks.

(** [isinstance(q, dict)] *)
Definition is_dict (q : json) : bool :=
  match q with
  | JObj _ => true
  | _ => false
  end.

(** The domain of the dict is absent or a string. *)
Definition domain_is_text (q : json) : bool :=
  match q with
  | JObj items =>
      match dict_lookup (T "domain") items with
      | None | Some (JStr _) => true
      | Some _ => false
      end
  | _ => false
  end.

(** The name of a chapter entry: [OEBPS/text/] and a digit. *)
Definition chapter_entry_name (name : text) : bool :=
  starts_with (T "OEBPS/text/") name
  && match skipn 11 name with
     | c :: _ => is_digit c
     | [] => false
     end.

(** [s.endswith(p)] *)
Definition ends_with (p s : text) : bool := starts_with (rev p) (rev s).

(** A block with one [A.] only. *)
Definition single_A_block : block :=
  mkBlock 1 (T "X") (T "Q? A. a B. b C. c D. d Answer: A").

(** A block in which every marker occurs after a second [A.]. *)
Definition double_A_block : block :=
  mkBlock 8 (T "Y") (T "Q? A. or A. a B. b C. c D. d Answer: C").

(** One question dict whose domain is a number. *)
Definition numeric_domain : list json := [JObj [(T "domain", JNum 3)]].

(** Two lines of text with markup characters, no blank line. *)
Definition two_lines : text := lines [T " a < b"; T "c & d "].


(** ** Runs, numerals and documents *)


(** The digits of a text as a numeral of the library. *)
Fixpoint uint_of_digits (ds : text) : Decimal.uint :=
  match ds with
  | [] => Decimal.Nil
  | c :: ds' =>
      match (code c - 48)%N with
      | 0 => Decimal.D0 | 1 => Decimal.D1 | 2 => Decimal.D2
      | 3 => Decimal.D3 | 4 => Decimal.D4 | 5 => Decimal.D5
      | 6 => Decimal.D6 | 7 => Decimal.D7 | 8 => Decimal.D8
      | _ => Decimal.D9
      end%N (uint_of_digits ds')
  end.

(** The number a run of decimal digits denotes, and the decimal
    numeral of a number: no sign, no leading zero. *)
Definition numeral_value (ds : text) : N := N.of_uint (uint_of_digits ds).

Definition numeral (n : N) : text :=
  T (NilEmpty.string_of_uint (N.to_uint n)).

(** The fixed parser skips the block: [A.] is missing, or the text
    after the first [A.] lacks one of [A.], [B.], [C.], [D.] and the
    answer marker. *)
Definition fixed_lacks (b : block) : bool :=
  match find_sub (T "A.") (b_content b) with
  | None => true
  | Some i =>
      let rest := lstrip (skipn (i + 2) (b_content b)) in
      is_none (find_sub (T "A.") rest) || is_none (find_sub (T "B.") rest)
      || is_none (find_sub (T "C.") rest) || is_none (find_sub (T "D.") rest)
      || is_none (first_where answer_at rest)
  end.

(** Three headers; the second block has no answer marker, and the
    others have every marker after a second [A.]. *)
Definition three_blocks : text :=
  lines [T "Question #: 1 - [X]"; T "Q? A. x A. a B. b C. c D. d";
         T "Answer: C";
         T "Question #: 02 - [X]"; T "stem A. a B. b";
         T "Question #: 03 - [Y]"; T "Q? A. y A. a B. b C. c D. d";
         T "Answer: A"].


(** One step of reading a decimal numeral. *)
Definition digit_step (acc : N) (c : ascii) : N := (acc * 10 + (code c - 48))%N.

(** The pattern has no capturing group. *)
Fixpoint cap_free (r : regex) : bool :=
  match r with
  | Seq r1 r2 | Alt r1 r2 => cap_free r1 && cap_free r2
  | Grp _ _ => false
  | _ => true
  end.

(** The reference that stands for a character in escaped text. *)
Definition entity (c : ascii) : text :=
  if Ascii.eqb c "&" then T "&amp;"
  else if Ascii.eqb c "<" then T "&lt;"
  else if Ascii.eqb c ">" then T "&gt;"
  else if Ascii.eqb c dq then T "&quot;"
  else if Ascii.eqb c "'" then T "&#x27;"
  else [c].

(** A text with every markup character replaced by its reference. *)
Definition escaped (s : text) : text := flat_map entity s.

(** A paragraph of a stem: escaped, each newline a line break. *)
Definition paragraph (p : text) : text :=
  T "<p>"
  ++ flat_map (fun c => if Ascii.eqb c nl then T "<br/>" else entity c) p
  ++ T "</p>".

(** The answer line of a block, for the choice it shows. *)
Definition answer_line (shown : option Choice) : text :=
  Tq "  <p class=`answer`><b>Answer:</b> "
  ++ match shown with
     | Some c => escaped (c_id c)
                 ++ (if nonempty (c_text c) then T ": " else [])
                 ++ escaped (c_text c)
     | None => []
     end
  ++ T "</p>".

(** The block of a record whose stem makes the paragraphs [parts]; the
    answer line shows the first choice marked correct. *)
Definition rendered_block (q : QuestionRecord) (parts : list text) : text :=
  ln "<div class=`qa`>"
  ++ Tq "  <h2 id=`" ++ escaped (q_id q) ++ Tq "`>" ++ escaped (q_id q)
  ++ ln "</h2>"
  ++ T "  " ++ join [nl] (map paragraph parts) ++ [nl]
  ++ answer_line (find c_correct (q_choices q)) ++ [nl]
  ++ ln "  <hr/>"
  ++ T "</div>".

(** The chapter document of a domain, around its blocks. *)
Definition rendered_chapter (d : text) (blocks : list text) : text :=
  ln "<?xml version=`1.0` encoding=`utf-8`?>"
  ++ ln "<!DOCTYPE html>"
  ++ ln "<html xmlns=`http://www.w3.org/1999/xhtml` xml:lang=`en`>"
  ++ ln "<head>"
  ++ T "  <title>" ++ escaped d ++ ln "</title>"
  ++ ln "  <link rel=`stylesheet` type=`text/css` href=`../styles/style.css`/>"
  ++ ln "</head>"
  ++ ln "<body>"
  ++ Tq "  <p class=`domain`>" ++ escaped d ++ ln "</p>"
  ++ T "  <h1>" ++ escaped d ++ ln "</h1>"
  ++ join [nl] blocks
  ++ [nl] ++ ln "</body>" ++ ln "</html>".

(** The record with no choice marked correct. *)
Definition unmarked (q : QuestionRecord) : QuestionRecord :=
  mkQuestion (q_id q) (q_domain q) (q_question q)
    (map (fun c => mkChoice (c_id c) (c_text c) false) (q_choices q))
    (q_explanation q) (q_reference q).

(** A record with markup characters and a quote in its id. *)
Definition quoted_question : QuestionRecord :=
  mkQuestion (Tq "Q`><b>1") (T "Risk & Audit") (T "Is a < b & c?")
    [ mkChoice (T "A") (T "no") false; mkChoice (T "B") (T "it's so") true ]
    [] [].

(** Reading UTF-8 back, for code points up to U+00FF. *)
Fixpoint utf8_decode (bs : bytes) : option text :=
  match bs with
  | [] => Some []
  | b :: rest =>
      let n := code (ascii_of_byte b) in
      if (n <? 128)%N
      then option_map (cons (ascii_of_byte b)) (utf8_decode rest)
      else
        match rest with
        | b2 :: rest' =>
            let n2 := code (ascii_of_byte b2) in
            if ((194 <=? n) && (n <=? 195) && (128 <=? n2) && (n2 <? 192))%N
            then option_map (cons (ascii_of_N ((n - 192) * 64 + (n2 - 128))))
                            (utf8_decode rest')
            else None
        | [] => None
        end
  end.

(** The chapters of a book: the distinct domains of the questions in
    the order of their first occurrence, numbered from 1. *)
Definition book_chapters (qs : list json) : list (nat * text) :=
  numbered 1 (first_seen (map domain_of qs)).

(** File and manifest id of the chapter numbered [i], of domain [d]. *)
Definition chapter_file (i : nat) (d : text) : text :=
  T "text/" ++ pad2 i ++ T "-" ++ slug_of d ++ T ".xhtml".

Definition chapter_id (i : nat) : text := T "domain" ++ pad2 i.

(** The table of contents, [nav.xhtml], with one entry for each
    chapter. *)
Definition toc_document (chs : list (nat * text)) : text :=
  ln "<?xml version=`1.0` encoding=`utf-8`?>"
  ++ ln "<!DOCTYPE html>"
  ++ ln "<html xmlns=`http://www.w3.org/1999/xhtml` xmlns:epub=`http://www.idpf.org/2007/ops` xml:lang=`en`>"
  ++ ln "<head>"
  ++ ln "  <title>Table of Contents</title>"
  ++ ln "  <link rel=`stylesheet` type=`text/css` href=`styles/style.css`/>"
  ++ ln "</head>"
  ++ ln "<body>"
  ++ ln "  <nav epub:type=`toc` id=`toc`>"
  ++ ln "    <h1>Contents</h1>"
  ++ ln "    <ol>"
  ++ concat (map (fun '(i, d) =>
                    Tq "      <li><a href=`" ++ escaped (chapter_file i d)
                    ++ Tq "`>" ++ escaped d ++ ln "</a></li>") chs)
  ++ ln "    </ol>"
  ++ ln "  </nav>"
  ++ ln "</body>"
  ++ ln "</html>".

(** The table of contents of older readers, [toc.ncx]. *)
Definition ncx_document (book_id title : text) (chs : list (nat * text))
    : text :=
  ln "<?xml version=`1.0` encoding=`UTF-8`?>"
  ++ ln "<!DOCTYPE ncx PUBLIC `-//NISO//DTD ncx 2005-1//EN` `http://www.daisy.org/z3986/2005/ncx-2005-1.dtd`>"
  ++ ln "<ncx xmlns=`http://www.daisy.org/z3986/2005/ncx/` version=`2005-1`>"
  ++ ln "  <head>"
  ++ Tq "    <meta name=`dtb:uid` content=`" ++ book_id ++ ln "`/>"
  ++ ln "  </head>"
  ++ T "  <docTitle><text>" ++ escaped title ++ ln "</text></docTitle>"
  ++ ln "  <navMap>"
  ++ concat (map (fun '(i, d) =>
                    Tq "    <navPoint id=`navPoint-" ++ str_of_int (N.of_nat i)
                    ++ Tq "` playOrder=`" ++ str_of_int (N.of_nat i) ++ ln "`>"
                    ++ T "      <navLabel><text>" ++ escaped d
                    ++ ln "</text></navLabel>"
                    ++ Tq "      <content src=`" ++ escaped (chapter_file i d)
                    ++ ln "`/>"
                    ++ ln "    </navPoint>") chs)
  ++ ln "  </navMap>"
  ++ ln "</ncx>".

(** The package document, [content.opf]: in the manifest the chapters
    follow the five fixed items, in the spine they follow the title
    page. *)
Definition package_document (book_id title now : text)
    (chs : list (nat * text)) : text :=
  ln "<?xml version=`1.0` encoding=`UTF-8`?>"
  ++ ln "<package xmlns=`http://www.idpf.org/2007/opf` unique-identifier=`bookid` version=`3.0`>"
  ++ ln "  <metadata xmlns:dc=`http://purl.org/dc/elements/1.1/`>"
  ++ Tq "    <dc:identifier id=`bookid`>urn:uuid:" ++ book_id
  ++ ln "</dc:identifier>"
  ++ T "    <dc:title>" ++ escaped title ++ ln "</dc:title>"
  ++ ln "    <dc:language>en</dc:language>"
  ++ ln "    <dc:creator>GRCJP</dc:creator>"
  ++ T "    <dc:date>" ++ escaped now ++ ln "</dc:date>"
  ++ ln "  </metadata>"
  ++ ln "  <manifest>"
  ++ ln "    <item id=`nav` href=`nav.xhtml` media-type=`application/xhtml+xml` properties=`nav`/>"
  ++ ln "    <item id=`css` href=`styles/style.css` media-type=`text/css`/>"
  ++ ln "    <item id=`icon` href=`pwa-icon.svg` media-type=`image/svg+xml`/>"
  ++ ln "    <item id=`title` href=`text/title.xhtml` media-type=`application/xhtml+xml`/>"
  ++ ln "    <item id=`ncx` href=`toc.ncx` media-type=`application/x-dtbncx+xml`/>"
  ++ concat (map (fun '(i, d) =>
                    Tq "    <item id=`" ++ chapter_id i ++ Tq "` href=`"
                    ++ chapter_file i d
                    ++ ln "` media-type=`application/xhtml+xml`/>") chs)
  ++ ln "  </manifest>"
  ++ ln "  <spine toc=`ncx`>"
  ++ ln "    <itemref idref=`title`/>"
  ++ concat (map (fun '(i, d) =>
                    Tq "    <itemref idref=`" ++ chapter_id i ++ ln "`/>") chs)
  ++ ln "  </spine>"
  ++ ln "</package>".

(** Name and text of an archive entry. *)
Definition entry_text (e : zip_entry) : text * option text :=
  (e_name e, utf8_decode (e_data e)).

(** * The matcher *)

Section Matcher.

Lemma rep_nil : forall g lo p b cs k,
  rep g lo p b [] cs k =
  match lo with 0 => k (MState b [] cs) | S _ => None end.
Proof.
  intros g lo p b cs k. destruct g, lo; simpl; try reflexivity.
  destruct (k (MState b [] cs)); reflexivity.
Qed.

Lemma rep_sound : forall g p a lo b cs k res,
  rep g lo p b a cs k = Some res ->
  exists n, lo <= n /\ n <= length a /\ forallb p (firstn n a) = true /\
            k (MState (rev (firstn n a) ++ b) (skipn n a) cs) = Some res.
Proof.
  intros g p a. induction a as [|c a IH]; intros lo b cs k res H.
  - rewrite rep_nil in H. destruct lo; [|discriminate].
    exists 0. simpl. repeat split; auto.
  - assert (Hstay : match lo with 0 => k (MState b (c :: a) cs) | S _ => None end
                    = Some res ->
                    exists n, lo <= n /\ n <= length (c :: a) /\
                      forallb p (firstn n (c :: a)) = true /\
                      k (MState (rev (firstn n (c :: a)) ++ b)
                           (skipn n (c :: a)) cs) = Some res).
    { intros Hs. destruct lo; [|discriminate].
      exists 0. simpl. repeat split; auto. lia. }
    assert (Hgo : (if p c then rep g (pred lo) p (c :: b) a cs k else None)
                  = Some res ->
                  exists n, lo <= n /\ n <= length (c :: a) /\
                    forallb p (firstn n (c :: a)) = true /\
                    k (MState (rev (firstn n (c :: a)) ++ b)
                         (skipn n (c :: a)) cs) = Some res).
    { intros Hg. destruct (p c) eqn:Hp; [|discriminate].
      apply IH in Hg. destruct Hg as (n & Hlo & Hlen & Hall & Hk).
      exists (S n). simpl. rewrite Hp, Hall. rewrite <- app_assoc. simpl.
      repeat split; auto; lia. }
    simpl in H. destruct g.
    + destruct (if p c then rep true (pred lo) p (c :: b) a cs k else None).
      * apply Hgo. exact H.
      * apply Hstay. exact H.
    + destruct (match lo with 0 => k (MState b (c :: a) cs) | S _ => None end).
      * apply Hstay. exact H.
      * apply Hgo. exact H.
Qed.

Lemma rep_complete : forall g p a lo b cs k n,
  lo <= n -> n <= length a -> forallb p (firstn n a) = true ->
  k (MState (rev (firstn n a) ++ b) (skipn n a) cs) <> None ->
  rep g lo p b a cs k <> None.
Proof.
  intros g p a. induction a as [|c a IH]; intros lo b cs k n Hlo Hlen Hall Hk.
  - rewrite rep_nil. simpl in Hlen. assert (n = 0) by lia. subst.
    assert (lo = 0) by lia. subst. exact Hk.
  - destruct n as [|n].
    + assert (lo = 0) by lia. subst. simpl in Hk. simpl.
      destruct g.
      * destruct (if p c then rep true 0 p (c :: b) a cs k else None);
          [discriminate | exact Hk].
      * destruct (k (MState b (c :: a) cs)); [discriminate | congruence].
    + simpl in Hall, Hk, Hlen. apply andb_true_iff in Hall.
      destruct Hall as [Hp Hall]. rewrite <- app_assoc in Hk. simpl in Hk.
      assert (Hgo : rep g (pred lo) p (c :: b) a cs k <> None).
      { apply IH with (n := n); auto; lia. }
      simpl. rewrite Hp. destruct g.
      * destruct (rep true (pred lo) p (c :: b) a cs k);
          [discriminate | congruence].
      * destruct (match lo with 0 => k (MState b (c :: a) cs) | S _ => None end);
          [discriminate | exact Hgo].
Qed.

(** Whatever the matcher returns was reached by a run of the pattern. *)
Lemma rmatch_sound : forall r st k res,
  rmatch r st k = Some res ->
  exists st', Step r st st' /\ k st' = Some res.
Proof.
  induction r; intros st k res H; simpl in H.
  - exists st. split; [constructor | exact H].
  - destruct st as [b a cs]. simpl in H. destruct a as [|c a]; [discriminate|].
    destruct (p c) eqn:Hp; [|discriminate].
    eexists. split; [constructor; exact Hp | exact H].
  - apply IHr1 in H. destruct H as (st2 & H1 & H).
    apply IHr2 in H. destruct H as (st3 & H2 & H).
    exists st3. split; [econstructor; eauto | exact H].
  - destruct (rmatch r1 st k) eqn:E.
    + inversion H; subst. apply IHr1 in E. destruct E as (st' & H1 & Hk).
      exists st'. split; [apply St_alt_l; exact H1 | exact Hk].
    + apply IHr2 in H. destruct H as (st' & H1 & Hk).
      exists st'. split; [apply St_alt_r; exact H1 | exact Hk].
  - destruct st as [b a cs]. simpl in H. apply rep_sound in H.
    destruct H as (n & Hlo & Hlen & Hall & Hk).
    eexists. split; [apply St_rep with (n := n); eauto | exact Hk].
  - apply IHr in H. destruct H as (st' & H1 & Hk).
    eexists. split; [apply St_grp; exact H1 | exact Hk].
  - destruct (rmatch r st Some) eqn:E; [|discriminate].
    apply IHr in E. destruct E as (st' & H1 & _).
    exists st. split; [eapply St_ahead; exact H1 | exact H].
  - destruct (at_bol st) eqn:E; [|discriminate].
    exists st. split; [constructor; exact E | exact H].
  - destruct (at_eol st) eqn:E; [|discriminate].
    exists st. split; [constructor; exact E | exact H].
  - destruct (at_eos st) eqn:E; [|discriminate].
    exists st. split; [constructor; exact E | exact H].
  - destruct (at_wordb st) eqn:E; [|discriminate].
    exists st. split; [constructor; exact E | exact H].
Qed.

(** If some run of the pattern leads to a position the continuation
    accepts, the matcher finds a match. *)
Lemma rmatch_complete : forall r st st',
  Step r st st' ->
  forall k, k st' <> None -> rmatch r st k <> None.
Proof.
  induction 1; intros k Hk; simpl.
  - exact Hk.
  - rewrite H. exact Hk.
  - apply IHStep1. apply IHStep2. exact Hk.
  - specialize (IHStep k Hk). destruct (rmatch r1 st k);
      [discriminate | congruence].
  - destruct (rmatch r1 st k); [discriminate | apply IHStep; exact Hk].
  - apply rep_complete with (n := n); auto.
  - apply IHStep. exact Hk.
  - assert (E : rmatch r st Some <> None) by (apply IHStep; discriminate).
    destruct (rmatch r st Some); [exact Hk | congruence].
  - rewrite H. exact Hk.
  - rewrite H. exact Hk.
  - rewrite H. exact Hk.
  - rewrite H. exact Hk.
Qed.

Lemma consumed_one : forall b c a cs b' cs',
  consumed (MState b (c :: a) cs) (MState b' a cs') = [c].
Proof.
  intros. unfold consumed. cbn [after length].
  replace (S (length a) - length a) with 1 by lia. reflexivity.
Qed.

Lemma consumed_all : forall b a cs b' cs',
  consumed (MState b a cs) (MState b' [] cs') = a.
Proof.
  intros. unfold consumed. cbn [after length].
  rewrite Nat.sub_0_r. apply firstn_all.
Qed.

Lemma first_some_none : forall (x y : option mstate),
  match x with Some s => Some s | None => y end = None <-> x = None /\ y = None.
Proof.
  intros [s|] y; split; intros H.
  - discriminate.
  - destruct H; discriminate.
  - auto.
  - apply H.
Qed.

Lemma rep_ctx : forall g p a lo b1 b2 cs1 cs2 k1 k2,
  agree k1 k2 ->
  (rep g lo p b1 a cs1 k1 = None <-> rep g lo p b2 a cs2 k2 = None).
Proof.
  intros g p a. induction a as [|c a IH]; intros lo b1 b2 cs1 cs2 k1 k2 Hk.
  - rewrite !rep_nil. destruct lo; [apply Hk; reflexivity | tauto].
  - assert (Hstay : match lo with 0 => k1 (MState b1 (c :: a) cs1) | S _ => None end = None
                    <-> match lo with 0 => k2 (MState b2 (c :: a) cs2) | S _ => None end = None).
    { destruct lo; [apply Hk; reflexivity | tauto]. }
    assert (Hgo : (if p c then rep g (pred lo) p (c :: b1) a cs1 k1 else None) = None
                  <-> (if p c then rep g (pred lo) p (c :: b2) a cs2 k2 else None) = None).
    { destruct (p c); [apply IH; exact Hk | tauto]. }
    simpl. destruct g; rewrite !first_some_none; tauto.
Qed.

Lemma rmatch_ctx : forall r,
  ctx_free r = true ->
  forall st1 st2 k1 k2,
    after st1 = after st2 -> agree k1 k2 ->
    (rmatch r st1 k1 = None <-> rmatch r st2 k2 = None).
Proof.
  induction r; intros Hr st1 st2 k1 k2 Ha Hk; simpl in *; try discriminate.
  - apply Hk; exact Ha.
  - rewrite Ha. destruct (after st2) as [|c a]; [tauto|].
    destruct (p c); [apply Hk; reflexivity | tauto].
  - apply andb_true_iff in Hr. destruct Hr as [H1 H2].
    apply IHr1; auto. intros s1 s2 Hs. apply IHr2; auto.
  - apply andb_true_iff in Hr. destruct Hr as [H1 H2].
    rewrite !first_some_none.
    rewrite (IHr1 H1 st1 st2 k1 k2 Ha Hk), (IHr2 H2 st1 st2 k1 k2 Ha Hk). tauto.
  - rewrite Ha. apply rep_ctx; exact Hk.
  - apply IHr; auto. intros s1 s2 Hs. apply Hk. exact Hs.
  - assert (E : rmatch r st1 Some = None <-> rmatch r st2 Some = None).
    { apply IHr; auto. intros s1 s2 _. split; discriminate. }
    destruct (rmatch r st1 Some), (rmatch r st2 Some).
    + apply Hk; exact Ha.
    + exfalso. destruct E as [_ E]. specialize (E eq_refl). discriminate.
    + exfalso. destruct E as [E _]. specialize (E eq_refl). discriminate.
    + tauto.
  - unfold at_eol. rewrite Ha. destruct (match after st2 with [] => true | c :: _ => (code c =? 10)%N end);
      [apply Hk; exact Ha | tauto].
  - unfold at_eos. rewrite Ha.
    destruct (match after st2 with [] => true | [c] => (code c =? 10)%N | _ => false end);
      [apply Hk; exact Ha | tauto].
Qed.

Lemma match_at_ctx : forall r b1 b2 a,
  ctx_free r = true -> match_at r b1 a = None -> match_at r b2 a = None.
Proof.
  intros r b1 b2 a Hr H. unfold match_at in *.
  destruct (rmatch r (MState b1 a []) Some) eqn:E1; [discriminate|].
  assert (E2 : rmatch r (MState b2 a []) Some = None).
  { apply (rmatch_ctx r Hr (MState b1 a []) (MState b2 a []) Some Some);
      [reflexivity | | exact E1].
    intros s1 s2 _. split; discriminate. }
  rewrite E2. reflexivity.
Qed.

Lemma search_from_cons : forall r b c a,
  search_from r b (c :: a) = None -> search_from r (c :: b) a = None.
Proof.
  intros r b c a H. simpl in H.
  destruct (match_at r b (c :: a)); [discriminate | exact H].
Qed.

Lemma search_from_ctx : forall r a b1 b2,
  ctx_free r = true -> search_from r b1 a = None -> search_from r b2 a = None.
Proof.
  intros r a. induction a as [|c a IH]; intros b1 b2 Hr H; simpl in *.
  - destruct (match_at r b1 []) eqn:E; [discriminate|].
    rewrite (match_at_ctx r b1 b2 [] Hr E). reflexivity.
  - destruct (match_at r b1 (c :: a)) eqn:E; [discriminate|].
    rewrite (match_at_ctx r b1 b2 (c :: a) Hr E).
    apply IH with (b1 := c :: b1); assumption.
Qed.

(** A pattern that does not look behind finds nothing in a suffix of a
    subject in which it finds nothing. *)
Lemma re_search_suffix : forall r u s,
  ctx_free r = true -> re_search r (u ++ s) = None -> re_search r s = None.
Proof.
  intros r u s Hr. unfold re_search.
  assert (G : forall b b', search_from r b (u ++ s) = None ->
                           search_from r b' s = None).
  { induction u as [|c u IH]; intros b b' H; simpl in H.
    - apply search_from_ctx with (b1 := b); assumption.
    - apply IH with (b := c :: b).
      destruct (match_at r b (c :: u ++ s)); [discriminate | exact H]. }
  apply G.
Qed.

Lemma search_from_found : forall r a b m,
  search_from r b a = Some m ->
  exists u a', a = u ++ a' /\ match_at r (rev u ++ b) a' = Some m.
Proof.
  intros r a. induction a as [|c a IH]; intros b m H; simpl in H.
  - destruct (match_at r b []) eqn:E; [|discriminate].
    inversion H; subst. exists [], []. split; [reflexivity | exact E].
  - destruct (match_at r b (c :: a)) eqn:E.
    + inversion H; subst. exists [], (c :: a). split; [reflexivity | exact E].
    + apply IH in H. destruct H as (u & a' & Ha & Hm).
      exists (c :: u), a'. split; [simpl; congruence|].
      simpl. rewrite <- app_assoc. exact Hm.
Qed.

Lemma Step_suffix : forall r st st',
  Step r st st' -> exists u, after st = u ++ after st'.
Proof.
  induction 1; simpl; try (exists []; reflexivity).
  - exists [c]. reflexivity.
  - destruct IHStep1 as [u1 H1]. destruct IHStep2 as [u2 H2].
    exists (u1 ++ u2). rewrite H1, H2, app_assoc. reflexivity.
  - exact IHStep.
  - exact IHStep.
  - exists (firstn n a). symmetry. apply firstn_skipn.
  - exact IHStep.
Qed.

Lemma rmatch_seq_sound : forall r1 r2 st k res,
  rmatch (Seq r1 r2) st k = Some res ->
  exists st', Step r1 st st' /\ rmatch r2 st' k = Some res.
Proof.
  intros r1 r2 st k res H.
  apply (rmatch_sound r1 st (fun st' => rmatch r2 st' k)). exact H.
Qed.

(** A greedy repetition followed by nothing that can fail takes the whole
    run. *)
Lemma rep_any_total : forall a b cs k,
  (forall st, k st <> None) ->
  rep true 0 any_char b a cs k = k (MState (rev a ++ b) [] cs).
Proof.
  induction a as [|c a IH]; intros b cs k Hk.
  - rewrite rep_nil. reflexivity.
  - simpl. rewrite IH by exact Hk. rewrite <- app_assoc. simpl.
    destruct (k (MState (rev a ++ c :: b) [] cs)) eqn:E; [reflexivity|].
    exfalso. exact (Hk _ E).
Qed.

Lemma search_from_complete : forall r u a b,
  match_at r (rev u ++ b) a <> None -> search_from r b (u ++ a) <> None.
Proof.
  intros r u. induction u as [|c u IH]; intros a b H.
  - simpl in *. destruct a as [|c a]; cbn [search_from];
      destruct (match_at r b _); congruence.
  - cbn [app search_from]. destruct (match_at r b (c :: u ++ a));
      [discriminate|].
    apply IH. simpl in H. rewrite <- app_assoc in H. exact H.
Qed.

(** Where a pattern that begins with the literal [s] is found, [s] is
    found. *)
Lemma search_literal_prefix : forall s r subject m,
  re_search (Seq (lit s) r) subject = Some m ->
  re_search (lit s) subject <> None.
Proof.
  intros s r subject m H. unfold re_search in *.
  apply search_from_found in H. destruct H as (u & a & Hs & H).
  subst subject. apply search_from_complete.
  unfold match_at in *.
  destruct (rmatch (Seq (lit s) r) (MState (rev u ++ []) a []) Some)
    as [res|] eqn:E; [|discriminate].
  apply rmatch_seq_sound in E. destruct E as (st' & S1 & _).
  pose proof (rmatch_complete _ _ _ S1 Some) as C.
  destruct (rmatch (lit s) (MState (rev u ++ []) a []) Some);
    [discriminate|].
  exfalso. apply C; [discriminate | reflexivity].
Qed.


End Matcher.

(** * The question parsers *)

Section Parsers.

(** [rest = q_match.group(2)] is a suffix of the block content. *)
Lemma q_rest_suffix : forall content m,
  re_search q_re content = Some m ->
  exists u, content = u ++ group m 2.
Proof.
  intros content m H. unfold re_search in H.
  apply search_from_found in H. destruct H as (u0 & a0 & Hc & H).
  unfold match_at in H.
  destruct (rmatch q_re (MState (rev u0 ++ []) a0 []) Some) as [res|] eqn:E;
    [|discriminate].
  inversion H; subst m; clear H.
  unfold q_re, seqs in E.
  apply rmatch_seq_sound in E. destruct E as (st1 & S1 & E).
  apply rmatch_seq_sound in E. destruct E as (st2 & S2 & E).
  apply rmatch_seq_sound in E. destruct E as (st3 & S3 & E).
  apply rmatch_seq_sound in E. destruct E as (st4 & S4 & E).
  apply Step_suffix in S1, S2, S3, S4.
  destruct S1 as [u1 H1], S2 as [u2 H2], S3 as [u3 H3], S4 as [u4 H4].
  simpl in H1.
  destruct st4 as [b4 a4 cs4]. simpl in E, H4.
  unfold star in E. simpl in E.
  rewrite rep_any_total in E by (intros; discriminate).
  inversion E; subst res; clear E.
  unfold group. simpl. rewrite consumed_all.
  exists (u0 ++ u1 ++ u2 ++ u3 ++ u4).
  rewrite Hc, H1, H2, H3, H4. rewrite <- !app_assoc. reflexivity.
Qed.

Lemma answer_ctx_free : ctx_free answer_re = true.
Proof. reflexivity. Qed.

Lemma in_AD : forall c, in_range 65 68 c = true ->
  c = "A"%char \/ c = "B"%char \/ c = "C"%char \/ c = "D"%char.
Proof.
  intros c H.
  destruct c as [[] [] [] [] [] [] [] []]; vm_compute in H; try discriminate;
    auto.
Qed.

(** [answer_match.group(1)] is one of the four letters. *)
Lemma answer_letter : forall content m,
  re_search answer_re content = Some m ->
  exists c, group m 1 = [c] /\ in_range 65 68 c = true.
Proof.
  intros content m H. unfold re_search in H.
  apply search_from_found in H. destruct H as (u0 & a0 & Hc & H).
  unfold match_at in H.
  destruct (rmatch answer_re (MState (rev u0 ++ []) a0 []) Some) as [res|] eqn:E;
    [|discriminate].
  inversion H; subst m; clear H.
  unfold answer_re, seqs in E.
  apply rmatch_seq_sound in E. destruct E as (st1 & S1 & E).
  apply rmatch_seq_sound in E. destruct E as (st2 & S2 & E).
  destruct st2 as [b2 a2 cs2]. simpl in E.
  destruct a2 as [|c a2]; [discriminate|].
  destruct (in_range 65 68 c) eqn:Hc'; [|discriminate].
  inversion E; subst res; clear E.
  exists c. split; [|exact Hc'].
  unfold group. simpl. apply consumed_one.
Qed.

Lemma blocks_of_length : forall cleaned ms,
  length (blocks_of cleaned ms) = length ms.
Proof.
  intros cleaned ms. induction ms as [|m ms IH]; simpl; [reflexivity|].
  rewrite IH. reflexivity.
Qed.

Lemma blocks_length : forall text_, length (blocks text_) = length (headers text_).
Proof. intros. unfold blocks, headers. apply blocks_of_length. Qed.

Lemma parse_loop_count : forall body bs,
  length (parse_loop body bs) + count_if (fun b => is_none (body b)) bs
  = length bs.
Proof.
  intros body bs. unfold count_if.
  induction bs as [|b bs IH]; simpl; [reflexivity|].
  destruct (body b); simpl; lia.
Qed.

Lemma parse_loop_length : forall body bs,
  length (parse_loop body bs) = length bs - count_if (fun b => is_none (body b)) bs
  /\ count_if (fun b => is_none (body b)) bs <= length bs.
Proof.
  intros body bs. pose proof (parse_loop_count body bs). lia.
Qed.

Lemma parse_loop_In : forall body bs q,
  In q (parse_loop body bs) -> exists b, In b bs /\ body b = Some q.
Proof.
  intros body bs q. induction bs as [|b bs IH]; simpl; [tauto|].
  destruct (body b) eqn:E.
  - intros [H|H].
    + subst. exists b. auto.
    + destruct (IH H) as (b' & Hin & Hb). exists b'. auto.
  - intros H. destruct (IH H) as (b' & Hin & Hb). exists b'. auto.
Qed.

Lemma blocks_of_In : forall cleaned ms b,
  In b (blocks_of cleaned ms) ->
  exists m, In m ms /\ b_num b = int_of_digits (group m 1)
            /\ b_domain b = strip (group m 2).
Proof.
  intros cleaned ms b. induction ms as [|m ms IH]; simpl; [tauto|].
  intros [H|H].
  - subst. exists m. simpl. auto.
  - destruct (IH H) as (m' & Hin & Hb). exists m'. auto.
Qed.

Lemma baseline_none_iff : forall b,
  is_none (Baseline.parse_block b) = lacks_answer b || lacks_choice_A b.
Proof.
  intros b. unfold Baseline.parse_block, lacks_answer, lacks_choice_A.
  destruct (re_search answer_re (b_content b)); simpl; [|reflexivity].
  destruct (re_search q_re (b_content b)); reflexivity.
Qed.



Lemma count_if_le : forall (A : Type) (f g : A -> bool) l,
  (forall x, f x = true -> g x = true) -> count_if f l <= count_if g l.
Proof.
  intros A f g l H. unfold count_if. induction l as [|x l IH]; simpl; auto.
  destruct (f x) eqn:E.
  - rewrite (H x E). simpl. lia.
  - destruct (g x); simpl; lia.
Qed.

Lemma mk_choices_correct : forall c a b c' d,
  in_range 65 68 c = true ->
  map c_id (filter c_correct (mk_choices [c] a b c' d)) = [[c]].
Proof.
  intros c a b c' d H. destruct (in_AD c H) as [E|[E|[E|E]]]; subst;
    reflexivity.
Qed.

(** The baseline parser on any block that has the answer marker and the
    first choice marker: one record, four choices, and the only choice
    marked correct carries the letter of the marker. *)
Lemma baseline_valid_block : forall b am qm,
  re_search answer_re (b_content b) = Some am ->
  re_search q_re (b_content b) = Some qm ->
  exists q, Baseline.parse_block b = Some q
            /\ length (q_choices q) = 4
            /\ map c_id (filter c_correct (q_choices q)) = [group am 1].
Proof.
  intros b am qm Ha Hq. unfold Baseline.parse_block. rewrite Ha, Hq.
  eexists. split; [reflexivity|]. split; [reflexivity|].
  destruct (answer_letter _ _ Ha) as (c & Hc & Hr).
  cbn [q_choices]. rewrite Hc. apply mk_choices_correct. exact Hr.
Qed.

Lemma fixed_some_baseline : forall b qf,
  Fixed.parse_block b = Some qf ->
  exists qb, Baseline.parse_block b = Some qb /\ same_head qf qb.
Proof.
  intros b qf H. unfold Fixed.parse_block in H.
  destruct (re_search q_re (b_content b)) as [qm|] eqn:Eq; [|discriminate].
  destruct (q_rest_suffix _ _ Eq) as [u Hu].
  destruct (re_search a_re (group qm 2)); [|discriminate].
  destruct (re_search b_re (group qm 2)); [|discriminate].
  destruct (re_search c_re (group qm 2)); [|discriminate].
  destruct (re_search Fixed.d_re (group qm 2)); [|discriminate].
  destruct (re_search answer_re (group qm 2)) eqn:Ea; [|discriminate].
  inversion H; subst qf; clear H.
  unfold Baseline.parse_block. rewrite Eq.
  destruct (re_search answer_re (b_content b)) eqn:Eb.
  - eexists. split; [reflexivity|]. unfold same_head. simpl. auto.
  - exfalso. rewrite Hu in Eb.
    apply re_search_suffix in Eb; [congruence | reflexivity].
Qed.

Lemma baseline_block_shape : forall b q,
  Baseline.parse_block b = Some q ->
  map c_id (q_choices q) = [T "A"; T "B"; T "C"; T "D"]
  /\ q_id q = T "Q" ++ str_of_int (b_num b)
  /\ q_reference q = [].
Proof.
  intros b q H. unfold Baseline.parse_block in H.
  destruct (re_search answer_re (b_content b)); [|discriminate].
  destruct (re_search q_re (b_content b)); [|discriminate].
  inversion H; subst q. simpl. auto.
Qed.

Lemma fixed_block_shape : forall b q,
  Fixed.parse_block b = Some q ->
  map c_id (q_choices q) = [T "A"; T "B"; T "C"; T "D"]
  /\ q_id q = T "Q" ++ str_of_int (b_num b)
  /\ q_reference q = [].
Proof.
  intros b q H. unfold Fixed.parse_block in H.
  destruct (re_search q_re (b_content b)) as [qm|]; [|discriminate].
  destruct (re_search a_re (group qm 2)); [|discriminate].
  destruct (re_search b_re (group qm 2)); [|discriminate].
  destruct (re_search c_re (group qm 2)); [|discriminate].
  destruct (re_search Fixed.d_re (group qm 2)); [|discriminate].
  destruct (re_search answer_re (group qm 2)); [|discriminate].
  inversion H; subst q. simpl. auto.
Qed.

(** The fixed parser emits a record only for a block in which [A.]
    occurs again after the first [A.] marker. *)
Lemma fixed_needs_second_A : forall b qm,
  re_search q_re (b_content b) = Some qm ->
  re_search (lit (T "A.")) (group qm 2) = None ->
  Fixed.parse_block b = None.
Proof.
  intros b qm Hq Hn. unfold Fixed.parse_block. rewrite Hq.
  destruct (re_search a_re (group qm 2)) as [am|] eqn:Ea; [|reflexivity].
  exfalso. unfold a_re, choice_re, seqs in Ea.
  apply search_literal_prefix in Ea. apply Ea. exact Hn.
Qed.

(** C1 (the fixed variant breaks it).  On a block with a stem, the four
    lettered choices and [Answer: B], the baseline parser emits the one
    record the claim describes: four choices, only [B] marked correct.
    The fixed parser emits nothing: it looks for the [A.] marker in
    [rest], the text after that very marker. *)
Theorem C1_fixed_drops_valid_block :
  well_marked one_block = true
  /\ Baseline.parse_questions one_block = [one_block_record]
  /\ Fixed.parse_questions one_block = [].
Proof. repeat split; vm_compute; reflexivity. Qed.


(** On every text the two variants cut the same blocks, and the records
    of the fixed variant are, in order, among those of the baseline:
    each has a baseline record of the same block with the same id,
    domain, question, choice ids and reference. *)
Lemma fixed_embeds_in_baseline : forall text_,
  embeds same_head (Fixed.parse_questions text_)
                   (Baseline.parse_questions text_).
Proof.
  intros text_. unfold Fixed.parse_questions, Baseline.parse_questions.
  induction (blocks text_) as [|b bs IH]; simpl; [constructor|].
  destruct (Fixed.parse_block b) as [qf|] eqn:Ef.
  - destruct (fixed_some_baseline b qf Ef) as (qb & Eb & Hh). rewrite Eb.
    apply embeds_take; assumption.
  - destruct (Baseline.parse_block b); [apply embeds_skip|]; exact IH.
Qed.

End Parsers.

(** * The text cleaner *)

Section Cleaner.

Lemma span_len_le : forall p a, span_len p a <= length a.
Proof.
  intros p a. induction a as [|c a IH]; simpl; [lia|].
  destruct (p c); simpl; lia.
Qed.

Lemma rep_greedy_run : forall p a lo b cs,
  rep true lo p b a cs Some =
  if lo <=? span_len p a
  then Some (MState (rev (firstn (span_len p a) a) ++ b)
                    (skipn (span_len p a) a) cs)
  else None.
Proof.
  intros p a. induction a as [|c a IH]; intros lo b cs.
  - rewrite rep_nil. destruct lo; reflexivity.
  - simpl. destruct (p c) eqn:Hp.
    + rewrite IH. destruct lo as [|lo]; simpl.
      * rewrite <- app_assoc. reflexivity.
      * destruct (lo <=? span_len p a); [|reflexivity].
        rewrite <- app_assoc. reflexivity.
    + destruct lo; reflexivity.
Qed.

Lemma match_at_plus : forall p b a,
  match_at (plus p) b a =
  if span_len p a =? 0 then None
  else Some (MatchObj (length b) (length b + span_len p a) []).
Proof.
  intros p b a. unfold match_at, plus. cbn [rmatch before after caps].
  rewrite rep_greedy_run.
  destruct (span_len p a) as [|n] eqn:E; [reflexivity|].
  cbn [Nat.leb Nat.eqb before caps]. f_equal. f_equal.
  rewrite length_app, length_rev, length_firstn.
  pose proof (span_len_le p a). lia.
Qed.

Lemma sub_plus_squeeze : forall p a b,
  sub_loop (plus p) (T " ") 0 b a = squeeze p false a
  /\ sub_loop (plus p) (T " ") (span_len p a) b a = squeeze p true a.
Proof.
  intros p a. induction a as [|c a IH]; intros b.
  - split; reflexivity.
  - destruct (IH (c :: b)) as [IH0 IH1].
    assert (H0 : sub_loop (plus p) (T " ") 0 b (c :: a)
                 = squeeze p false (c :: a)).
    { cbn [sub_loop]. rewrite match_at_plus. cbn [span_len squeeze].
      destruct (p c) eqn:Hp.
      - cbn [Nat.eqb m_end m_start].
        replace (length b + S (span_len p a) - length b - 1)
          with (span_len p a) by lia.
        replace (length b + S (span_len p a) - length b =? 0) with false
          by (symmetry; apply Nat.eqb_neq; lia).
        rewrite IH1. reflexivity.
      - cbn [Nat.eqb]. rewrite IH0. reflexivity. }
    split; [exact H0|].
    cbn [span_len]. destruct (p c) eqn:Hp.
    + cbn [sub_loop squeeze]. rewrite Hp. exact IH1.
    + rewrite H0. cbn [squeeze]. rewrite Hp. reflexivity.
Qed.

Lemma re_sub_plus : forall p s,
  re_sub (plus p) (T " ") s = squeeze p false s.
Proof. intros. unfold re_sub. apply sub_plus_squeeze. Qed.

Lemma squeeze_tidy : forall s inrun,
  tidy inrun (squeeze is_space inrun s) = true.
Proof.
  induction s as [|c s IH]; intros inrun; simpl; [reflexivity|].
  destruct (is_space c) eqn:Hc.
  - destruct inrun; [apply IH|].
    simpl. rewrite IH. reflexivity.
  - simpl. rewrite Hc. apply IH.
Qed.

Lemma squeeze_space_tidy : forall s b,
  tidy b s = true -> squeeze is_space b s = s.
Proof.
  induction s as [|c s IH]; intros b H; simpl in *; [reflexivity|].
  destruct (is_space c) eqn:Hc.
  - apply andb_true_iff in H. destruct H as [H H2].
    apply andb_true_iff in H. destruct H as [H0 H1].
    apply Ascii.eqb_eq in H0. subst c.
    destruct b; [discriminate|]. rewrite (IH true H2). reflexivity.
  - rewrite (IH false H). reflexivity.
Qed.

Lemma squeeze_nl_tidy : forall s b b',
  tidy b s = true -> squeeze (is_char nl) b' s = s.
Proof.
  induction s as [|c s IH]; intros b b' H; cbn [squeeze tidy] in *;
    [reflexivity|].
  destruct (is_char nl c) eqn:Hn.
  - unfold is_char in Hn. apply Ascii.eqb_eq in Hn. subst c.
    change (is_space nl) with true in H.
    change (Ascii.eqb nl " ") with false in H. discriminate.
  - destruct (is_space c).
    + apply andb_true_iff in H. destruct H as [_ H2].
      rewrite (IH true false H2). reflexivity.
    + rewrite (IH false false H). reflexivity.
Qed.

Lemma tidy_lstrip : forall s b, tidy b s = true -> tidy false (lstrip s) = true.
Proof.
  induction s as [|c s IH]; intros b H; simpl in *; [reflexivity|].
  destruct (is_space c) eqn:Hc.
  - apply andb_true_iff in H. destruct H as [_ H2]. apply (IH true H2).
  - simpl. rewrite Hc. exact H.
Qed.

Lemma tidy_prefix : forall u v b, tidy b (u ++ v) = true -> tidy b u = true.
Proof.
  induction u as [|c u IH]; intros v b H; simpl in *; [reflexivity|].
  destruct (is_space c).
  - apply andb_true_iff in H. destruct H as [H H2].
    rewrite H. simpl. apply (IH v true H2).
  - apply (IH v false H).
Qed.

Lemma lstrip_suffix : forall s, exists w, s = w ++ lstrip s.
Proof.
  induction s as [|c s [w IH]]; simpl.
  - exists []. reflexivity.
  - destruct (is_space c).
    + exists (c :: w). simpl. congruence.
    + exists []. reflexivity.
Qed.

Lemma rstrip_prefix : forall s, exists w, s = rstrip s ++ w.
Proof.
  intros s. unfold rstrip. destruct (lstrip_suffix (rev s)) as [w H].
  exists (rev w). rewrite <- rev_app_distr, <- H, rev_involutive. reflexivity.
Qed.

Lemma lstrip_no_lead : forall s, no_lead (lstrip s) = true.
Proof.
  induction s as [|c s IH]; simpl; [reflexivity|].
  destruct (is_space c) eqn:Hc; [exact IH|]. simpl. rewrite Hc. reflexivity.
Qed.

Lemma no_lead_lstrip : forall s, no_lead s = true -> lstrip s = s.
Proof.
  intros [|c s] H; simpl in *; [reflexivity|].
  destruct (is_space c); [discriminate | reflexivity].
Qed.

Lemma no_lead_prefix : forall u v, no_lead (u ++ v) = true -> no_lead u = true.
Proof. intros [|c u] v H; [reflexivity | exact H]. Qed.

Lemma strip_idempotent : forall s, strip (strip s) = strip s.
Proof.
  intros s. unfold strip.
  assert (A : lstrip (rstrip (lstrip s)) = rstrip (lstrip s)).
  { apply no_lead_lstrip. destruct (rstrip_prefix (lstrip s)) as [w H].
    apply no_lead_prefix with (v := w). rewrite <- H. apply lstrip_no_lead. }
  rewrite A. unfold rstrip. rewrite rev_involutive.
  rewrite (no_lead_lstrip _ (lstrip_no_lead _)). reflexivity.
Qed.

Lemma tidy_strip : forall s b, tidy b s = true -> tidy false (strip s) = true.
Proof.
  intros s b H. unfold strip. apply tidy_lstrip in H.
  destruct (rstrip_prefix (lstrip s)) as [w Hw].
  apply tidy_prefix with (v := w). rewrite <- Hw. exact H.
Qed.

(** Lines 27-29 applied to their own result change nothing. *)
Lemma collapse_idempotent : forall s,
  Baseline.collapse (Baseline.collapse s) = Baseline.collapse s.
Proof.
  intros s. unfold Baseline.collapse. rewrite !re_sub_plus.
  set (z := squeeze is_space false (squeeze (is_char nl) false s)).
  assert (Hz : tidy false (strip z) = true).
  { apply tidy_strip with (b := false). apply squeeze_tidy. }
  rewrite (squeeze_nl_tidy _ false false Hz).
  rewrite (squeeze_space_tidy _ false Hz).
  apply strip_idempotent.
Qed.

(** C3 as stated fails: removing the inner phrase leaves the outer one
    behind, and a second run removes that. *)
Lemma C3_counterexample :
  Baseline.clean_explanation (Baseline.clean_explanation nested_phrase)
  <> Baseline.clean_explanation nested_phrase
  /\ Fixed.clean_explanation (Fixed.clean_explanation nested_phrase)
     <> Fixed.clean_explanation nested_phrase.
Proof. split; vm_compute; discriminate. Qed.

(** C3, amended.  Cleaning twice equals cleaning once whenever no removal
    pattern matches the cleaned text any more, in both scripts; and the
    final whitespace steps are idempotent on every text. *)
Theorem C3_clean_idempotent_on_clean_text : forall s,
  (Baseline.strip_boilerplate (Baseline.clean_explanation s)
   = Baseline.clean_explanation s ->
   Baseline.clean_explanation (Baseline.clean_explanation s)
   = Baseline.clean_explanation s)
  /\ (Fixed.strip_boilerplate (Fixed.clean_explanation s)
      = Fixed.clean_explanation s ->
      Fixed.clean_explanation (Fixed.clean_explanation s)
      = Fixed.clean_explanation s)
  /\ Baseline.collapse (Baseline.collapse s) = Baseline.collapse s
  /\ Fixed.collapse (Fixed.collapse s) = Fixed.collapse s.
Proof.
  intros s. split; [|split; [|split]].
  - intros H. unfold Baseline.clean_explanation at 1. rewrite H.
    unfold Baseline.clean_explanation. apply collapse_idempotent.
  - intros H. unfold Fixed.clean_explanation at 1. rewrite H.
    unfold Fixed.clean_explanation. apply collapse_idempotent.
  - apply collapse_idempotent.
  - apply collapse_idempotent.
Qed.

Lemma C3_clean_idempotent_on_clean_text_witness :
  (Baseline.strip_boilerplate (Baseline.clean_explanation spaced)
   = Baseline.clean_explanation spaced
   /\ Fixed.strip_boilerplate (Fixed.clean_explanation spaced)
      = Fixed.clean_explanation spaced)
  /\ Baseline.clean_explanation (Baseline.clean_explanation spaced)
     = Baseline.clean_explanation spaced
  /\ Fixed.clean_explanation (Fixed.clean_explanation spaced)
     = Fixed.clean_explanation spaced.
Proof.
  assert (H1 : Baseline.strip_boilerplate (Baseline.clean_explanation spaced)
               = Baseline.clean_explanation spaced) by (vm_compute; reflexivity).
  assert (H2 : Fixed.strip_boilerplate (Fixed.clean_explanation spaced)
               = Fixed.clean_explanation spaced) by (vm_compute; reflexivity).
  split; [split; assumption|]. split.
  - exact (proj1 (C3_clean_idempotent_on_clean_text spaced) H1).
  - exact (proj1 (proj2 (C3_clean_idempotent_on_clean_text spaced)) H2).
Defined.


End Cleaner.

(** * The book builder *)

Section Builder.

Lemma text_eqb_eq : forall s t, text_eqb s t = true <-> s = t.
Proof.
  intros s t. unfold text_eqb. destruct (list_eq_dec ascii_dec s t);
    split; intros; auto; discriminate.
Qed.

Lemma text_eqb_refl : forall s, text_eqb s s = true.
Proof. intros. apply text_eqb_eq. reflexivity. Qed.

Lemma dict_set_values : forall (P : text -> Prop) k v d,
  P v -> Forall (fun kv => P (snd kv)) d ->
  Forall (fun kv => P (snd kv)) (dict_set k v d).
Proof.
  intros P k v d Hv H. induction H as [|[k' v'] d Hh Ht IH]; cbn [dict_set].
  - constructor; [exact Hv | constructor].
  - destruct (text_eqb k' k); constructor; auto.
Qed.

Lemma setdefault_str_key : forall key q domains,
  (exists d, key = JStr d) -> renderable q ->
  Forall str_key domains -> Forall str_key (setdefault_append key q domains).
Proof.
  intros key q domains Hk Hq H. induction H as [|[k items] rest Hh Ht IH]; simpl.
  - constructor; [|constructor]. split; [exact Hk | constructor; auto].
  - destruct (key_eqb k key).
    + constructor; [|exact Ht]. destruct Hh as [Hd Hi]. split; [exact Hd|].
      simpl in *. apply Forall_app. split; [exact Hi | constructor; auto].
    + constructor; [exact Hh | exact IH].
Qed.

Lemma group_domains_ok : forall qs domains,
  Forall renderable qs -> Forall str_key domains ->
  exists domains', group_domains qs domains = Ok domains'
                   /\ Forall str_key domains'.
Proof.
  induction qs as [|q qs IH]; intros domains Hq Hd.
  - exists domains. simpl. auto.
  - inversion Hq as [|? ? Hr Hrest]; subst.
    destruct Hr as [(items & Eq & Hdom) Hren]. subst q.
    cbn [group_domains get bind].
    assert (K : exists d, match dict_lookup (T "domain") items with
                          | Some v => v
                          | None => JStr (T "Uncategorized")
                          end = JStr d).
    { destruct Hdom as [E|[d E]]; rewrite E; eauto. }
    destruct K as [d K]. rewrite K. cbn [hashable].
    apply IH; [exact Hrest|].
    apply setdefault_str_key; eauto.
    split; [|exact Hren]. exists items. auto.
Qed.

Lemma domain_items_ok : forall domains,
  Forall str_key domains ->
  exists items, map_result (fun '(domain, _) => domain_item domain) domains
                = Ok items.
Proof.
  induction 1 as [|[k its] rest [[d Hk] _] _ [items IH]]; simpl.
  - eauto.
  - simpl in Hk. subst k. simpl. rewrite IH. simpl. eauto.
Qed.

Lemma domains_index_renderable : forall domains d,
  Forall str_key domains -> Forall renderable (domains_index domains d).
Proof.
  induction 1 as [|[k its] rest [_ Hi] _ IH]; simpl; [constructor|].
  destruct (key_eqb k (JStr d)); [exact Hi | exact IH].
Qed.

Lemma render_all_ok : forall qs,
  Forall renderable qs -> exists ts, map_result render_question qs = Ok ts.
Proof.
  induction 1 as [|q qs [_ [t Ht]] _ [ts IH]]; simpl.
  - eauto.
  - rewrite Ht. simpl. rewrite IH. simpl. eauto.
Qed.

Lemma chapters_loop_ok : forall domains items idx st,
  Forall str_key domains ->
  exists st', chapters_loop domains items idx st = Ok st'.
Proof.
  intros domains items. induction items as [|[d slug] rest IH];
    intros idx st Hd; simpl.
  - eauto.
  - destruct (render_all_ok _ (domains_index_renderable domains d Hd))
      as [ts Hts].
    rewrite Hts. simpl. apply IH. exact Hd.
Qed.

(** The builder returns on every list of dicts whose domain is a string
    or absent and whose question blocks render. *)
Lemma build_epub_ok : forall qs title book_id now icon,
  Forall renderable qs ->
  exists b, build_epub qs title book_id now icon = Ok b.
Proof.
  intros qs title book_id now icon H. unfold build_epub.
  destruct (group_domains_ok qs [] H (Forall_nil _)) as (domains & E & Hd).
  rewrite E. simpl.
  destruct (domain_items_ok domains Hd) as [items Ei]. rewrite Ei. simpl.
  destruct (chapters_loop_ok domains items 1 initial_locals Hd) as [st Es].
  rewrite Es. simpl. eauto.
Qed.

Lemma find_correct_typed : forall cs,
  find_correct (map json_of_choice cs)
  = Ok (option_map json_of_choice (find c_correct cs)).
Proof.
  induction cs as [|c cs IH]; simpl; [reflexivity|].
  destruct (c_correct c) eqn:E.
  - destruct c as [i t b]. simpl in *. subst b. reflexivity.
  - destruct c as [i t b]. simpl in *. subst b. exact IH.
Qed.

Lemma truthy_str : forall s, truthy (JStr s) = nonempty s.
Proof. intros [|c s]; reflexivity. Qed.

Lemma py_or_str : forall s, py_or (JStr s) (JStr []) = JStr s.
Proof. intros [|c s]; reflexivity. Qed.

Lemma render_typed : forall q,
  render_question (json_of_question q)
  = Ok (qa_block (html_escape (q_id q)) (_as_paragraphs (strip (q_question q)))
          (html_escape (fst (answer_of q)))
          (if nonempty (snd (answer_of q)) then T ": " else [])
          (html_escape (snd (answer_of q)))).
Proof.
  intros q. unfold render_question, answer_of.
  change (get (json_of_question q) (T "id") JNull) with (Ok (JStr (q_id q))).
  change (get (json_of_question q) (T "question") JNull)
    with (Ok (JStr (q_question q))).
  change (get (json_of_question q) (T "choices") JNull)
    with (Ok (JArr (map json_of_choice (q_choices q)))).
  cbn [bind]. rewrite !py_or_str. cbn [as_str bind].
  unfold correct_choice_of.
  destruct (q_choices q) as [|c cs] eqn:Ec.
  - reflexivity.
  - change (truthy (JArr (map json_of_choice (c :: cs)))) with true.
    cbn iota. rewrite find_correct_typed. cbn [bind].
    destruct (find c_correct (c :: cs)) as [c0|]; [|reflexivity].
    cbn [option_map].
    change (get (json_of_choice c0) (T "text") JNull) with (Ok (JStr (c_text c0))).
    change (get (json_of_choice c0) (T "id") JNull) with (Ok (JStr (c_id c0))).
    cbn [bind]. rewrite !py_or_str. cbn [as_str bind fst snd].
    rewrite truthy_str. reflexivity.
Qed.

Lemma typed_renderable : forall q, renderable (json_of_question q).
Proof.
  intros q. split.
  - eexists. split; [reflexivity|]. right. exists (q_domain q). reflexivity.
  - eexists. apply render_typed.
Qed.

Lemma key_eqb_str_r : forall k d, key_eqb k (JStr d) = true -> k = JStr d.
Proof.
  intros k d H. destruct k as [|b|n|s|xs|items]; simpl in H;
    try discriminate.
  - destruct b; discriminate.
  - apply text_eqb_eq in H. congruence.
Qed.

Lemma domains_index_setdefault : forall k x acc d,
  domains_index (setdefault_append (JStr k) x acc) d
  = if text_eqb k d then domains_index acc d ++ [x] else domains_index acc d.
Proof.
  intros k x acc d. induction acc as [|[k' items] acc IH].
  - cbn [setdefault_append domains_index key_eqb].
    destruct (text_eqb k d); reflexivity.
  - cbn [setdefault_append]. destruct (key_eqb k' (JStr k)) eqn:Ek.
    + cbn [domains_index]. apply key_eqb_str_r in Ek. subst k'.
      cbn [key_eqb]. destruct (text_eqb k d); reflexivity.
    + cbn [domains_index]. destruct (key_eqb k' (JStr d)) eqn:Ed.
      * destruct (text_eqb k d) eqn:E; [|reflexivity].
        apply text_eqb_eq in E. subst d. congruence.
      * exact IH.
Qed.

Lemma group_typed : forall qs acc,
  exists domains,
    group_domains (map json_of_question qs) acc = Ok domains
    /\ forall d, domains_index domains d
                 = domains_index acc d
                   ++ map json_of_question (filter (in_domain d) qs).
Proof.
  induction qs as [|q qs IH]; intros acc.
  - exists acc. split; [reflexivity|]. intros d. cbn [filter map].
    rewrite app_nil_r. reflexivity.
  - cbn [map group_domains].
    change (get (json_of_question q) (T "domain") (JStr (T "Uncategorized")))
      with (Ok (JStr (q_domain q))).
    cbn [bind hashable].
    destruct (IH (setdefault_append (JStr (q_domain q)) (json_of_question q) acc))
      as (domains & E & H).
    exists domains. split; [exact E|]. intros d. rewrite H.
    rewrite domains_index_setdefault. cbn [filter]. unfold in_domain at 2.
    destruct (text_eqb (q_domain q) d); [|reflexivity].
    rewrite <- app_assoc. reflexivity.
Qed.

Lemma render_all_typed : forall qs,
  map_result render_question (map json_of_question qs) = Ok (map block_of qs).
Proof.
  induction qs as [|q qs IH]; [reflexivity|].
  cbn [map map_result]. rewrite render_typed, IH. reflexivity.
Qed.

Lemma chapters_loop_typed : forall qs domains items idx st st',
  (forall d, domains_index domains d
             = map json_of_question (filter (in_domain d) qs)) ->
  chapters_loop domains items idx st = Ok st' ->
  chapters_of qs st -> chapters_of qs st'.
Proof.
  intros qs domains items. induction items as [|[d slug] items IH];
    intros idx st st' Hd H Hst; cbn [chapters_loop] in H.
  - inversion H; subst. exact Hst.
  - rewrite Hd, render_all_typed in H. cbn [bind] in H.
    apply IH in H; [exact H | exact Hd|].
    unfold chapters_of. cbn [chapters].
    apply dict_set_values
      with (P := fun v => exists d0,
                   v = chapter_xhtml d0 (map block_of (filter (in_domain d0) qs)));
      [|exact Hst].
    exists d. reflexivity.
Qed.

Lemma write_chapters : forall chs zf,
  fold_left (fun zf '(href, content) =>
               writestr zf (T "OEBPS" ++ T "/" ++ href) (utf8 content)
                 ZIP_DEFLATED) chs zf
  = zf ++ map (fun '(href, content) =>
                 mkEntry (T "OEBPS" ++ T "/" ++ href) (utf8 content)
                   ZIP_DEFLATED) chs.
Proof.
  induction chs as [|[href content] chs IH]; intros zf; cbn [fold_left map].
  - rewrite app_nil_r. reflexivity.
  - rewrite IH. unfold writestr. rewrite <- app_assoc. reflexivity.
Qed.

(** X15.  What the code does write, for every state of the builder:
    the [mimetype] marker first and stored, the icon (when there is
    one) stored too, everything else deflated. *)
Lemma archive_compression : forall st book_id title now icon,
  exists rest,
    write_archive st book_id title now icon
    = mkEntry (T "mimetype") (utf8 (T "application/epub+zip")) ZIP_STORED
      :: rest
    /\ forallb (fun e => is_deflated e
                         || (match icon with Some _ => true | None => false end
                             && is_icon_entry e)) rest = true.
Proof.
  intros st book_id title now icon. unfold write_archive.
  rewrite write_chapters. unfold writestr, write.
  destruct icon as [file|]; cbn [app]; eexists; (split; [reflexivity|]);
    cbn [forallb].
  - assert (E : forall l, forallb (fun e => is_deflated e || true && is_icon_entry e)
             (map (fun '(href, content) =>
                     mkEntry (T "OEBPS" ++ T "/" ++ href) (utf8 content)
                       ZIP_DEFLATED) l) = true).
    { induction l as [|[h c] l IH]; [reflexivity|]. cbn [map forallb].
      rewrite IH. reflexivity. }
    rewrite E. reflexivity.
  - assert (E : forall l, forallb (fun e => is_deflated e || false && is_icon_entry e)
             (map (fun '(href, content) =>
                     mkEntry (T "OEBPS" ++ T "/" ++ href) (utf8 content)
                       ZIP_DEFLATED) l) = true).
    { induction l as [|[h c] l IH]; [reflexivity|]. cbn [map forallb].
      rewrite IH. reflexivity. }
    rewrite E. reflexivity.
Qed.

(** C6 (the code breaks it).  With the icon file present the archive has
    a second stored entry: [zf.write] is the one call without a
    [compress_type], so the icon takes the default of the archive. *)
Theorem C6_icon_entry_is_stored :
  exists b,
    build_epub [] (T "t") (T "id") (T "now") (Some []) = Ok b
    /\ map (fun e => (e_name e, e_compress e)) (book_archive b)
       = [ (T "mimetype", ZIP_STORED);
           (T "META-INF/container.xml", ZIP_DEFLATED);
           (T "OEBPS/content.opf", ZIP_DEFLATED);
           (T "OEBPS/toc.ncx", ZIP_DEFLATED);
           (T "OEBPS/nav.xhtml", ZIP_DEFLATED);
           (T "OEBPS/styles/style.css", ZIP_DEFLATED);
           (T "OEBPS/pwa-icon.svg", ZIP_STORED);
           (T "OEBPS/text/title.xhtml", ZIP_DEFLATED) ].
Proof. eexists. split; reflexivity. Qed.

Lemma get_missing : forall k items,
  absent_or_null k items = true ->
  exists v, get (JObj items) k JNull = Ok v /\ truthy v = false
            /\ py_or v (JStr []) = JStr [].
Proof.
  intros k items H. unfold absent_or_null in H. unfold get.
  destruct (dict_lookup k items) as [[]|]; try discriminate;
    exists JNull; auto.
Qed.

(** A dict whose id, question and choices are absent or null renders as
    an empty block. *)
Lemma render_missing_fields : forall items,
  absent_or_null (T "id") items = true ->
  absent_or_null (T "question") items = true ->
  absent_or_null (T "choices") items = true ->
  render_question (JObj items) = Ok (qa_block [] [] [] [] []).
Proof.
  intros items Hi Hq Hc. unfold render_question.
  destruct (get_missing _ _ Hi) as (v1 & E1 & _ & P1).
  destruct (get_missing _ _ Hq) as (v2 & E2 & _ & P2).
  destruct (get_missing _ _ Hc) as (v3 & E3 & F3 & _).
  rewrite E1, E2, E3. cbn [bind]. rewrite P1, P2. cbn [as_str bind].
  unfold correct_choice_of. rewrite F3. reflexivity.
Qed.

(** C9 (the code breaks it).  A dict whose domain is [null] stops the
    builder: the default of [q.get('domain', ...)] covers the absent
    key only, and [_slugify(None)] raises.  An empty dict is filed under
    [Uncategorized]. *)
Theorem C9_null_domain_raises : forall title book_id now icon,
  build_epub null_domain title book_id now icon = Raise TypeError
  /\ exists b, build_epub [JObj []] title book_id now icon = Ok b
               /\ map fst (nav_items (book_locals b)) = [T "Uncategorized"].
Proof.
  intros. split; [reflexivity|]. eexists. split; reflexivity.
Qed.

Lemma filter_both : forall (f g : text -> bool) l,
  filter f (filter g l) = filter (fun y => f y && g y) l.
Proof.
  intros f g l. induction l as [|x l IH]; simpl; [reflexivity|].
  destruct (g x); simpl; rewrite ?andb_true_r, ?andb_false_r.
  - destruct (f x); rewrite IH; reflexivity.
  - exact IH.
Qed.

Lemma add_labels_first_seen : forall ds acc,
  fold_left add_label ds acc
  = acc ++ filter (fun y => negb (existsb (fun k => text_eqb k y) acc))
                  (first_seen ds).
Proof.
  induction ds as [|x ds IH]; intros acc; simpl.
  - rewrite app_nil_r. reflexivity.
  - rewrite IH. unfold add_label. rewrite filter_both.
    destruct (existsb (fun k => text_eqb k x) acc) eqn:E; simpl.
    + f_equal. apply filter_ext. intros y.
      destruct (text_eqb x y) eqn:Exy; simpl.
      * apply text_eqb_eq in Exy. subst y. rewrite E. reflexivity.
      * rewrite andb_true_r; reflexivity.
    + rewrite <- app_assoc. simpl. f_equal. f_equal. apply filter_ext.
      intros y. rewrite existsb_app. simpl. rewrite orb_false_r.
      rewrite negb_orb. reflexivity.
Qed.

Lemma first_seen_fold : forall ds, fold_left add_label ds [] = first_seen ds.
Proof.
  intros ds. rewrite add_labels_first_seen. simpl.
  induction (first_seen ds) as [|x l IH]; simpl; congruence.
Qed.

Lemma setdefault_keys : forall key q acc,
  map fst (setdefault_append key q acc)
  = if existsb (fun k => key_eqb k key) (map fst acc)
    then map fst acc else map fst acc ++ [key].
Proof.
  intros key q acc. induction acc as [|[k items] acc IH]; simpl;
    [reflexivity|].
  destruct (key_eqb k key); simpl; [reflexivity|].
  rewrite IH. destruct (existsb (fun k0 => key_eqb k0 key) (map fst acc));
    reflexivity.
Qed.

Lemma key_eqb_str : forall d k, key_eqb (JStr d) k = true -> k = JStr d.
Proof.
  intros d k H. destruct k; simpl in H; try discriminate.
  apply text_eqb_eq in H. congruence.
Qed.

Lemma group_keys_grow : forall qs acc domains,
  group_domains qs acc = Ok domains ->
  exists extra, map fst domains = map fst acc ++ extra.
Proof.
  induction qs as [|q qs IH]; intros acc domains H.
  - simpl in H. inversion H; subst. exists []. rewrite app_nil_r. reflexivity.
  - cbn [group_domains] in H.
    destruct (get q (T "domain") (JStr (T "Uncategorized"))) as [key|];
      [|discriminate].
    cbn [bind] in H. destruct (hashable key); [|discriminate].
    apply IH in H. destruct H as [extra H]. rewrite setdefault_keys in H.
    destruct (existsb (fun k => key_eqb k key) (map fst acc)).
    + exists extra. exact H.
    + exists ([key] ++ extra). rewrite H, <- app_assoc. reflexivity.
Qed.

Lemma group_keys : forall qs acc labels domains,
  group_domains qs acc = Ok domains ->
  map fst acc = map JStr labels ->
  (forall k, In k (map fst domains) -> exists d, k = JStr d) ->
  map fst domains = map JStr (fold_left add_label (map domain_of qs) labels).
Proof.
  induction qs as [|q qs IH]; intros acc labels domains H Ha Hs.
  - simpl in H. inversion H; subst. exact Ha.
  - cbn [group_domains] in H.
    destruct (get q (T "domain") (JStr (T "Uncategorized"))) as [key|] eqn:Eg;
      [|discriminate].
    cbn [bind] in H. destruct (hashable key); [|discriminate].
    assert (Hkey : key = JStr (domain_of q)).
    { destruct (group_keys_grow _ _ _ H) as [extra Hx].
      assert (R : exists k', In k' (map fst (setdefault_append key q acc))
                             /\ key_eqb k' key = true).
      { rewrite setdefault_keys.
        destruct (existsb (fun k => key_eqb k key) (map fst acc)) eqn:E.
        - apply existsb_exists in E. exact E.
        - exists key. split; [apply in_or_app; right; left; reflexivity|].
          assert (Hin : In key (map fst domains)).
          { rewrite Hx, setdefault_keys, E. apply in_or_app. left.
            apply in_or_app. right. left. reflexivity. }
          destruct (Hs _ Hin) as [d Hd]. subst key. simpl.
          apply text_eqb_refl. }
      destruct R as (k' & Hin & He).
      assert (Hin' : In k' (map fst domains)).
      { rewrite Hx. apply in_or_app. left. exact Hin. }
      destruct (Hs _ Hin') as [d Hd]. subst k'.
      apply key_eqb_str in He. subst key.
      destruct q; try discriminate. unfold get in Eg. unfold domain_of.
      destruct (dict_lookup (T "domain") items) as [v|].
      - inversion Eg; subst. reflexivity.
      - inversion Eg; subst. reflexivity. }
    cbn [map fold_left].
    apply IH with (acc := setdefault_append key q acc); [exact H | | exact Hs].
    rewrite setdefault_keys, Ha, Hkey. unfold add_label.
    assert (E : existsb (fun k => key_eqb k (JStr (domain_of q))) (map JStr labels)
                = existsb (fun k => text_eqb k (domain_of q)) labels).
    { clear. induction labels as [|l ls IH]; simpl; [reflexivity|].
      rewrite IH. reflexivity. }
    rewrite E.
    destruct (existsb (fun k => text_eqb k (domain_of q)) labels);
      [reflexivity|].
    rewrite map_app. reflexivity.
Qed.

Lemma domain_items_spec : forall (domains : list (json * list json)) items,
  map_result (fun '(domain, _) => domain_item domain) domains = Ok items ->
  map fst domains = map JStr (map fst items)
  /\ items = map (fun d => (d, slug_of d)) (map fst items).
Proof.
  induction domains as [|[k its] domains IH]; intros items H.
  - simpl in H. inversion H; subst. auto.
  - cbn [map_result] in H. destruct k; try discriminate.
    cbn [domain_item bind] in H.
    destruct (map_result (fun '(domain, _) => domain_item domain) domains)
      as [rest|] eqn:E; [|discriminate].
    cbn [bind] in H. inversion H; subst items; clear H.
    destruct (IH rest eq_refl) as [H1 H2]. simpl. split.
    + rewrite H1. reflexivity.
    + f_equal. exact H2.
Qed.

Lemma chapters_loop_spec : forall domains ds idx st st',
  chapters_loop domains (map (fun d => (d, slug_of d)) ds) idx st = Ok st' ->
  nav_items st'
  = nav_items st
    ++ map (fun '(i, d) => (d, file_name_of i (slug_of d))) (numbered idx ds)
  /\ manifest_items st'
     = manifest_items st
       ++ map (fun '(i, d) =>
                 manifest_item (item_id_of i) (file_name_of i (slug_of d)))
              (numbered idx ds)
  /\ spine_items st'
     = spine_items st
       ++ map (fun '(i, d) => spine_item (item_id_of i)) (numbered idx ds).
Proof.
  intros domains ds. induction ds as [|d ds IH]; intros idx st st' H.
  - simpl in H. inversion H; subst. simpl. rewrite !app_nil_r. auto.
  - cbn [map chapters_loop] in H.
    destruct (map_result render_question (domains_index domains d));
      [|discriminate].
    cbn [bind] in H. apply IH in H. destruct H as (H1 & H2 & H3).
    cbn [nav_items manifest_items spine_items] in H1, H2, H3.
    cbn [numbered map]. rewrite H1, H2, H3, <- !app_assoc. auto.
Qed.

End Builder.

(** * Escaping *)

Section Escaping.

Lemma starts_with_app : forall p s t,
  starts_with p s = true -> starts_with p (s ++ t) = true.
Proof.
  induction p as [|c p IH]; intros s t H; [reflexivity|].
  destruct s as [|d s]; [discriminate|]. simpl in *.
  apply andb_true_iff in H. destruct H as [H1 H2].
  rewrite H1, (IH _ _ H2). reflexivity.
Qed.

Lemma existsb_starts_with_app : forall ps s t,
  existsb (fun p => starts_with p s) ps = true ->
  existsb (fun p => starts_with p (s ++ t)) ps = true.
Proof.
  intros ps s t H. apply existsb_exists in H. destruct H as (p & Hin & Hp).
  apply existsb_exists. exists p. split; [exact Hin|].
  apply starts_with_app. exact Hp.
Qed.

Lemma or_starts_with_app : forall (g : bool) ps s t,
  g || existsb (fun p => starts_with p s) ps = true ->
  g || existsb (fun p => starts_with p (s ++ t)) ps = true.
Proof.
  intros g ps s t H. destruct g; [reflexivity|].
  simpl in *. apply existsb_starts_with_app. exact H.
Qed.

Lemma plain_or_entity_stable : stable plain_or_entity.
Proof.
  intros c s t H. unfold plain_or_entity in *.
  apply andb_true_iff in H. destruct H as [H1 H2].
  apply andb_true_iff. split; [exact H1|].
  apply (or_starts_with_app _ _ (c :: s)). exact H2.
Qed.

Lemma tag_or_entity_stable : stable tag_or_entity.
Proof.
  intros c s t H. unfold tag_or_entity in *.
  apply andb_true_iff in H. destruct H as [H1 H2].
  apply andb_true_iff. split.
  - apply (or_starts_with_app _ _ (c :: s)). exact H1.
  - apply (or_starts_with_app _ _ (c :: s)). exact H2.
Qed.

Lemma scan_app : forall ok a b,
  stable ok -> scan ok a = true -> scan ok b = true ->
  scan ok (a ++ b) = true.
Proof.
  intros ok a b Hs. induction a as [|c a IH]; intros Ha Hb; [exact Hb|].
  cbn [scan] in Ha. apply andb_true_iff in Ha. destruct Ha as [H1 H2].
  change ((c :: a) ++ b) with (c :: (a ++ b)). cbn [scan].
  apply andb_true_iff. split; [apply (Hs c a b H1) | apply IH; assumption].
Qed.

Lemma scan_flat_map : forall ok (f : ascii -> text) s,
  stable ok -> (forall x, scan ok (f x) = true) ->
  scan ok (flat_map f s) = true.
Proof.
  intros ok f s Hs Hf. induction s as [|x s IH]; [reflexivity|].
  cbn [flat_map]. apply scan_app; auto.
Qed.

Lemma scan_join : forall ok sep parts,
  stable ok -> scan ok sep = true -> Forall (fun p => scan ok p = true) parts ->
  scan ok (join sep parts) = true.
Proof.
  intros ok sep parts Hs Hsep H. induction H as [|p parts Hp Hr IH];
    [reflexivity|].
  cbn [join]. destruct parts as [|p' parts']; [exact Hp|].
  apply scan_app; [exact Hs | exact Hp|]. apply scan_app; assumption.
Qed.

Lemma flat_map_flat_map : forall (f g : ascii -> text) s,
  flat_map g (flat_map f s) = flat_map (fun x => flat_map g (f x)) s.
Proof.
  intros f g s. induction s as [|x s IH]; [reflexivity|].
  cbn [flat_map]. rewrite flat_map_app, IH. reflexivity.
Qed.

Lemma replace_char_flat_map : forall c r (f : ascii -> text) s,
  replace_char c r (flat_map f s) = flat_map (fun x => replace_char c r (f x)) s.
Proof. intros. unfold replace_char. apply flat_map_flat_map. Qed.

Lemma replace_char_chars : forall c r s,
  replace_char c r s = flat_map (fun x => replace_char c r [x]) s.
Proof.
  intros c r s. unfold replace_char. apply flat_map_ext. intros x.
  cbn [flat_map]. rewrite app_nil_r. reflexivity.
Qed.

(** [html.escape] works character by character. *)
Lemma html_escape_chars : forall s,
  html_escape s = flat_map (fun x => html_escape [x]) s.
Proof.
  intros s. unfold html_escape at 1.
  rewrite (replace_char_chars "&" (T "&amp;") s).
  rewrite !replace_char_flat_map. reflexivity.
Qed.

Lemma escape_char_escaped : forall x, escaped_text (html_escape [x]) = true.
Proof. intros [[] [] [] [] [] [] [] []]; reflexivity. Qed.

Lemma escape_char_markup : forall x,
  markup_from_template (html_escape [x]) = true.
Proof. intros [[] [] [] [] [] [] [] []]; reflexivity. Qed.

Lemma escape_char_br_markup : forall x,
  markup_from_template (replace_char nl (T "<br/>") (html_escape [x])) = true.
Proof. intros [[] [] [] [] [] [] [] []]; reflexivity. Qed.

Lemma html_escape_escaped : forall s, escaped_text (html_escape s) = true.
Proof.
  intros s. rewrite html_escape_chars.
  apply scan_flat_map; [apply plain_or_entity_stable|].
  apply escape_char_escaped.
Qed.

Lemma html_escape_markup : forall s, markup_from_template (html_escape s) = true.
Proof.
  intros s. rewrite html_escape_chars.
  apply scan_flat_map; [apply tag_or_entity_stable|].
  apply escape_char_markup.
Qed.

Lemma markup_app : forall a b,
  markup_from_template a = true -> markup_from_template b = true ->
  markup_from_template (a ++ b) = true.
Proof. intros. apply scan_app; auto. apply tag_or_entity_stable. Qed.

Lemma paragraphs_markup : forall s, markup_from_template (_as_paragraphs s) = true.
Proof.
  intros s. unfold _as_paragraphs. destruct (nonempty (strip s)); [|reflexivity].
  apply scan_join; [apply tag_or_entity_stable | reflexivity|].
  apply Forall_forall. intros p Hp. apply in_map_iff in Hp.
  destruct Hp as (p0 & E & _). subst p.
  apply markup_app; [reflexivity|]. apply markup_app; [|reflexivity].
  rewrite html_escape_chars, replace_char_flat_map.
  apply scan_flat_map; [apply tag_or_entity_stable|].
  apply escape_char_br_markup.
Qed.

Ltac markup_pieces :=
  repeat (apply markup_app;
          [first [apply html_escape_markup | apply paragraphs_markup
                 | reflexivity | assumption] |]);
  first [apply html_escape_markup | apply paragraphs_markup
        | reflexivity | assumption].

Lemma qa_block_markup : forall qid question_html answer_id sep answer_text,
  markup_from_template qid = true ->
  markup_from_template question_html = true ->
  markup_from_template answer_id = true ->
  markup_from_template sep = true ->
  markup_from_template answer_text = true ->
  markup_from_template
    (qa_block qid question_html answer_id sep answer_text) = true.
Proof. intros. unfold qa_block. rewrite <- ?app_assoc. markup_pieces. Qed.

Lemma render_question_markup : forall q t,
  render_question q = Ok t -> markup_from_template t = true.
Proof.
  intros q t H. unfold render_question in H.
  repeat match type of H with
         | bind ?x _ = Ok _ =>
             destruct x; [cbn [bind] in H | discriminate]
         end.
  inversion H; subst t; clear H.
  apply qa_block_markup; try apply html_escape_markup.
  - apply paragraphs_markup.
  - match goal with |- context [if ?c then _ else _] => destruct c end;
      reflexivity.
Qed.

Lemma render_all_markup : forall qs ts,
  map_result render_question qs = Ok ts ->
  Forall (fun t => markup_from_template t = true) ts.
Proof.
  induction qs as [|q qs IH]; intros ts H; cbn [map_result] in H.
  - inversion H. constructor.
  - destruct (render_question q) as [t|] eqn:Et; [|discriminate].
    cbn [bind] in H.
    destruct (map_result render_question qs) as [ts'|]; [|discriminate].
    cbn [bind] in H. inversion H; subst ts.
    constructor; [apply (render_question_markup q); exact Et | apply IH; reflexivity].
Qed.

Lemma chapter_xhtml_markup : forall domain q_blocks,
  Forall (fun t => markup_from_template t = true) q_blocks ->
  markup_from_template (chapter_xhtml domain q_blocks) = true.
Proof.
  intros domain q_blocks H. unfold chapter_xhtml. rewrite <- ?app_assoc.
  assert (J : markup_from_template (join [nl] q_blocks) = true).
  { apply scan_join; [apply tag_or_entity_stable | reflexivity | exact H]. }
  markup_pieces.
Qed.

Lemma chapters_loop_markup : forall domains items idx st st',
  chapters_loop domains items idx st = Ok st' ->
  all_chapters_markup st -> all_chapters_markup st'.
Proof.
  intros domains items. induction items as [|[d slug] items IH];
    intros idx st st' H Hst; cbn [chapters_loop] in H.
  - inversion H; subst. exact Hst.
  - destruct (map_result render_question (domains_index domains d))
      as [ts|] eqn:Et; [|discriminate].
    cbn [bind] in H. apply IH in H; [exact H|].
    unfold all_chapters_markup. cbn [chapters].
    apply dict_set_values with (P := fun v => markup_from_template v = true);
      [|exact Hst].
    apply chapter_xhtml_markup. apply (render_all_markup _ _ Et).
Qed.

End Escaping.


(** * Markers and slices *)

Section Slices.

Lemma advance_S : forall n b c a cs,
  advance (S n) b (c :: a) cs = advance n (c :: b) a cs.
Proof.
  intros. unfold advance. cbn [firstn skipn rev]. rewrite <- app_assoc.
  reflexivity.
Qed.

Lemma rep_ext : forall g p a lo b cs k1 k2,
  (forall st, k1 st = k2 st) ->
  rep g lo p b a cs k1 = rep g lo p b a cs k2.
Proof.
  intros g p a. induction a as [|c a IH]; intros lo b cs k1 k2 H.
  - rewrite !rep_nil. destruct lo; [apply H | reflexivity].
  - cbn [rep]. rewrite (IH (pred lo) (c :: b) cs k1 k2 H), H. reflexivity.
Qed.

Lemma rmatch_ext : forall r st k1 k2,
  (forall st', k1 st' = k2 st') -> rmatch r st k1 = rmatch r st k2.
Proof.
  induction r; intros st k1 k2 H; cbn [rmatch]; rewrite ?H; try reflexivity.
  - destruct (after st) as [|c a]; [reflexivity|]. rewrite H. reflexivity.
  - apply IHr1. intros st'. apply IHr2. exact H.
  - rewrite (IHr1 st k1 k2 H), (IHr2 st k1 k2 H). reflexivity.
  - apply rep_ext. exact H.
  - apply IHr. intros st'. apply H.
Qed.

(** A greedy repetition keeps its whole run when a failure of what
    follows after one more character of the run means a failure before
    it. *)
Lemma greedy_max : forall p cs k,
  (forall b c s, p c = true ->
     k (MState (c :: b) s cs) = None -> k (MState b (c :: s) cs) = None) ->
  forall a b,
    rep true 0 p b a cs k = k (advance (span_len p a) b a cs)
    /\ (k (advance (span_len p a) b a cs) = None -> k (MState b a cs) = None).
Proof.
  intros p cs k Hk a. induction a as [|c a IH]; intros b.
  - rewrite rep_nil. unfold advance. simpl. auto.
  - cbn [rep span_len pred]. destruct (p c) eqn:Hp.
    + rewrite advance_S. destruct (IH (c :: b)) as [E F]. rewrite E.
      split.
      * destruct (k (advance (span_len p a) (c :: b) a cs)) eqn:Ek;
          [reflexivity|].
        apply Hk; [exact Hp | apply F; reflexivity].
      * intros N. apply Hk; [exact Hp | apply F; exact N].
    + unfold advance. simpl. auto.
Qed.

(** A lazy repetition of [.] under [re.DOTALL] stops at the first position
    where what follows succeeds. *)
Lemma lazy_first : forall (look : text -> bool) (K : mstate -> option mstate)
    cs a b,
  (forall st, K st <> None) ->
  rep false 0 any_char b a cs
      (fun st => if look (after st) then K st else None)
  = match first_where look a with
    | Some n => K (advance n b a cs)
    | None => None
    end.
Proof.
  intros look K cs a. induction a as [|c a IH]; intros b HK.
  - rewrite rep_nil. cbn [after first_where]. destruct (look []); reflexivity.
  - cbn [rep first_where after pred any_char]. destruct (look (c :: a)) eqn:E.
    + unfold advance. simpl.
      destruct (K (MState b (c :: a) cs)) eqn:EK; [reflexivity|].
      exfalso. exact (HK _ EK).
    + rewrite (IH (c :: b) HK). destruct (first_where look a) as [n|];
        [|reflexivity].
      cbn [option_map]. rewrite advance_S. reflexivity.
Qed.

Lemma starts_with_skipn : forall s a,
  starts_with s a = true -> a = s ++ skipn (length s) a.
Proof.
  induction s as [|c s IH]; intros a H; [reflexivity|].
  destruct a as [|x a]; [discriminate|]. cbn [starts_with] in H.
  apply andb_true_iff in H. destruct H as [H1 H2].
  apply Ascii.eqb_eq in H1. subst x. cbn [length skipn app]. f_equal.
  apply IH. exact H2.
Qed.

(** A literal matches where the subject starts with it, and passes it. *)
Lemma lit_match : forall s st k,
  rmatch (lit s) st k
  = if starts_with s (after st)
    then k (advance (length s) (before st) (after st) (caps st))
    else None.
Proof.
  induction s as [|c s IH]; intros [b a cs] k.
  - reflexivity.
  - cbn [lit rmatch after before caps starts_with].
    destruct a as [|x a]; [reflexivity|]. unfold is_char.
    destruct (Ascii.eqb c x) eqn:E; [|reflexivity].
    rewrite IH. cbn [after before caps andb].
    destruct (starts_with s a); [|reflexivity].
    cbn [length]. rewrite advance_S. reflexivity.
Qed.

(** Where the pattern matches exactly at the positions that pass [test],
    the search returns the match at the first of them. *)
Lemma search_first : forall r (test : text -> bool)
    (F : text -> text -> match_obj),
  (forall b a, match_at r b a = if test a then Some (F b a) else None) ->
  forall a b,
    search_from r b a
    = match first_where test a with
      | Some i => Some (F (rev (firstn i a) ++ b) (skipn i a))
      | None => None
      end.
Proof.
  intros r test F H a. induction a as [|c a IH]; intros b.
  - cbn [search_from first_where]. rewrite H. destruct (test []); reflexivity.
  - cbn [search_from first_where]. rewrite H. destruct (test (c :: a)).
    + reflexivity.
    + rewrite IH. destruct (first_where test a) as [i|]; [|reflexivity].
      cbn [option_map firstn skipn rev]. rewrite <- app_assoc. reflexivity.
Qed.

Lemma first_where_bound : forall test s n,
  first_where test s = Some n -> n <= length s /\ test (skipn n s) = true.
Proof.
  intros test s. induction s as [|c s IH]; intros n H; cbn [first_where] in H.
  - destruct (test []) eqn:E; [|discriminate]. inversion H. auto.
  - destruct (test (c :: s)) eqn:E.
    + inversion H. subst. simpl. split; [lia | exact E].
    + destruct (first_where test s) as [m|]; [|discriminate].
      inversion H. subst. destruct (IH m eq_refl). simpl. split; [lia | auto].
Qed.

Lemma first_where_none : forall test s,
  first_where test s = None -> forall n, test (skipn n s) = false.
Proof.
  intros test s. induction s as [|c s IH]; intros H n; cbn [first_where] in H.
  - destruct (test []) eqn:E; [discriminate|]. destruct n; exact E.
  - destruct (test (c :: s)) eqn:E; [discriminate|].
    destruct (first_where test s); [discriminate|].
    destruct n; [exact E | apply IH; reflexivity].
Qed.

Lemma skipn_span_lstrip : forall s, skipn (span_len is_space s) s = lstrip s.
Proof.
  induction s as [|c s IH]; [reflexivity|]. cbn [span_len lstrip].
  destruct (is_space c); [exact IH | reflexivity].
Qed.

Lemma stops_nil : forall next, stops next [] = true.
Proof. intros. unfold stops. apply orb_true_r. Qed.

Lemma first_where_total : forall test s,
  test [] = true -> first_where test s <> None.
Proof.
  intros test s H. induction s as [|c s IH]; cbn [first_where].
  - rewrite H. discriminate.
  - destruct (test (c :: s)); [discriminate|].
    destruct (first_where test s); [discriminate | congruence].
Qed.

Lemma consumed_advance : forall n b a cs cs',
  n <= length a -> consumed (MState b a cs) (advance n b a cs') = firstn n a.
Proof.
  intros n b a cs cs' H. unfold consumed, advance. cbn [after].
  rewrite length_skipn. f_equal. lia.
Qed.

Lemma star_space_some : forall b a cs,
  rep true 0 is_space b a cs Some <> None.
Proof. intros. rewrite rep_greedy_run. discriminate. Qed.

Lemma ahead_stops : forall next st k,
  rmatch (Ahead (Alt (Seq (lit next) (star is_space)) Eos)) st k
  = if stops next (after st) then k st else None.
Proof.
  intros next [b a cs] k. unfold stops, star. cbn [rmatch after].
  rewrite lit_match. cbn [after before caps].
  destruct (starts_with next a).
  - cbn [orb]. unfold advance. cbn [before after caps].
    destruct (rep true 0 is_space (rev (firstn (length next) a) ++ b)
                (skipn (length next) a) cs Some) eqn:E; [reflexivity|].
    exfalso. exact (star_space_some _ _ _ E).
  - cbn [orb]. unfold at_eos, at_end. cbn [after].
    destruct a as [|c [|c' a]]; try reflexivity.
    destruct (code c =? 10)%N; reflexivity.
Qed.

(** The group and the lookahead of a choice pattern, from a position. *)
Lemma lazy_group_ahead : forall next st,
  rmatch (Seq (Grp 1 (lazy_star any_char))
              (Ahead (Alt (Seq (lit next) (star is_space)) Eos))) st Some
  = match first_where (stops next) (after st) with
    | Some n => Some (set_cap 1 (firstn n (after st))
                        (advance n (before st) (after st) (caps st)))
    | None => None
    end.
Proof.
  intros next [b a cs]. unfold lazy_star.
  change (rmatch (Seq (Grp 1 (Rep false 0 any_char)) ?AH) (MState b a cs) Some)
    with (rep false 0 any_char b a cs
            (fun st' => rmatch AH (set_cap 1 (consumed (MState b a cs) st') st')
                          Some)).
  cbn [before after caps].
  rewrite (rep_ext false any_char a 0 b cs _
             (fun st' => if stops next (after st')
                         then Some (set_cap 1 (consumed (MState b a cs) st') st')
                         else None)).
  2:{ intros st'. rewrite ahead_stops. reflexivity. }
  rewrite (lazy_first (stops next)
             (fun st' => Some (set_cap 1 (consumed (MState b a cs) st') st')));
    [|intros; discriminate].
  destruct (first_where (stops next) a) as [n|] eqn:E; [|reflexivity].
  rewrite consumed_advance; [reflexivity|].
  apply first_where_bound in E. apply E.
Qed.

Lemma match_at_choice : forall this next b a,
  match_at (choice_re this next) b a
  = if starts_with (T this) a
    then Some (choice_match (T this) (T next) b a)
    else None.
Proof.
  intros this next b a. unfold match_at, choice_re, seqs.
  change (rmatch (Seq (lit (T this)) ?X) ?st ?k)
    with (rmatch (lit (T this)) st (fun st' => rmatch X st' k)).
  rewrite lit_match. cbn [after before caps].
  destruct (starts_with (T this) a); [|reflexivity].
  set (st1 := advance (length (T this)) b a []).
  change (rmatch (Seq (star is_space) ?X) st1 ?k)
    with (rep true 0 is_space (before st1) (after st1) (caps st1)
            (fun st' => rmatch X st' k)).
  destruct (greedy_max is_space (caps st1)
              (fun st' => rmatch
                 (Seq (Grp 1 (lazy_star any_char))
                    (Ahead (Alt (Seq (lit (T next)) (star is_space)) Eos)))
                 st' Some)) with (a := after st1) (b := before st1) as [E _].
  { intros b0 c s _ N. rewrite lazy_group_ahead in N. cbn [after] in N.
    destruct (first_where (stops (T next)) s) eqn:F; [discriminate|].
    exfalso. apply (first_where_total (stops (T next)) s); [apply stops_nil | exact F]. }
  rewrite E. rewrite lazy_group_ahead. unfold choice_match. fold st1.
  change (caps st1) with (@nil (nat * text)).
  set (st2 := advance (span_len is_space (after st1)) (before st1) (after st1) []).
  destruct (first_where (stops (T next)) (after st2)) as [n|] eqn:F.
  - reflexivity.
  - exfalso. apply (first_where_total (stops (T next)) (after st2));
      [apply stops_nil | exact F].
Qed.

Lemma after_advance : forall n b a cs, after (advance n b a cs) = skipn n a.
Proof. reflexivity. Qed.

Lemma choice_match_group : forall this next b a,
  group (choice_match this next b a) 1
  = text_upto (stops next) (lstrip (skipn (length this) a)).
Proof.
  intros this next b a. unfold choice_match, group, text_upto.
  cbn [m_caps lookup_cap Nat.eqb]. rewrite !after_advance, skipn_span_lstrip.
  destruct (first_where (stops next) (lstrip (skipn (length this) a)))
    as [n|] eqn:F; [reflexivity|].
  exfalso. apply (first_where_total (stops next) _ (stops_nil _) F).
Qed.

Lemma length_rev_firstn : forall i (a : text),
  i <= length a -> length (rev (firstn i a) ++ []) = i.
Proof.
  intros i a H. rewrite app_nil_r, length_rev, length_firstn. lia.
Qed.

(** A choice pattern finds the first occurrence of its marker; its group
    is the text after the marker and the whitespace that follows it, up
    to the next marker or to the end of the subject. *)
Lemma choice_re_search : forall this next s,
  option_map (fun m => (m_start m, group m 1))
             (re_search (choice_re this next) s)
  = option_map
      (fun i => (i, text_upto (stops (T next))
                      (lstrip (skipn (i + length (T this)) s))))
      (find_sub (T this) s).
Proof.
  intros this next s. unfold re_search, find_sub.
  rewrite (search_first (choice_re this next) (starts_with (T this))
             (choice_match (T this) (T next)) (match_at_choice this next)).
  destruct (first_where (starts_with (T this)) s) as [i|] eqn:E;
    [|reflexivity].
  cbn [option_map]. apply first_where_bound in E. destruct E as [Hi _].
  rewrite choice_match_group, skipn_skipn.
  rewrite (Nat.add_comm (length (T this)) i).
  unfold choice_match. cbn [m_start].
  rewrite (length_rev_firstn i s Hi). reflexivity.
Qed.

(** A greedy [\s*] before a test that fails on text beginning with
    whitespace takes the whole run. *)
Lemma greedy_guard : forall (g : text -> bool) (K : mstate -> option mstate)
    cs a b,
  (forall c s, is_space c = true -> g (c :: s) = false) ->
  rep true 0 is_space b a cs (fun st => if g (after st) then K st else None)
  = if g (lstrip a) then K (advance (span_len is_space a) b a cs) else None.
Proof.
  intros g K cs a b Hg.
  destruct (greedy_max is_space cs
              (fun st => if g (after st) then K st else None)) with (a := a) (b := b)
    as [E _].
  { intros b0 c s Hc _. cbn [after]. rewrite (Hg c s Hc). reflexivity. }
  rewrite E, after_advance, skipn_span_lstrip. reflexivity.
Qed.

Lemma starts_with_space_head : forall mk c s x,
  is_space x = false -> is_space c = true ->
  starts_with (x :: mk) (c :: s) = false.
Proof.
  intros mk c s x Hx Hc. cbn [starts_with].
  destruct (Ascii.eqb x c) eqn:E; [|reflexivity].
  apply Ascii.eqb_eq in E. subst. congruence.
Qed.

(** [\s*mk] matches where [mk] follows the whitespace. *)
Lemma space_lit_match : forall x mk st k,
  is_space x = false ->
  rmatch (Seq (star is_space) (lit (x :: mk))) st k
  = if starts_after_space (x :: mk) (after st)
    then k (advance (length (x :: mk))
              (before (advance (span_len is_space (after st)) (before st)
                         (after st) (caps st)))
              (lstrip (after st)) (caps st))
    else None.
Proof.
  intros x mk [b a cs] k Hx. unfold star, starts_after_space.
  change (rmatch (Seq (Rep true 0 is_space) ?X) (MState b a cs) k)
    with (rep true 0 is_space b a cs (fun st' => rmatch X st' k)).
  rewrite (rep_ext true is_space a 0 b cs _
             (fun st' => if starts_with (x :: mk) (after st')
                         then k (advance (length (x :: mk)) (before st')
                                   (after st') (caps st'))
                         else None)).
  2:{ intros st'. apply lit_match. }
  rewrite (greedy_guard (starts_with (x :: mk))
             (fun st' => k (advance (length (x :: mk)) (before st')
                              (after st') (caps st')))).
  2:{ intros c s Hc. apply starts_with_space_head; assumption. }
  cbn [before after caps]. rewrite after_advance, skipn_span_lstrip.
  reflexivity.
Qed.

Lemma lstrip_spaces : forall u v,
  forallb is_space u = true -> lstrip (u ++ v) = lstrip v.
Proof.
  induction u as [|c u IH]; intros v H; [reflexivity|].
  cbn [forallb] in H. apply andb_true_iff in H. destruct H as [Hc Hu].
  cbn [app lstrip]. rewrite Hc. apply IH. exact Hu.
Qed.

Lemma lstrip_all_spaces : forall u, forallb is_space u = true -> lstrip u = [].
Proof.
  intros u H. rewrite <- (app_nil_r u). rewrite lstrip_spaces; auto.
Qed.

(** Whitespace at the end does not survive [strip()]. *)
Lemma strip_app_spaces : forall x u,
  forallb is_space u = true -> strip (x ++ u) = strip x.
Proof.
  intros x u Hu. unfold strip. induction x as [|c x IH].
  - cbn [app]. rewrite (lstrip_all_spaces u Hu). reflexivity.
  - cbn [app lstrip]. destruct (is_space c); [exact IH|].
    unfold rstrip. f_equal.
    change (c :: x ++ u) with ((c :: x) ++ u).
    rewrite rev_app_distr. apply lstrip_spaces.
    rewrite forallb_forall in *. intros y Hy. apply Hu.
    apply in_rev. exact Hy.
Qed.

Lemma strip_spaces_app : forall u x,
  forallb is_space u = true -> strip (u ++ x) = strip x.
Proof. intros u x H. unfold strip. rewrite lstrip_spaces; auto. Qed.

Lemma span_spaces : forall s,
  forallb is_space (firstn (span_len is_space s) s) = true.
Proof.
  induction s as [|c s IH]; [reflexivity|]. cbn [span_len].
  destruct (is_space c) eqn:E; [|reflexivity].
  cbn [firstn forallb]. rewrite E. exact IH.
Qed.

(** Where [mk] follows whitespace, the first occurrence of [mk] is at
    the end of that whitespace. *)
Lemma find_sub_after_space : forall x mk s,
  is_space x = false ->
  starts_after_space (x :: mk) s = true ->
  find_sub (x :: mk) s = Some (span_len is_space s).
Proof.
  intros x mk s Hx. unfold starts_after_space, find_sub.
  induction s as [|c s IH]; intros H.
  - cbn [lstrip] in H. cbn [first_where]. rewrite H. reflexivity.
  - cbn [lstrip] in H. cbn [first_where span_len].
    destruct (is_space c) eqn:Hc.
    + rewrite (starts_with_space_head mk c s x Hx Hc).
      rewrite (IH H). reflexivity.
    + rewrite H. reflexivity.
Qed.

(** The first position from which [mk] follows whitespace, against the
    first occurrence of [mk]. *)
Lemma first_after_space : forall x mk s,
  is_space x = false ->
  match first_where (starts_after_space (x :: mk)) s with
  | Some n => find_sub (x :: mk) s
              = Some (n + span_len is_space (skipn n s))
  | None => find_sub (x :: mk) s = None
  end.
Proof.
  intros x mk s Hx. induction s as [|c s IH].
  - cbn [first_where]. destruct (starts_after_space (x :: mk) []) eqn:E.
    + apply (find_sub_after_space x mk [] Hx E).
    + unfold find_sub. cbn [first_where]. unfold starts_after_space in E.
      cbn [lstrip] in E. rewrite E. reflexivity.
  - cbn [first_where]. destruct (starts_after_space (x :: mk) (c :: s)) eqn:E.
    + apply (find_sub_after_space x mk (c :: s) Hx E).
    + assert (N : starts_with (x :: mk) (c :: s) = false).
      { destruct (starts_with (x :: mk) (c :: s)) eqn:S; [|reflexivity].
        unfold starts_after_space in E. cbn [lstrip] in E.
        destruct (is_space c) eqn:Hc; [|congruence].
        rewrite (starts_with_space_head mk c s x Hx Hc) in S. discriminate. }
      unfold find_sub in *. cbn [first_where]. rewrite N.
      destruct (first_where (starts_after_space (x :: mk)) s) as [n|].
      * cbn [option_map skipn]. rewrite IH. reflexivity.
      * rewrite IH. reflexivity.
Qed.

Lemma firstn_add : forall n m (s : text),
  firstn (n + m) s = firstn n s ++ firstn m (skipn n s).
Proof.
  induction n as [|n IH]; intros m s; [reflexivity|].
  destruct s as [|c s]; cbn [Nat.add firstn skipn app].
  - rewrite firstn_nil. reflexivity.
  - rewrite IH. reflexivity.
Qed.

(** The stripped text before the whitespace that precedes [mk] is the
    stripped text before [mk]. *)
Lemma strip_firstn_span : forall n s,
  strip (firstn (n + span_len is_space (skipn n s)) s) = strip (firstn n s).
Proof.
  intros n s. rewrite firstn_add. apply strip_app_spaces. apply span_spaces.
Qed.

Lemma lstrip_skipn_span : forall n s,
  lstrip (skipn n s) = skipn (n + span_len is_space (skipn n s)) s.
Proof.
  intros n s. rewrite <- skipn_span_lstrip, skipn_skipn.
  f_equal. lia.
Qed.

(** The subject is the same at every position of a match. *)
Lemma subject_advance : forall n b a cs,
  rev (before (advance n b a cs)) ++ after (advance n b a cs) = rev b ++ a.
Proof.
  intros. unfold advance. cbn [before after].
  rewrite rev_app_distr, rev_involutive, <- app_assoc, firstn_skipn.
  reflexivity.
Qed.

Lemma skipn_before : forall (b a s : text),
  rev b ++ a = s -> skipn (length b) s = a.
Proof.
  intros b a s H. subst s. rewrite <- length_rev.
  rewrite skipn_app, Nat.sub_diag, skipn_all. reflexivity.
Qed.

(** [\s*] and a last group holding [.*] under [re.DOTALL] take all that
    is left; the group holds it without the leading whitespace. *)
Lemma rest_group : forall g st,
  rmatch (Seq (star is_space) (Grp g (star any_char))) st Some
  = Some (MState (rev (lstrip (after st))
                  ++ before (advance (span_len is_space (after st))
                               (before st) (after st) (caps st)))
                 [] ((g, lstrip (after st)) :: caps st)).
Proof.
  intros g [b a cs]. unfold star.
  change (rmatch (Seq (Rep true 0 is_space) ?X) (MState b a cs) Some)
    with (rep true 0 is_space b a cs (fun st' => rmatch X st' Some)).
  destruct (greedy_max is_space cs
              (fun st' => rmatch (Grp g (Rep true 0 any_char)) st' Some))
    with (a := a) (b := b) as [E _].
  { intros b0 c s _ N. exfalso. cbn [rmatch before after caps] in N.
    rewrite rep_any_total in N by (intros; discriminate). discriminate. }
  rewrite E. cbn [before after caps].
  set (st1 := advance (span_len is_space a) b a cs).
  cbn [rmatch]. rewrite rep_any_total by (intros; discriminate).
  unfold set_cap. cbn [before after caps].
  destruct st1 as [b1 a1 cs1] eqn:E1. rewrite consumed_all.
  assert (A1 : a1 = lstrip a).
  { change a1 with (after (MState b1 a1 cs1)). rewrite <- E1. unfold st1.
    rewrite after_advance. apply skipn_span_lstrip. }
  assert (C1 : cs1 = cs).
  { change cs1 with (caps (MState b1 a1 cs1)). rewrite <- E1. reflexivity. }
  subst a1 cs1. reflexivity.
Qed.

(** A lazy group before a lookahead that tests the text ahead. *)
Lemma lazy_group : forall AH (look : text -> bool),
  (forall st k, rmatch AH st k = if look (after st) then k st else None) ->
  forall st,
    rmatch (Seq (Grp 1 (lazy_star any_char)) AH) st Some
    = match first_where look (after st) with
      | Some n => Some (set_cap 1 (firstn n (after st))
                          (advance n (before st) (after st) (caps st)))
      | None => None
      end.
Proof.
  intros AH look H [b a cs]. unfold lazy_star.
  change (rmatch (Seq (Grp 1 (Rep false 0 any_char)) AH) (MState b a cs) Some)
    with (rep false 0 any_char b a cs
            (fun st' => rmatch AH (set_cap 1 (consumed (MState b a cs) st') st')
                          Some)).
  cbn [before after caps].
  rewrite (rep_ext false any_char a 0 b cs _
             (fun st' => if look (after st')
                         then Some (set_cap 1 (consumed (MState b a cs) st') st')
                         else None)).
  2:{ intros st'. rewrite H. reflexivity. }
  rewrite (lazy_first look
             (fun st' => Some (set_cap 1 (consumed (MState b a cs) st') st')));
    [|intros; discriminate].
  destruct (first_where look a) as [n|] eqn:E; [|reflexivity].
  rewrite consumed_advance; [reflexivity|].
  apply first_where_bound in E. apply E.
Qed.

Lemma first_where_suffix_none : forall test (s : text) n,
  first_where test s = None -> first_where test (skipn n s) = None.
Proof.
  intros test s n H.
  destruct (first_where test (skipn n s)) as [m|] eqn:E; [|reflexivity].
  apply first_where_bound in E. destruct E as [_ E].
  rewrite skipn_skipn in E.
  rewrite (first_where_none test s H) in E. discriminate.
Qed.

Lemma first_where_here : forall (test : text -> bool) s,
  test s = true -> first_where test s = Some 0.
Proof. intros test [|c s] H; cbn [first_where]; rewrite H; reflexivity. Qed.

(** A test that fails on a text fails on its suffixes: only the start of
    the text can be the first position. *)
Lemma first_where_is_some : forall look (s : text),
  first_where (fun x => is_some (first_where look x)) s
  = if is_some (first_where look s) then Some 0 else None.
Proof.
  intros look s. destruct (first_where look s) as [n|] eqn:E.
  - cbn [is_some]. apply first_where_here. rewrite E. reflexivity.
  - cbn [is_some].
    destruct (first_where (fun x => is_some (first_where look x)) s)
      as [m|] eqn:F; [|reflexivity].
    apply first_where_bound in F. destruct F as [_ F].
    rewrite (first_where_suffix_none look s m E) in F. discriminate.
Qed.

(** *** [q_match] *)

Lemma rmatch_q_re : forall b a,
  rmatch q_re (MState b a []) Some
  = option_map (fun n => q_state n b a)
      (first_where (starts_after_space (T "A.")) a).
Proof.
  intros b a. unfold q_re, seqs.
  change (rmatch (Seq (Grp 1 (lazy_star any_char)) ?X) (MState b a []) Some)
    with (rep false 0 any_char b a []
            (fun st' => rmatch X (set_cap 1 (consumed (MState b a []) st') st')
                          Some)).
  rewrite (rep_ext false any_char a 0 b [] _
             (fun st' => if starts_after_space (T "A.") (after st')
                         then
                           (fun st' =>
                              rmatch (Seq (star is_space) (Grp 2 (star any_char)))
                                (advance 2
                                   (before (advance (span_len is_space (after st'))
                                              (before st') (after st')
                                              ((1, consumed (MState b a []) st')
                                               :: caps st')))
                                   (lstrip (after st'))
                                   ((1, consumed (MState b a []) st') :: caps st'))
                                Some) st'
                         else None)).
  2:{ intros st'.
      change (rmatch (Seq (star is_space) (Seq (lit (T "A.")) ?R)) ?st Some)
        with (rmatch (Seq (star is_space) (lit (T "A."))) st
                (fun st'' => rmatch R st'' Some)).
      change (T "A.") with ("A"%char :: T ".").
      rewrite space_lit_match by reflexivity.
      unfold set_cap. cbn [before after caps]. reflexivity. }
  rewrite lazy_first.
  2:{ intros st. rewrite rest_group. discriminate. }
  destruct (first_where (starts_after_space (T "A.")) a) as [n|] eqn:E;
    [|reflexivity].
  cbn [option_map]. rewrite rest_group. unfold q_state.
  apply first_where_bound in E. destruct E as [Hn _].
  rewrite consumed_advance by exact Hn.
  unfold advance. cbn [before after caps]. reflexivity.
Qed.

Lemma q_state_groups : forall n b a,
  lookup_cap 1 (caps (q_state n b a)) = firstn n a
  /\ lookup_cap 2 (caps (q_state n b a))
     = lstrip (skipn 2 (lstrip (skipn n a))).
Proof. intros. unfold q_state. split; reflexivity. Qed.

(** [q_match] exists where [A.] occurs; its first group strips to the
    stripped text before the first [A.], and its second group is the
    text after that marker without its leading whitespace. *)
Lemma q_re_search : forall s,
  match find_sub (T "A.") s with
  | Some i =>
      exists m, re_search q_re s = Some m
                /\ strip (group m 1) = strip (firstn i s)
                /\ group m 2 = lstrip (skipn (i + 2) s)
  | None => re_search q_re s = None
  end.
Proof.
  intros s. unfold re_search.
  set (look := starts_after_space (T "A.")).
  assert (M : forall b a,
             match_at q_re b a
             = if is_some (first_where look a)
               then Some (let st := q_state
                                      (match first_where look a with
                                       | Some n => n
                                       | None => 0
                                       end) b a in
                          MatchObj (length b) (length (before st)) (caps st))
               else None).
  { intros b a. unfold match_at. rewrite rmatch_q_re. fold look.
    destruct (first_where look a); reflexivity. }
  rewrite (search_first q_re _ _ M), first_where_is_some.
  pose proof (first_after_space "A"%char (T ".") s eq_refl) as F.
  change ("A"%char :: T ".") with (T "A.") in F. fold look in F.
  destruct (first_where look s) as [n|] eqn:E.
  - rewrite F. cbn [is_some firstn skipn rev app]. rewrite E.
    eexists. split; [reflexivity|].
    unfold group. cbn [m_caps]. destruct (q_state_groups n [] s) as [G1 G2].
    rewrite G1, G2. split.
    + symmetry. apply strip_firstn_span.
    + rewrite (lstrip_skipn_span n s), skipn_skipn, (Nat.add_comm 2).
      reflexivity.
  - rewrite F. reflexivity.
Qed.

Lemma space_not_letter : forall c,
  is_space c = true -> in_range 65 68 c = false.
Proof. intros [[] [] [] [] [] [] [] []] H; vm_compute in H |- *; congruence. Qed.

Lemma letter_ahead_space : forall c s,
  is_space c = true -> letter_ahead (c :: s) = false.
Proof. intros c s H. apply space_not_letter. exact H. Qed.

(** *** [answer_match] *)

Lemma letter_group : forall st,
  rmatch (Grp 1 (Chr (in_range 65 68))) st Some
  = if letter_ahead (after st)
    then Some (advance 1 (before st) (after st)
                 ((1, firstn 1 (after st)) :: caps st))
    else None.
Proof.
  intros [b [|c a] cs]; [reflexivity|].
  cbn [rmatch after before caps letter_ahead].
  destruct (in_range 65 68 c); [|reflexivity].
  unfold set_cap. cbn [before after caps]. rewrite consumed_one.
  reflexivity.
Qed.

Lemma match_at_answer : forall b a,
  match_at answer_re b a
  = if answer_at a
    then Some (MatchObj (length b) (length (before (answer_state b a)))
                 (caps (answer_state b a)))
    else None.
Proof.
  intros b a. unfold match_at, answer_re, answer_at, seqs.
  change (rmatch (Seq (lit (T "Answer:")) ?X) ?st ?k)
    with (rmatch (lit (T "Answer:")) st (fun st' => rmatch X st' k)).
  rewrite lit_match. cbn [after before caps].
  destruct (starts_with (T "Answer:") a); [|reflexivity]. cbn [andb].
  change (length (T "Answer:")) with 7.
  set (st1 := advance 7 b a []).
  change (rmatch (Seq (star is_space) ?X) st1 Some)
    with (rep true 0 is_space (before st1) (after st1) (caps st1)
            (fun st' => rmatch X st' Some)).
  rewrite (rep_ext true is_space (after st1) 0 (before st1) (caps st1) _
             (fun st' => if letter_ahead (after st')
                         then Some (advance 1 (before st') (after st')
                                      ((1, firstn 1 (after st')) :: caps st'))
                         else None)).
  2:{ intros st'. apply letter_group. }
  rewrite (greedy_guard letter_ahead
             (fun st' => Some (advance 1 (before st') (after st')
                                 ((1, firstn 1 (after st')) :: caps st')))).
  2:{ apply letter_ahead_space. }
  change (after st1) with (skipn 7 a).
  destruct (letter_ahead (lstrip (skipn 7 a))); reflexivity.
Qed.

Lemma answer_state_subject : forall b a,
  rev (before (answer_state b a)) ++ after (answer_state b a) = rev b ++ a.
Proof.
  intros b a. unfold answer_state. rewrite !subject_advance. reflexivity.
Qed.

Lemma answer_state_after : forall b a,
  after (answer_state b a) = skipn 1 (lstrip (skipn 7 a)).
Proof.
  intros b a. unfold answer_state. rewrite !after_advance.
  rewrite skipn_span_lstrip. reflexivity.
Qed.

Lemma answer_state_group : forall b a,
  lookup_cap 1 (caps (answer_state b a)) = firstn 1 (lstrip (skipn 7 a)).
Proof.
  intros b a. unfold answer_state. cbn [caps advance lookup_cap Nat.eqb].
  rewrite !after_advance, skipn_span_lstrip. reflexivity.
Qed.

Lemma subject_at : forall i (s : text),
  rev (rev (firstn i s) ++ []) ++ skipn i s = s.
Proof.
  intros. rewrite app_nil_r, rev_involutive. apply firstn_skipn.
Qed.

(** [answer_match] is the first place where [Answer:], whitespace and a
    letter [A] to [D] follow one another; its group is that letter, and
    after [answer_match.end()] comes what follows the letter. *)
Lemma answer_re_search : forall s,
  option_map (fun m => (group m 1, skipn (m_end m) s))
             (re_search answer_re s)
  = answer_split s.
Proof.
  intros s. unfold re_search, answer_split.
  rewrite (search_first answer_re answer_at _ match_at_answer).
  destruct (first_where answer_at s) as [i|]; [|reflexivity].
  cbn [option_map]. unfold group. cbn [m_caps m_end].
  rewrite answer_state_group.
  rewrite (skipn_before (before (answer_state (rev (firstn i s) ++ []) (skipn i s)))
             (after (answer_state (rev (firstn i s) ++ []) (skipn i s))) s).
  2:{ rewrite answer_state_subject. apply subject_at. }
  rewrite answer_state_after, skipn_skipn, (Nat.add_comm 7 i). reflexivity.
Qed.

(** *** [explanation_match] of the fixed script *)

Lemma letter_rest : forall st,
  rmatch (Seq (Chr (in_range 65 68))
              (Seq (star is_space) (Grp 1 (star any_char)))) st Some
  = if letter_ahead (after st)
    then rmatch (Seq (star is_space) (Grp 1 (star any_char)))
           (advance 1 (before st) (after st) (caps st)) Some
    else None.
Proof.
  intros [b [|c a] cs]; [reflexivity|].
  cbn [letter_ahead after].
  change (rmatch (Seq (Chr (in_range 65 68)) ?X) (MState b (c :: a) cs) Some)
    with (if in_range 65 68 c then rmatch X (MState (c :: b) a cs) Some
          else None).
  reflexivity.
Qed.

Lemma match_at_explanation : forall b a,
  match_at Fixed.explanation_re b a
  = if answer_at a
    then Some (MatchObj (length b) (length (before (explanation_state b a)))
                 (caps (explanation_state b a)))
    else None.
Proof.
  intros b a. unfold match_at, Fixed.explanation_re, answer_at, seqs.
  change (rmatch (Seq (lit (T "Answer:")) ?X) ?st ?k)
    with (rmatch (lit (T "Answer:")) st (fun st' => rmatch X st' k)).
  rewrite lit_match. cbn [after before caps].
  destruct (starts_with (T "Answer:") a); [|reflexivity]. cbn [andb].
  change (length (T "Answer:")) with 7.
  set (st1 := advance 7 b a []).
  change (rmatch (Seq (star is_space) ?X) st1 Some)
    with (rep true 0 is_space (before st1) (after st1) (caps st1)
            (fun st' => rmatch X st' Some)).
  rewrite (rep_ext true is_space (after st1) 0 (before st1) (caps st1) _
             (fun st' => if letter_ahead (after st')
                         then rmatch (Seq (star is_space) (Grp 1 (star any_char)))
                                (advance 1 (before st') (after st') (caps st'))
                                Some
                         else None)).
  2:{ intros st'. apply letter_rest. }
  rewrite (greedy_guard letter_ahead
             (fun st' => rmatch (Seq (star is_space) (Grp 1 (star any_char)))
                           (advance 1 (before st') (after st') (caps st'))
                           Some)).
  2:{ apply letter_ahead_space. }
  change (after st1) with (skipn 7 a).
  destruct (letter_ahead (lstrip (skipn 7 a))); [|reflexivity].
  rewrite rest_group. reflexivity.
Qed.

(** [explanation_match] is found where [answer_match] is; its group is
    what follows the letter, without the leading whitespace. *)
Lemma explanation_re_search : forall s,
  option_map (fun m => group m 1) (re_search Fixed.explanation_re s)
  = option_map (fun lt => lstrip (snd lt)) (answer_split s).
Proof.
  intros s. unfold re_search, answer_split.
  rewrite (search_first Fixed.explanation_re answer_at _ match_at_explanation).
  destruct (first_where answer_at s) as [i|]; [|reflexivity].
  cbn [option_map snd]. unfold group, explanation_state.
  cbn [m_caps caps lookup_cap Nat.eqb].
  rewrite !after_advance, skipn_span_lstrip, skipn_skipn, (Nat.add_comm 7 i).
  reflexivity.
Qed.

Lemma ahead_space_lit : forall x mk st k,
  is_space x = false ->
  rmatch (Ahead (Seq (star is_space) (lit (x :: mk)))) st k
  = if starts_after_space (x :: mk) (after st) then k st else None.
Proof.
  intros x mk st k Hx.
  change (rmatch (Ahead ?X) st k)
    with (match rmatch X st Some with Some _ => k st | None => None end).
  rewrite (space_lit_match x mk st Some Hx).
  destruct (starts_after_space (x :: mk) (after st)); reflexivity.
Qed.

Lemma starts_after_space_cons : forall mk c s,
  is_space c = true ->
  starts_after_space mk (c :: s) = starts_after_space mk s.
Proof.
  intros mk c s H. unfold starts_after_space. cbn [lstrip]. rewrite H.
  reflexivity.
Qed.

Lemma match_at_d : forall b a,
  match_at Baseline.d_re b a
  = if d_at a
    then Some (MatchObj (length b) (length (before (d_state b a)))
                 (caps (d_state b a)))
    else None.
Proof.
  intros b a. unfold match_at, Baseline.d_re, d_at, seqs.
  change (rmatch (Seq (lit (T "D.")) ?X) ?st ?k)
    with (rmatch (lit (T "D.")) st (fun st' => rmatch X st' k)).
  rewrite lit_match. cbn [after before caps].
  destruct (starts_with (T "D.") a); [|reflexivity]. cbn [andb].
  change (length (T "D.")) with 2.
  set (st1 := advance 2 b a []).
  set (look := starts_after_space (T "Answer:")).
  assert (L : forall st,
             rmatch (Seq (Grp 1 (lazy_star any_char))
                       (Ahead (Seq (star is_space) (lit (T "Answer:")))))
               st Some
             = match first_where look (after st) with
               | Some n => Some (set_cap 1 (firstn n (after st))
                                   (advance n (before st) (after st) (caps st)))
               | None => None
               end).
  { apply lazy_group. intros st k.
    change (T "Answer:") with ("A"%char :: T "nswer:").
    apply ahead_space_lit. reflexivity. }
  change (rmatch (Seq (star is_space) ?X) st1 Some)
    with (rep true 0 is_space (before st1) (after st1) (caps st1)
            (fun st' => rmatch X st' Some)).
  destruct (greedy_max is_space (caps st1)
              (fun st' => rmatch
                 (Seq (Grp 1 (lazy_star any_char))
                    (Ahead (Seq (star is_space) (lit (T "Answer:")))))
                 st' Some)) with (a := after st1) (b := before st1) as [E _].
  { intros b0 c s Hc N. rewrite L in *. cbn [after] in *.
    destruct (first_where look s) eqn:F; [discriminate|].
    cbn [first_where]. unfold look at 1.
    rewrite (starts_after_space_cons _ c s Hc). fold look.
    assert (Z : look s = false).
    { apply (first_where_none look s F 0). }
    rewrite Z, F. reflexivity. }
  rewrite E, L. unfold d_state. fold st1.
  set (st2 := advance (span_len is_space (after st1)) (before st1) (after st1)
                (caps st1)).
  change (after st1) with (skipn 2 a) in *.
  assert (A2 : after st2 = lstrip (skipn 2 a)).
  { unfold st2. rewrite after_advance. apply skipn_span_lstrip. }
  rewrite <- A2.
  change (advance (span_len is_space (skipn 2 a)) (before st1) (skipn 2 a) [])
    with st2.
  fold look. destruct (first_where look (after st2)); reflexivity.
Qed.

(** Occurrences of [mk] in a text and in the text without its leading
    whitespace. *)
Lemma find_sub_lstrip : forall x mk s,
  is_space x = false ->
  find_sub (x :: mk) s
  = option_map (Nat.add (span_len is_space s)) (find_sub (x :: mk) (lstrip s)).
Proof.
  intros x mk s Hx. unfold find_sub. induction s as [|c s IH].
  - cbn [lstrip span_len]. destruct (first_where _ []); reflexivity.
  - cbn [lstrip span_len]. destruct (is_space c) eqn:Hc.
    + cbn [first_where]. rewrite (starts_with_space_head mk c s x Hx Hc).
      rewrite IH. destruct (first_where (starts_with (x :: mk)) (lstrip s));
        reflexivity.
    + destruct (first_where (starts_with (x :: mk)) (c :: s)); reflexivity.
Qed.

Lemma first_where_all_false : forall (test : text -> bool) s,
  (forall n, test (skipn n s) = false) -> first_where test s = None.
Proof.
  intros test s H. destruct (first_where test s) as [n|] eqn:E;
    [|reflexivity].
  apply first_where_bound in E. destruct E as [_ E]. rewrite H in E.
  discriminate.
Qed.

Lemma find_sub_suffix_none : forall mk (s : text) n,
  find_sub mk s = None -> find_sub mk (skipn n s) = None.
Proof. intros. apply first_where_suffix_none. assumption. Qed.

Lemma find_answer_lstrip : forall s,
  find_sub (T "Answer:") s
  = option_map (Nat.add (span_len is_space s))
      (find_sub (T "Answer:") (lstrip s)).
Proof. intros s. exact (find_sub_lstrip "A"%char (T "nswer:") s eq_refl). Qed.

Lemma first_answer_after_space : forall s,
  match first_where (starts_after_space (T "Answer:")) s with
  | Some n => find_sub (T "Answer:") s
              = Some (n + span_len is_space (skipn n s))
  | None => find_sub (T "Answer:") s = None
  end.
Proof. intros s. exact (first_after_space "A"%char (T "nswer:") s eq_refl). Qed.

(** Where some [D.] has [Answer:] after it, the first [D.] has. *)
Lemma first_d_at : forall s,
  first_where d_at s
  = match find_sub (T "D.") s with
    | Some i => if is_some (find_sub (T "Answer:") (skipn (i + 2) s))
                then Some i else None
    | None => None
    end.
Proof.
  assert (D : forall x, d_at x
                = starts_with (T "D.") x
                  && is_some (find_sub (T "Answer:") (skipn 2 x))).
  { intros x. unfold d_at. f_equal.
    rewrite (find_answer_lstrip (skipn 2 x)).
    pose proof (first_answer_after_space (lstrip (skipn 2 x))) as F.
    destruct (first_where (starts_after_space (T "Answer:"))
                (lstrip (skipn 2 x))); rewrite F; reflexivity. }
  intros s. unfold find_sub at 1. induction s as [|c s IH].
  - cbn [first_where]. rewrite D. destruct (starts_with (T "D.") []); reflexivity.
  - cbn [first_where]. rewrite D.
    destruct (starts_with (T "D.") (c :: s)) eqn:Sd.
    + cbn [andb Nat.add].
      destruct (is_some (find_sub (T "Answer:") (skipn 2 (c :: s)))) eqn:A;
        [reflexivity|].
      assert (N : first_where d_at s = None).
      { apply first_where_all_false. intros n. rewrite D.
        replace (skipn 2 (skipn n s)) with (skipn (S n) (skipn 2 (c :: s))).
        - rewrite find_sub_suffix_none; [apply andb_false_r|].
          destruct (find_sub (T "Answer:") (skipn 2 (c :: s)));
            [discriminate | reflexivity].
        - change (skipn 2 (c :: s)) with (skipn 1 s).
          rewrite !skipn_skipn. f_equal. lia. }
      rewrite N. reflexivity.
    + cbn [andb]. rewrite IH.
      destruct (first_where (starts_with (T "D.")) s) as [i|]; [|reflexivity].
      cbn [option_map Nat.add skipn].
      destruct (is_some (find_sub (T "Answer:") (skipn (i + 2) s)));
        reflexivity.
Qed.

(** [d_match] of the baseline script: the stripped group is the stripped
    text between the first [D.] and the first [Answer:] after it. *)
Lemma d_re_search : forall s,
  group1_stripped (re_search Baseline.d_re s) = last_choice_text s.
Proof.
  intros s. unfold re_search, last_choice_text.
  rewrite (search_first Baseline.d_re d_at _ match_at_d), first_d_at.
  destruct (find_sub (T "D.") s) as [i|] eqn:Ei; [|reflexivity].
  set (y := skipn (i + 2) s).
  rewrite (find_answer_lstrip y).
  pose proof (first_answer_after_space (lstrip y)) as F.
  destruct (first_where (starts_after_space (T "Answer:")) (lstrip y))
    as [n|] eqn:En.
  - rewrite F. cbn [option_map is_some group1_stripped].
    unfold group, d_state. cbn [m_caps].
    rewrite !after_advance, skipn_span_lstrip, skipn_skipn.
    rewrite (Nat.add_comm 2 i). fold y. rewrite En.
    unfold set_cap. cbn [caps lookup_cap Nat.eqb].
    rewrite firstn_add, strip_spaces_app by apply span_spaces.
    rewrite skipn_span_lstrip. symmetry. apply strip_firstn_span.
  - rewrite F. reflexivity.
Qed.

Lemma choice_found : forall this next s,
  match re_search (choice_re this next) s with
  | Some m => choice_text this next s = Some (strip (group m 1))
  | None => choice_text this next s = None
  end.
Proof.
  intros this next s. pose proof (choice_re_search this next s) as H.
  unfold choice_text.
  destruct (re_search (choice_re this next) s) as [m|];
    destruct (find_sub (T this) s) as [i|]; cbn [option_map] in *;
    try discriminate; [|reflexivity].
  inversion H. reflexivity.
Qed.

Lemma choice_group1 : forall this next s,
  group1_stripped (re_search (choice_re this next) s)
  = or_empty (choice_text this next s).
Proof.
  intros this next s. pose proof (choice_found this next s) as H.
  destruct (re_search (choice_re this next) s); rewrite H; reflexivity.
Qed.

Lemma strip_lstrip : forall s, strip (lstrip s) = strip s.
Proof.
  intros s. unfold strip.
  rewrite (no_lead_lstrip _ (lstrip_no_lead s)). reflexivity.
Qed.

(** X1.  The baseline parser in terms of positions.  A block without
    [Answer:] followed by a letter from A to D, or without [A.], gives
    no record.  Otherwise the stem is the text before the first [A.];
    the text of choice A, B, C runs from the first occurrence of its
    marker to the next occurrence of the following marker, or to the
    end; the text of D runs from the first [D.] to the next [Answer:]
    and is empty without one; the explanation is the cleaned text after
    the answer letter.  Every piece is stripped. *)
Theorem baseline_parse_block_slices : forall b,
  Baseline.parse_block b = baseline_slice_block b.
Proof.
  intros b. unfold Baseline.parse_block, baseline_slice_block.
  pose proof (answer_re_search (b_content b)) as Ha.
  pose proof (q_re_search (b_content b)) as Hq.
  destruct (re_search answer_re (b_content b)) as [am|];
    cbn [option_map] in Ha; rewrite <- Ha; [|reflexivity].
  destruct (find_sub (T "A.") (b_content b)) as [i|].
  - destruct Hq as (qm & Eq & G1 & _). rewrite Eq, G1.
    change a_re with (choice_re "A." "B.").
    change b_re with (choice_re "B." "C.").
    change c_re with (choice_re "C." "D.").
    rewrite !choice_group1, d_re_search. reflexivity.
  - rewrite Hq. reflexivity.
Qed.

(** X2.  The fixed parser in terms of positions.  It works on the
    text after the first [A.] of the block, and gives a record only if
    that text holds [A.], [B.], [C.], [D.] and [Answer:] followed by a
    letter; every choice text runs from the first occurrence of its
    marker in that text to the next occurrence of the following marker,
    or to the end. *)
Theorem fixed_parse_block_slices : forall b,
  Fixed.parse_block b = fixed_slice_block b.
Proof.
  intros b. unfold Fixed.parse_block, fixed_slice_block.
  pose proof (q_re_search (b_content b)) as Hq.
  destruct (find_sub (T "A.") (b_content b)) as [i|]; [|rewrite Hq; reflexivity].
  destruct Hq as (qm & Eq & G1 & G2). rewrite Eq, G1, G2.
  set (rest := lstrip (skipn (i + 2) (b_content b))).
  change a_re with (choice_re "A." "B.").
  change b_re with (choice_re "B." "C.").
  change c_re with (choice_re "C." "D.").
  change Fixed.d_re with (choice_re "D." "Answer:").
  pose proof (choice_found "A." "B." rest) as Fa.
  pose proof (choice_found "B." "C." rest) as Fb.
  pose proof (choice_found "C." "D." rest) as Fc.
  pose proof (choice_found "D." "Answer:" rest) as Fd.
  pose proof (answer_re_search rest) as Ha.
  pose proof (explanation_re_search rest) as He.
  destruct (re_search (choice_re "A." "B.") rest); rewrite Fa; [|reflexivity].
  destruct (re_search (choice_re "B." "C.") rest); rewrite Fb; [|reflexivity].
  destruct (re_search (choice_re "C." "D.") rest); rewrite Fc; [|reflexivity].
  destruct (re_search (choice_re "D." "Answer:") rest); rewrite Fd;
    [|reflexivity].
  destruct (re_search answer_re rest) as [am|]; cbn [option_map] in Ha;
    rewrite <- Ha in *; [|reflexivity].
  cbn [option_map snd] in He.
  destruct (re_search Fixed.explanation_re rest) as [em|];
    cbn [option_map] in He; [|discriminate].
  inversion He as [Ge]. rewrite Ge, strip_lstrip. reflexivity.
Qed.

End Slices.

(** * Records *)

Section Records.

Lemma collapse_tidy : forall s,
  tidy false (Baseline.collapse s) = true
  /\ trimmed (Baseline.collapse s).
Proof.
  intros s. unfold Baseline.collapse, trimmed. split.
  - apply tidy_strip with (b := false). rewrite re_sub_plus.
    apply squeeze_tidy.
  - apply strip_idempotent.
Qed.

Lemma group1_trimmed : forall m, trimmed (group1_stripped m).
Proof.
  intros [m|]; unfold trimmed; cbn [group1_stripped];
    [apply strip_idempotent | reflexivity].
Qed.

Lemma baseline_block_trimmed : forall b q,
  Baseline.parse_block b = Some q ->
  q_domain q = b_domain b
  /\ trimmed (q_question q)
  /\ Forall (fun c => trimmed (c_text c)) (q_choices q)
  /\ trimmed (q_explanation q)
  /\ tidy false (q_explanation q) = true.
Proof.
  intros b q H. unfold Baseline.parse_block in H.
  destruct (re_search answer_re (b_content b)) as [am|]; [|discriminate].
  destruct (re_search q_re (b_content b)) as [qm|]; [|discriminate].
  inversion H; subst q; clear H. cbn [q_domain q_question q_choices q_explanation].
  split; [reflexivity|]. split; [apply strip_idempotent|].
  split.
  - unfold mk_choices. repeat constructor; cbn [c_text]; apply group1_trimmed.
  - destruct (strip (skipn (m_end am) (b_content b))) as [|c e];
      [split; reflexivity|].
    unfold Baseline.clean_explanation.
    destruct (collapse_tidy (Baseline.strip_boilerplate (c :: e))); auto.
Qed.

Lemma fixed_block_trimmed : forall b q,
  Fixed.parse_block b = Some q ->
  q_domain q = b_domain b
  /\ trimmed (q_question q)
  /\ Forall (fun c => trimmed (c_text c)) (q_choices q)
  /\ trimmed (q_explanation q)
  /\ tidy false (q_explanation q) = true.
Proof.
  intros b q H. unfold Fixed.parse_block in H.
  destruct (re_search q_re (b_content b)) as [qm|]; [|discriminate].
  destruct (re_search a_re (group qm 2)); [|discriminate].
  destruct (re_search b_re (group qm 2)); [|discriminate].
  destruct (re_search c_re (group qm 2)); [|discriminate].
  destruct (re_search Fixed.d_re (group qm 2)); [|discriminate].
  destruct (re_search answer_re (group qm 2)); [|discriminate].
  inversion H; subst q; clear H. cbn [q_domain q_question q_choices q_explanation].
  split; [reflexivity|]. split; [apply strip_idempotent|].
  split.
  - unfold mk_choices. repeat constructor; cbn [c_text]; apply strip_idempotent.
  - destruct (re_search Fixed.explanation_re (group qm 2)) as [em|];
      [|split; reflexivity].
    unfold Fixed.clean_explanation.
    destruct (collapse_tidy (Fixed.strip_boilerplate (strip (group em 1)))); auto.
Qed.

Lemma blocks_domain_trimmed : forall text_ b,
  In b (blocks text_) -> trimmed (b_domain b).
Proof.
  intros text_ b H. unfold blocks in H.
  destruct (blocks_of_In _ _ _ H) as (m & _ & _ & E).
  unfold trimmed. rewrite E. apply strip_idempotent.
Qed.

(** X4.  Whatever it is given, the cleaner of either script returns
    text whose only whitespace is single spaces, with none at either
    end. *)
Theorem clean_explanation_tidy : forall s,
  (tidy false (Baseline.clean_explanation s) = true
   /\ trimmed (Baseline.clean_explanation s))
  /\ (tidy false (Fixed.clean_explanation s) = true
      /\ trimmed (Fixed.clean_explanation s)).
Proof.
  intros s. split.
  - unfold Baseline.clean_explanation. apply collapse_tidy.
  - unfold Fixed.clean_explanation.
    apply (collapse_tidy (Fixed.strip_boilerplate s)).
Qed.

(** X5.  In every record of either parser the domain, the stem, the
    choice texts and the explanation have no whitespace at either end,
    and the only whitespace of the explanation is single spaces. *)
Theorem records_trimmed : forall text_ q,
  In q (Baseline.parse_questions text_) \/ In q (Fixed.parse_questions text_) ->
  trimmed (q_domain q)
  /\ trimmed (q_question q)
  /\ Forall (fun c => trimmed (c_text c)) (q_choices q)
  /\ trimmed (q_explanation q)
  /\ tidy false (q_explanation q) = true.
Proof.
  intros text_ q [H|H].
  - unfold Baseline.parse_questions in H.
    destruct (parse_loop_In _ _ _ H) as (b & Hb & E).
    destruct (baseline_block_trimmed _ _ E) as (Ed & R).
    split; [|exact R]. rewrite Ed. apply (blocks_domain_trimmed text_ b Hb).
  - unfold Fixed.parse_questions in H.
    destruct (parse_loop_In _ _ _ H) as (b & Hb & E).
    destruct (fixed_block_trimmed _ _ E) as (Ed & R).
    split; [|exact R]. rewrite Ed. apply (blocks_domain_trimmed text_ b Hb).
Qed.

Lemma records_trimmed_witness :
  In one_block_record (Baseline.parse_questions one_block)
  /\ trimmed (q_explanation one_block_record).
Proof.
  assert (H : In one_block_record (Baseline.parse_questions one_block)).
  { vm_compute. left. reflexivity. }
  split; [exact H|].
  apply (records_trimmed one_block one_block_record (or_introl H)).
Defined.

Lemma fixed_block_letter : forall b q,
  Fixed.parse_block b = Some q ->
  exists c, in_range 65 68 c = true
            /\ map c_id (filter c_correct (q_choices q)) = [[c]].
Proof.
  intros b q H. unfold Fixed.parse_block in H.
  destruct (re_search q_re (b_content b)) as [qm|]; [|discriminate].
  destruct (re_search a_re (group qm 2)); [|discriminate].
  destruct (re_search b_re (group qm 2)); [|discriminate].
  destruct (re_search c_re (group qm 2)); [|discriminate].
  destruct (re_search Fixed.d_re (group qm 2)); [|discriminate].
  destruct (re_search answer_re (group qm 2)) as [am|] eqn:Ea; [|discriminate].
  inversion H; subst q; clear H. cbn [q_choices].
  destruct (answer_letter _ _ Ea) as (c & Hc & Hr).
  exists c. split; [exact Hr|]. rewrite Hc. apply mk_choices_correct. exact Hr.
Qed.

Lemma baseline_block_letter : forall b q,
  Baseline.parse_block b = Some q ->
  exists c, in_range 65 68 c = true
            /\ map c_id (filter c_correct (q_choices q)) = [[c]].
Proof.
  intros b q H. unfold Baseline.parse_block in H.
  destruct (re_search answer_re (b_content b)) as [am|] eqn:Ea; [|discriminate].
  destruct (re_search q_re (b_content b)) as [qm|]; [|discriminate].
  inversion H; subst q; clear H. cbn [q_choices].
  destruct (answer_letter _ _ Ea) as (c & Hc & Hr).
  exists c. split; [exact Hr|]. rewrite Hc. apply mk_choices_correct. exact Hr.
Qed.

(** X6.  In every record of either parser exactly one choice is
    marked correct, and it is one of A, B, C, D. *)
Theorem one_correct_choice : forall text_ q,
  In q (Baseline.parse_questions text_) \/ In q (Fixed.parse_questions text_) ->
  exists letter,
    In letter [T "A"; T "B"; T "C"; T "D"]
    /\ map c_id (filter c_correct (q_choices q)) = [letter].
Proof.
  intros text_ q H.
  assert (L : exists c, in_range 65 68 c = true
                /\ map c_id (filter c_correct (q_choices q)) = [[c]]).
  { destruct H as [H|H].
    - destruct (parse_loop_In _ _ _ H) as (b & _ & E).
      exact (baseline_block_letter _ _ E).
    - destruct (parse_loop_In _ _ _ H) as (b & _ & E).
      exact (fixed_block_letter _ _ E). }
  destruct L as (c & Hr & E). exists [c]. split; [|exact E].
  destruct (in_AD c Hr) as [X|[X|[X|X]]]; subst c; cbn; auto.
Qed.

Lemma one_correct_choice_witness :
  In one_block_record (Baseline.parse_questions one_block)
  /\ exists letter,
       In letter [T "A"; T "B"; T "C"; T "D"]
       /\ map c_id (filter c_correct (q_choices one_block_record)) = [letter].
Proof.
  assert (H : In one_block_record (Baseline.parse_questions one_block)).
  { vm_compute. left. reflexivity. }
  split; [exact H|].
  apply (one_correct_choice one_block one_block_record (or_introl H)).
Defined.

Lemma embeds_refl : forall (s : text), embeds eq s s.
Proof.
  induction s as [|c s IH]; [constructor|].
  apply embeds_take; [reflexivity | exact IH].
Qed.

Lemma embeds_trans : forall (s t u : text),
  embeds eq s t -> embeds eq t u -> embeds eq s u.
Proof.
  intros s t u H1 H2. revert s H1.
  induction H2 as [|y t u H IH|x y t u E H IH]; intros s H1.
  - exact H1.
  - apply embeds_skip. apply IH. exact H1.
  - inversion H1 as [|y' s' t' H'|x' y' s' t' E' H']; subst.
    + apply embeds_skip. apply IH. exact H'.
    + apply embeds_take; [reflexivity|]. apply IH. exact H'.
Qed.

Lemma sub_loop_deletes : forall r a skip b,
  embeds eq (sub_loop r [] skip b a) a.
Proof.
  intros r. induction a as [|c a IH]; intros skip b.
  - destruct skip; cbn [sub_loop]; [|constructor].
    destruct (match_at r b []); constructor.
  - destruct skip as [|n]; cbn [sub_loop].
    + destruct (match_at r b (c :: a)) as [m|].
      * cbn [app]. destruct (m_end m - m_start m =? 0); cbn [app].
        -- apply embeds_take; [reflexivity | apply IH].
        -- apply embeds_skip, IH.
      * apply embeds_take; [reflexivity | apply IH].
    + apply embeds_skip, IH.
Qed.

Lemma re_sub_deletes : forall r s, embeds eq (re_sub r [] s) s.
Proof. intros r s. apply sub_loop_deletes. Qed.

Lemma fold_deletes : forall rs s,
  embeds eq (fold_left (fun acc r => re_sub r [] acc) rs s) s.
Proof.
  induction rs as [|r rs IH]; intros s; cbn [fold_left].
  - apply embeds_refl.
  - eapply embeds_trans; [apply IH | apply re_sub_deletes].
Qed.

Lemma sub_loop_no_match : forall r repl a b,
  search_from r b a = None -> sub_loop r repl 0 b a = a.
Proof.
  intros r repl. induction a as [|c a IH]; intros b H; cbn [sub_loop].
  - cbn [search_from] in H. destruct (match_at r b []); [discriminate|].
    reflexivity.
  - cbn [search_from] in H. destruct (match_at r b (c :: a)); [discriminate|].
    f_equal. apply IH. exact H.
Qed.

(** X3.  The fixed parser emits nothing for a block in which [A.]
    occurs once only. *)
Theorem fixed_drops_single_A : forall b i,
  find_sub (T "A.") (b_content b) = Some i ->
  find_sub (T "A.") (skipn (i + 2) (b_content b)) = None ->
  Fixed.parse_block b = None.
Proof.
  intros b i Hi Hn. unfold Fixed.parse_block.
  pose proof (q_re_search (b_content b)) as Hq. rewrite Hi in Hq.
  destruct Hq as (qm & Eq & _ & G2). rewrite Eq, G2.
  pose proof (choice_found "A." "B." (lstrip (skipn (i + 2) (b_content b))))
    as Hc.
  assert (N : find_sub (T "A.") (lstrip (skipn (i + 2) (b_content b))) = None).
  { pose proof (find_sub_lstrip "A" (T ".") (skipn (i + 2) (b_content b))
                  eq_refl) as E.
    change ("A"%char :: T ".") with (T "A.") in E. rewrite Hn in E.
    destruct (find_sub (T "A.") (lstrip (skipn (i + 2) (b_content b))));
      [discriminate | reflexivity]. }
  change a_re with (choice_re "A." "B.").
  destruct (re_search (choice_re "A." "B.")
              (lstrip (skipn (i + 2) (b_content b)))) as [am|]; [|reflexivity].
  unfold choice_text in Hc. rewrite N in Hc. discriminate.
Qed.

Lemma fixed_drops_single_A_witness :
  find_sub (T "A.") (b_content single_A_block) = Some 3
  /\ find_sub (T "A.") (skipn (3 + 2) (b_content single_A_block)) = None
  /\ Fixed.parse_block single_A_block = None.
Proof.
  split; [reflexivity|]. split; [reflexivity|].
  apply (fixed_drops_single_A single_A_block 3); reflexivity.
Defined.

End Records.

(** * Headers and blocks *)

Lemma Step_before : forall r st st',
  Step r st st' ->
  exists u, after st = u ++ after st' /\ before st' = rev u ++ before st.
Proof.
  induction 1.
  - exists []. auto.
  - exists [c]. auto.
  - destruct IHStep1 as (u1 & A1 & B1). destruct IHStep2 as (u2 & A2 & B2).
    exists (u1 ++ u2). rewrite A1, A2, B2, B1, rev_app_distr, <- !app_assoc.
    auto.
  - assumption.
  - assumption.
  - exists (firstn n a). cbn [after before]. rewrite firstn_skipn. auto.
  - destruct IHStep as (u & A & B). exists u. auto.
  - exists []. auto.
  - exists []. auto.
  - exists []. auto.
  - exists []. auto.
  - exists []. auto.
Qed.

Lemma consumed_extend : forall w st st',
  (exists u, after st = u ++ after st') ->
  consumed (extend w st) (extend w st') = consumed st st'.
Proof.
  intros w st st' [u E]. unfold consumed, extend. cbn [after].
  rewrite E.
  assert (N1 : length ((u ++ after st') ++ w) - length (after st' ++ w)
               = length u) by (rewrite !length_app; lia).
  assert (N2 : length (u ++ after st') - length (after st') = length u)
    by (rewrite length_app; lia).
  rewrite N1, N2, <- app_assoc.
  rewrite !firstn_app, Nat.sub_diag, firstn_all. reflexivity.
Qed.

Lemma Step_extend : forall r st st' w,
  no_lookaround r = true -> Step r st st' ->
  Step r (extend w st) (extend w st').
Proof.
  intros r st st' w Hr H. induction H; cbn [no_lookaround] in Hr;
    try discriminate.
  - constructor.
  - unfold extend. cbn [before after caps app]. constructor. assumption.
  - apply andb_true_iff in Hr. destruct Hr.
    econstructor; [apply IHStep1 | apply IHStep2]; assumption.
  - apply andb_true_iff in Hr. destruct Hr. apply St_alt_l. auto.
  - apply andb_true_iff in Hr. destruct Hr. apply St_alt_r. auto.
  - unfold extend. cbn [before after caps].
    replace (rev (firstn n a) ++ b) with (rev (firstn n (a ++ w)) ++ b).
    2:{ rewrite firstn_app. replace (n - length a) with 0 by lia.
        cbn [firstn]. rewrite app_nil_r. reflexivity. }
    replace (skipn n a ++ w) with (skipn n (a ++ w)).
    2:{ rewrite skipn_app. replace (n - length a) with 0 by lia.
        reflexivity. }
    constructor; [assumption | rewrite length_app; lia|].
    rewrite firstn_app. replace (n - length a) with 0 by lia.
    cbn [firstn]. rewrite app_nil_r. assumption.
  - specialize (IHStep Hr).
    replace (extend w (set_cap n (consumed st st') st'))
      with (set_cap n (consumed (extend w st) (extend w st')) (extend w st')).
    + constructor. exact IHStep.
    + rewrite consumed_extend; [reflexivity|].
      destruct (Step_suffix _ _ _ H) as [u E]. exists u. exact E.
Qed.

Lemma match_at_Step : forall r b a m,
  match_at r b a = Some m ->
  exists st', Step r (MState b a []) st'
              /\ m = MatchObj (length b) (length (before st')) (caps st').
Proof.
  intros r b a m H. unfold match_at in H.
  destruct (rmatch r (MState b a []) Some) as [res|] eqn:E; [|discriminate].
  apply rmatch_sound in E. destruct E as (st' & Hs & Ek).
  inversion Ek; subst st'. inversion H. eauto.
Qed.

Lemma Step_match_at : forall r b a st',
  Step r (MState b a []) st' -> match_at r b a <> None.
Proof.
  intros r b a st' H. unfold match_at.
  pose proof (rmatch_complete _ _ _ H Some) as C.
  destruct (rmatch r (MState b a []) Some); [discriminate|].
  exfalso. apply C; [discriminate | reflexivity].
Qed.

Lemma match_at_extend : forall r b a w,
  no_lookaround r = true ->
  match_at r b a <> None -> match_at r b (a ++ w) <> None.
Proof.
  intros r b a w Hr H. destruct (match_at r b a) as [m|] eqn:E;
    [|contradiction].
  destruct (match_at_Step _ _ _ _ E) as (st' & Hs & _).
  apply (Step_extend _ _ _ w Hr) in Hs.
  eapply Step_match_at. exact Hs.
Qed.

Lemma match_at_span : forall r b a m,
  match_at r b a = Some m ->
  m_start m = length b
  /\ exists u v, a = u ++ v /\ m_end m = length b + length u.
Proof.
  intros r b a m H. destruct (match_at_Step _ _ _ _ H) as (st' & Hs & E).
  subst m. cbn [m_start m_end]. split; [reflexivity|].
  destruct (Step_before _ _ _ Hs) as (u & A & B). cbn [after before] in A, B.
  exists u, (after st'). split; [exact A|].
  rewrite B, length_app, length_rev. lia.
Qed.

Section Finditer.

Variable r : regex.
Hypothesis r_ctx_free : ctx_free r = true.
Hypothesis r_nonempty : forall b a m,
  match_at r b a = Some m -> m_start m < m_end m.

Lemma no_match_at_end : forall b, match_at r b [] = None.
Proof.
  intros b. destruct (match_at r b []) as [m|] eqn:E; [|reflexivity].
  exfalso. pose proof (r_nonempty _ _ _ E) as N.
  destruct (match_at_span _ _ _ _ E) as (S1 & u & v & A & S2).
  destruct u; [|discriminate]. cbn [length] in S2. lia.
Qed.

Lemma leftmost_extend : forall s n ms,
  leftmost_matches r s (S n) ms ->
  match_at r [] (skipn n s) = None ->
  leftmost_matches r s n ms.
Proof.
  intros s n [|m ms] H Hn; cbn [leftmost_matches] in *.
  - intros p Hp. destruct (Nat.eq_dec p n) as [->|Hne]; [exact Hn|].
    apply H. lia.
  - destruct H as (H1 & H2 & H3 & H4). repeat split; try assumption; [lia|].
    intros p Hp Hlt. destruct (Nat.eq_dec p n) as [->|Hne]; [exact Hn|].
    apply H3; lia.
Qed.

Lemma skipn_subject : forall (b a : text),
  skipn (length b) (rev b ++ a) = a.
Proof.
  intros b a. rewrite skipn_app, length_rev, Nat.sub_diag.
  rewrite skipn_all2 by (rewrite length_rev; lia). reflexivity.
Qed.

Lemma finditer_leftmost : forall a b skip,
  leftmost_matches r (rev b ++ a) (length b + skip)
    (finditer_loop r skip b a).
Proof.
  induction a as [|c a IH]; intros b skip.
  - assert (E : finditer_loop r skip b [] = []).
    { destruct skip; cbn [finditer_loop]; [|reflexivity].
      rewrite no_match_at_end. reflexivity. }
    rewrite E. cbn [leftmost_matches]. intros p Hp.
    rewrite skipn_all2 by (rewrite length_app, length_rev; cbn [length]; lia).
    apply no_match_at_end.
  - assert (Es : rev (c :: b) ++ a = rev b ++ c :: a).
    { cbn [rev]. rewrite <- app_assoc. reflexivity. }
    destruct skip as [|n]; cbn [finditer_loop].
    + destruct (match_at r b (c :: a)) as [m|] eqn:E.
      * pose proof (r_nonempty _ _ _ E) as N.
        destruct (match_at_span _ _ _ _ E) as (S1 & _).
        cbn [leftmost_matches]. split; [lia|]. split; [exact N|].
        split; [intros p Hp Hlt; lia|].
        specialize (IH (c :: b) (m_end m - m_start m - 1)).
        rewrite Es in IH. cbn [length] in IH.
        replace (S (length b) + (m_end m - m_start m - 1)) with (m_end m)
          in IH by lia.
        exact IH.
      * specialize (IH (c :: b) 0). rewrite Es in IH. cbn [length] in IH.
        rewrite Nat.add_0_r in *. apply leftmost_extend; [exact IH|].
        rewrite skipn_subject.
        apply match_at_ctx with (b1 := b); assumption.
    + specialize (IH (c :: b) n). rewrite Es in IH. cbn [length] in IH.
      replace (length b + S n) with (S (length b) + n) by lia. exact IH.
Qed.

Hypothesis r_extends : no_lookaround r = true.

Lemma gap_holds_no_match : forall s e end_,
  (forall p, e <= p -> p < end_ -> match_at r [] (skipn p s) = None) ->
  re_search r (strip (slice s e end_)) = None.
Proof.
  intros s e end_ H.
  destruct (re_search r (strip (slice s e end_))) as [x|] eqn:E;
    [|reflexivity].
  exfalso. unfold re_search in E. apply search_from_found in E.
  destruct E as (u & a' & Ec & Em).
  unfold strip in Ec.
  destruct (rstrip_prefix (lstrip (slice s e end_))) as [w2 E2].
  destruct (lstrip_suffix (slice s e end_)) as [w1 E1].
  rewrite E2, Ec in E1. unfold slice in E1.
  pose proof (firstn_skipn (end_ - e) (skipn e s)) as Et.
  rewrite E1 in Et.
  pose proof (r_nonempty _ _ _ Em) as N.
  destruct (match_at_span _ _ _ _ Em) as (S1 & u' & v' & A & S2).
  assert (Ha : a' <> []).
  { intros ->. destruct u'; [|discriminate]. cbn [length] in S2. lia. }
  assert (Hlen : length (w1 ++ (u ++ a') ++ w2) <= end_ - e).
  { rewrite <- E1. apply firstn_le_length. }
  rewrite !length_app in Hlen.
  set (tail := skipn (end_ - e) (skipn e s)) in *.
  assert (Hp : skipn (e + (length w1 + length u)) s = a' ++ (w2 ++ tail)).
  { rewrite (Nat.add_comm e), <- skipn_skipn, <- Et, <- !app_assoc.
    rewrite (app_assoc w1 u), <- length_app, skipn_app, skipn_all.
    rewrite Nat.sub_diag. reflexivity. }
  assert (Hm : match_at r [] (skipn (e + (length w1 + length u)) s) <> None).
  { rewrite Hp. apply match_at_extend; [exact r_extends|].
    intros C. apply match_at_ctx with (b2 := rev u ++ []) in C;
      [congruence | exact r_ctx_free]. }
  apply Hm. apply H; [lia|].
  destruct a'; [contradiction|]. cbn [length] in Hlen. lia.
Qed.

Lemma blocks_of_gaps : forall s ms from,
  leftmost_matches r s from ms ->
  Forall (fun b => re_search r (b_content b) = None) (blocks_of s ms).
Proof.
  intros s ms. induction ms as [|m ms IH]; intros from H; [constructor|].
  cbn [blocks_of]. cbn [leftmost_matches] in H.
  destruct H as (_ & _ & _ & H). constructor; [|eapply IH; exact H].
  cbn [b_content]. apply gap_holds_no_match.
  destruct ms as [|m' ms'].
  - cbn [leftmost_matches] in H. intros p Hp _. apply H. exact Hp.
  - cbn [leftmost_matches] in H. destruct H as (_ & _ & H & _). exact H.
Qed.

End Finditer.

Lemma header_nonempty : forall b a m,
  match_at header_re b a = Some m -> m_start m < m_end m.
Proof.
  intros b a m H. destruct (match_at_Step _ _ _ _ H) as (st' & Hs & E).
  subst m. cbn [m_start m_end].
  unfold header_re, seqs in Hs.
  inversion Hs as [| |r1 r2 st1 st2 st3 H1 H2| | | | | | | | |]; subst.
  change (T "Question") with ("Q"%char :: T "uestion") in H1. cbn [lit] in H1.
  inversion H1 as [| |r1' r2' st1' st2' st3' H3 H4| | | | | | | | |]; subst.
  inversion H3; subst.
  destruct (Step_before _ _ _ H4) as (u1 & _ & B1).
  destruct (Step_before _ _ _ H2) as (u2 & _ & B2).
  rewrite B2, B1. cbn [before]. rewrite !length_app. cbn [length]. lia.
Qed.

(** X8.  No block holds a question header: the text is cut at every
    header that [finditer] can find. *)
Theorem blocks_hold_no_header : forall text_,
  Forall (fun b => re_search header_re (b_content b) = None) (blocks text_).
Proof.
  intros text_. unfold blocks.
  apply blocks_of_gaps with (from := 0);
    [reflexivity | exact header_nonempty | reflexivity|].
  exact (finditer_leftmost header_re eq_refl header_nonempty
           (re_sub page_marker_re [nl] text_) [] 0).
Qed.

(** * Slugs, numerals and names *)

Section Names.

Lemma slug_map_char : forall c,
  slug_char (if is_alnum c then char_lower c else "-"%char) = true.
Proof.
  intros c. destruct c as [[] [] [] [] [] [] [] []]; vm_compute; reflexivity.
Qed.

Lemma slug_char_fixed : forall c,
  slug_char c = true -> (if is_alnum c then char_lower c else "-"%char) = c.
Proof.
  intros c. destruct c as [[] [] [] [] [] [] [] []]; vm_compute;
    intros H; try reflexivity; discriminate.
Qed.

Lemma strip_dash_l_suffix : forall t, exists u, t = u ++ strip_dash_l t.
Proof.
  induction t as [|c t [u IH]]; [exists []; reflexivity|].
  cbn [strip_dash_l]. destruct (Ascii.eqb c "-").
  - exists (c :: u). cbn [app]. rewrite <- IH. reflexivity.
  - exists []. reflexivity.
Qed.

Lemma strip_dash_l_begins : forall t, begins "-" (strip_dash_l t) = false.
Proof.
  induction t as [|c t IH]; [reflexivity|].
  cbn [strip_dash_l]. destruct (Ascii.eqb c "-") eqn:E; [exact IH|].
  cbn [begins]. rewrite Ascii.eqb_sym. exact E.
Qed.

Lemma strip_dash_l_id : forall t, begins "-" t = false -> strip_dash_l t = t.
Proof.
  intros [|c t] H; [reflexivity|]. cbn [begins] in H. cbn [strip_dash_l].
  rewrite Ascii.eqb_sym, H. reflexivity.
Qed.

Lemma strip_dash_l_last : forall u c,
  Ascii.eqb c "-" = false -> exists w, strip_dash_l (u ++ [c]) = w ++ [c].
Proof.
  induction u as [|d u IH]; intros c H.
  - exists []. cbn [app strip_dash_l]. rewrite H. reflexivity.
  - cbn [app strip_dash_l]. destruct (Ascii.eqb d "-").
    + apply IH. exact H.
    + exists (d :: u). reflexivity.
Qed.

Lemma forallb_rev : forall (A : Type) (p : A -> bool) l,
  forallb p (rev l) = forallb p l.
Proof.
  intros A p l. induction l as [|x l IH]; [reflexivity|].
  cbn [rev forallb]. rewrite forallb_app, IH. cbn [forallb].
  rewrite andb_true_r. apply andb_comm.
Qed.

Lemma forallb_strip_dash : forall p t,
  forallb p t = true -> forallb p (strip_dash_l t) = true.
Proof.
  intros p t H. destruct (strip_dash_l_suffix t) as [u E].
  rewrite E, forallb_app in H. apply andb_true_iff in H. tauto.
Qed.

Lemma slugify_chars : forall s, forallb slug_char (_slugify s) = true.
Proof.
  intros s. unfold _slugify. rewrite forallb_rev.
  apply forallb_strip_dash. rewrite forallb_rev. apply forallb_strip_dash.
  induction s as [|c s IH]; [reflexivity|]. cbn [map forallb].
  rewrite IH, andb_true_r. apply slug_map_char.
Qed.

Lemma slugify_begins : forall s, begins "-" (_slugify s) = false.
Proof.
  intros s. unfold _slugify.
  pose proof (strip_dash_l_begins
                (map (fun ch => if is_alnum ch then char_lower ch else "-"%char) s))
    as H.
  destruct (strip_dash_l
              (map (fun ch => if is_alnum ch then char_lower ch else "-"%char) s))
    as [|c x]; [reflexivity|].
  cbn [begins] in H. cbn [rev].
  destruct (strip_dash_l_last (rev x) c) as [w E].
  { rewrite Ascii.eqb_sym. exact H. }
  rewrite E, rev_app_distr. cbn [rev app begins]. exact H.
Qed.

Lemma slugify_ends : forall s, begins "-" (rev (_slugify s)) = false.
Proof.
  intros s. unfold _slugify. rewrite rev_involutive.
  apply strip_dash_l_begins.
Qed.

(** ** Decimal numerals *)

Lemma digits_of_uint : forall d,
  forallb is_digit (T (NilEmpty.string_of_uint d)) = true.
Proof. induction d; cbn; auto. Qed.

Lemma str_of_int_digits : forall n, forallb is_digit (str_of_int n) = true.
Proof. intros n. apply digits_of_uint. Qed.

Lemma T_inj : forall s t, T s = T t -> s = t.
Proof.
  intros s t H. unfold T in H.
  rewrite <- (string_of_list_ascii_of_string s),
          <- (string_of_list_ascii_of_string t), H.
  reflexivity.
Qed.

Lemma string_of_uint_inj : forall d d',
  NilEmpty.string_of_uint d = NilEmpty.string_of_uint d' -> d = d'.
Proof.
  intros d d' H. pose proof (NilEmpty.usu d) as E. rewrite H in E.
  rewrite NilEmpty.usu in E. congruence.
Qed.

Lemma str_of_int_inj : forall n m, str_of_int n = str_of_int m -> n = m.
Proof.
  intros n m H. unfold str_of_int in H.
  apply T_inj, string_of_uint_inj in H.
  apply DecimalN.Unsigned.to_uint_inj. exact H.
Qed.

Lemma str_of_int_zero_head : forall n m,
  str_of_int m = T "0" ++ str_of_int n -> m = n.
Proof.
  intros n m H. unfold str_of_int in H.
  change (T "0" ++ T (NilEmpty.string_of_uint (N.to_uint n)))
    with (T (NilEmpty.string_of_uint (Decimal.D0 (N.to_uint n)))) in H.
  apply T_inj, string_of_uint_inj in H.
  rewrite <- (DecimalN.Unsigned.of_to m), H.
  change (N.of_uint (Decimal.D0 (N.to_uint n))) with (N.of_uint (N.to_uint n)).
  apply DecimalN.Unsigned.of_to.
Qed.

Lemma pad2_digits : forall i, forallb is_digit (pad2 i) = true.
Proof.
  intros i. unfold pad2. destruct (i <? 10).
  - cbn [T list_ascii_of_string app forallb].
    rewrite str_of_int_digits. reflexivity.
  - apply str_of_int_digits.
Qed.

Lemma pad2_inj : forall i j, pad2 i = pad2 j -> i = j.
Proof.
  intros i j H. unfold pad2 in H.
  destruct (i <? 10) eqn:Ei; destruct (j <? 10) eqn:Ej.
  - apply app_inv_head, str_of_int_inj, Nat2N.inj in H. exact H.
  - symmetry in H. apply str_of_int_zero_head, Nat2N.inj in H.
    apply Nat.ltb_lt in Ei. apply Nat.ltb_ge in Ej. lia.
  - apply str_of_int_zero_head, Nat2N.inj in H.
    apply Nat.ltb_lt in Ej. apply Nat.ltb_ge in Ei. lia.
  - apply str_of_int_inj, Nat2N.inj in H. exact H.
Qed.

Lemma digits_prefix : forall c ds1 ds2 r1 r2,
  is_digit c = false ->
  forallb is_digit ds1 = true -> forallb is_digit ds2 = true ->
  ds1 ++ c :: r1 = ds2 ++ c :: r2 -> ds1 = ds2.
Proof.
  intros c. induction ds1 as [|d ds1 IH]; intros [|e ds2] r1 r2 Hc H1 H2 E;
    cbn [app forallb] in *.
  - reflexivity.
  - inversion E; subst. apply andb_true_iff in H2. destruct H2. congruence.
  - inversion E; subst. apply andb_true_iff in H1. destruct H1. congruence.
  - inversion E; subst. f_equal.
    apply andb_true_iff in H1. apply andb_true_iff in H2.
    eapply IH; [exact Hc | tauto | tauto | eassumption].
Qed.

Lemma file_name_inj : forall i j s1 s2,
  file_name_of i s1 = file_name_of j s2 -> i = j.
Proof.
  intros i j s1 s2 H. unfold file_name_of in H.
  apply app_inv_head in H. apply pad2_inj.
  change (T "-" ++ s1 ++ T ".xhtml") with ("-"%char :: s1 ++ T ".xhtml") in H.
  change (T "-" ++ s2 ++ T ".xhtml") with ("-"%char :: s2 ++ T ".xhtml") in H.
  eapply digits_prefix; [| apply pad2_digits | apply pad2_digits | exact H].
  reflexivity.
Qed.

Lemma pad2_head : forall i, exists c r, pad2 i = c :: r /\ is_digit c = true.
Proof.
  intros i. pose proof (pad2_digits i) as H.
  destruct (pad2 i) as [|c r] eqn:E.
  - exfalso. unfold pad2 in E. destruct (i <? 10); [discriminate|].
    unfold str_of_int in E.
    change [] with (T (NilEmpty.string_of_uint Decimal.Nil)) in E.
    apply T_inj, string_of_uint_inj in E.
    destruct (N.of_nat i) as [|p]; [discriminate|].
    exact (DecimalPos.Unsigned.to_uint_nonnil p E).
  - exists c, r. cbn [forallb] in H. apply andb_true_iff in H.
    split; [reflexivity | tauto].
Qed.

Lemma block_id : forall b q,
  Baseline.parse_block b = Some q \/ Fixed.parse_block b = Some q ->
  q_id q = T "Q" ++ str_of_int (b_num b).
Proof.
  intros b q [H|H].
  - exact (proj1 (proj2 (baseline_block_shape _ _ H))).
  - exact (proj1 (proj2 (fixed_block_shape _ _ H))).
Qed.

(** X20.  Two records, of either parser, have the same id exactly
    when the headers of their blocks carry the same number. *)
Theorem record_ids_follow_numbers : forall b b' q q',
  Baseline.parse_block b = Some q \/ Fixed.parse_block b = Some q ->
  Baseline.parse_block b' = Some q' \/ Fixed.parse_block b' = Some q' ->
  (q_id q = q_id q' <-> b_num b = b_num b').
Proof.
  intros b b' q q' H H'. rewrite (block_id _ _ H), (block_id _ _ H'). split.
  - intros E. apply app_inv_head in E. apply str_of_int_inj. exact E.
  - intros E. rewrite E. reflexivity.
Qed.

Lemma record_ids_follow_numbers_witness :
  exists q q',
    Baseline.parse_block (mkBlock 7 (T "X") (T "Q? A. a Answer: A")) = Some q
    /\ Fixed.parse_block double_A_block = Some q'
    /\ (q_id q = q_id q' <-> 7%N = b_num double_A_block).
Proof.
  eexists. eexists. split; [vm_compute; reflexivity|].
  split; [vm_compute; reflexivity|].
  apply (record_ids_follow_numbers
           (mkBlock 7 (T "X") (T "Q? A. a Answer: A")) double_A_block);
    [left | right]; vm_compute; reflexivity.
Defined.

End Names.

(** * Chapters and archive *)

Section Chapters.

Lemma group_head_key : forall q qs acc domains key,
  get q (T "domain") (JStr (T "Uncategorized")) = Ok key ->
  group_domains qs (setdefault_append key q acc) = Ok domains ->
  (forall k, In k (map fst domains) -> exists d, k = JStr d) ->
  key = JStr (domain_of q) /\ is_obj_with_str_domain q.
Proof.
  intros q qs acc domains key Eg H Hs.
  destruct (group_keys_grow _ _ _ H) as [extra Hx].
  assert (R : exists k', In k' (map fst (setdefault_append key q acc))
                         /\ key_eqb k' key = true).
  { rewrite setdefault_keys.
    destruct (existsb (fun k => key_eqb k key) (map fst acc)) eqn:E.
    - apply existsb_exists in E. exact E.
    - exists key. split; [apply in_or_app; right; left; reflexivity|].
      assert (Hin : In key (map fst domains)).
      { rewrite Hx, setdefault_keys, E. apply in_or_app. left.
        apply in_or_app. right. left. reflexivity. }
      destruct (Hs _ Hin) as [d Hd]. subst key. simpl.
      apply text_eqb_refl. }
  destruct R as (k' & Hin & He).
  assert (Hin' : In k' (map fst domains)).
  { rewrite Hx. apply in_or_app. left. exact Hin. }
  destruct (Hs _ Hin') as [d Hd]. subst k'.
  apply key_eqb_str in He. subst key.
  destruct q; try discriminate. unfold get in Eg. unfold domain_of.
  destruct (dict_lookup (T "domain") items) as [v|] eqn:El.
  - inversion Eg; subst. split; [reflexivity|].
    exists items. split; [reflexivity|]. right. exists d. exact El.
  - inversion Eg; subst. split; [reflexivity|].
    exists items. split; [reflexivity|]. left. exact El.
Qed.

Lemma group_index : forall qs acc domains,
  group_domains qs acc = Ok domains ->
  (forall k, In k (map fst domains) -> exists d, k = JStr d) ->
  Forall is_obj_with_str_domain qs
  /\ forall d, domains_index domains d
               = domains_index acc d ++ filter (filed_under d) qs.
Proof.
  induction qs as [|q qs IH]; intros acc domains H Hs.
  - cbn in H. inversion H; subst. split; [constructor|].
    intros d. cbn [filter]. rewrite app_nil_r. reflexivity.
  - cbn [group_domains] in H.
    destruct (get q (T "domain") (JStr (T "Uncategorized"))) as [key|] eqn:Eg;
      [|discriminate].
    cbn [bind] in H. destruct (hashable key); [|discriminate].
    destruct (group_head_key _ _ _ _ _ Eg H Hs) as [Hk Hq]. subst key.
    destruct (IH _ _ H Hs) as [Hall Hi]. split; [constructor; assumption|].
    intros d. rewrite Hi, domains_index_setdefault. cbn [filter].
    unfold filed_under at 2.
    destruct (text_eqb (domain_of q) d); [|reflexivity].
    rewrite <- app_assoc. reflexivity.
Qed.

Lemma dict_set_fresh : forall k v d,
  (forall kv, In kv d -> fst kv <> k) -> dict_set k v d = d ++ [(k, v)].
Proof.
  intros k v d. induction d as [|[k' v'] d IH]; intros H; [reflexivity|].
  cbn [dict_set app]. destruct (text_eqb k' k) eqn:E.
  - apply text_eqb_eq in E. exfalso. apply (H (k', v')); [left; reflexivity|].
    exact E.
  - rewrite IH; [reflexivity|]. intros kv Hin. apply H. right. exact Hin.
Qed.

Lemma chapters_loop_chapters : forall domains ds idx st st',
  chapters_loop domains (map (fun d => (d, slug_of d)) ds) idx st = Ok st' ->
  Forall (fun kv => exists i s, i < idx /\ fst kv = file_name_of i s)
         (chapters st) ->
  exists docs,
    chapters st' = chapters st ++ docs
    /\ Forall2 (chapter_for (domains_index domains)) (numbered idx ds) docs.
Proof.
  intros domains ds. induction ds as [|d ds IH]; intros idx st st' H Hk.
  - cbn in H. inversion H; subst. exists []. rewrite app_nil_r.
    split; [reflexivity | constructor].
  - cbn [map chapters_loop] in H.
    destruct (map_result render_question (domains_index domains d))
      as [q_blocks|] eqn:Er; [|discriminate].
    cbn [bind] in H.
    assert (F : dict_set (file_name_of idx (slug_of d))
                  (chapter_xhtml d q_blocks) (chapters st)
                = chapters st
                  ++ [(file_name_of idx (slug_of d), chapter_xhtml d q_blocks)]).
    { apply dict_set_fresh. intros kv Hin E.
      rewrite Forall_forall in Hk. destruct (Hk kv Hin) as (i & s & Hlt & Ei).
      rewrite Ei in E. apply file_name_inj in E. lia. }
    rewrite F in H. apply IH in H.
    + destruct H as (docs & Ec & Hd). cbn [chapters] in Ec.
      exists ((file_name_of idx (slug_of d), chapter_xhtml d q_blocks) :: docs).
      split; [rewrite Ec, <- app_assoc; reflexivity|].
      cbn [numbered]. constructor; [|exact Hd].
      cbn [chapter_for fst snd]. split; [reflexivity|].
      exists q_blocks. auto.
    + cbn [chapters]. apply Forall_app. split.
      * eapply Forall_impl; [|exact Hk]. intros kv (i & s & Hlt & Ei).
        exists i, s. split; [lia | exact Ei].
      * constructor; [|constructor]. exists idx, (slug_of d).
        split; [lia | reflexivity].
Qed.

Lemma map_JStr_inj : forall l l', map JStr l = map JStr l' -> l = l'.
Proof.
  induction l as [|x l IH]; intros [|y l'] H; try discriminate;
    [reflexivity|].
  cbn in H. inversion H. f_equal. apply IH. assumption.
Qed.

Lemma grouped_items : forall qs domains items,
  group_domains qs [] = Ok domains ->
  map_result (fun '(domain, _) => domain_item domain) domains = Ok items ->
  items = map (fun d => (d, slug_of d)) (first_seen (map domain_of qs))
  /\ forall k, In k (map fst domains) -> exists d, k = JStr d.
Proof.
  intros qs domains items Eg Ei.
  destruct (domain_items_spec _ _ Ei) as [Hk Hi].
  assert (Hs : forall k, In k (map fst domains) -> exists d, k = JStr d).
  { intros k Hin. rewrite Hk in Hin. apply in_map_iff in Hin.
    destruct Hin as (d & E & _). eauto. }
  split; [|exact Hs].
  assert (G : map fst domains
              = map JStr (fold_left add_label (map domain_of qs) [])).
  { apply group_keys with (acc := []); [exact Eg | reflexivity | exact Hs]. }
  rewrite first_seen_fold, Hk in G. apply map_JStr_inj in G.
  rewrite <- G. exact Hi.
Qed.

(** What a run of [build_epub] that returned went through. *)
Lemma build_epub_run : forall qs title book_id now icon b,
  build_epub qs title book_id now icon = Ok b ->
  Forall is_obj_with_str_domain qs
  /\ Forall2 (chapter_for (fun d => filter (filed_under d) qs))
       (numbered 1 (first_seen (map domain_of qs))) (chapters (book_locals b))
  /\ book_archive b = write_archive (book_locals b) book_id title now icon.
Proof.
  intros qs title book_id now icon b H. unfold build_epub in H.
  destruct (group_domains qs []) as [domains|] eqn:Eg; [|discriminate].
  cbn [bind] in H.
  destruct (map_result (fun '(domain, _) => domain_item domain) domains)
    as [items|] eqn:Ei; [|discriminate].
  cbn [bind] in H.
  destruct (chapters_loop domains items 1 initial_locals) as [st|] eqn:Ec;
    [|discriminate].
  cbn [bind] in H. inversion H; subst b; clear H.
  cbn [book_locals book_archive].
  destruct (grouped_items _ _ _ Eg Ei) as [Hi Hs].
  destruct (group_index _ _ _ Eg Hs) as [Hall Hx].
  split; [exact Hall|]. split; [|reflexivity].
  rewrite Hi in Ec. apply chapters_loop_chapters in Ec; [|constructor].
  destruct Ec as (docs & E & Hd). cbn [chapters initial_locals app] in E.
  rewrite E. clear - Hd Hx.
  induction Hd as [|[i d] kv l l' Hh Ht IH]; constructor; [|exact IH].
  cbn [chapter_for] in *. rewrite Hx in Hh. exact Hh.
Qed.

(** X13.  Whenever [build_epub] returns, [chapters] holds one
    document for each distinct domain, in the order of first
    occurrence: its key is the numbered file name of the domain, and
    the document holds the blocks of the questions filed under that
    domain, in input order. *)
Theorem build_epub_chapters : forall qs title book_id now icon b,
  build_epub qs title book_id now icon = Ok b ->
  Forall2 (chapter_for (fun d => filter (filed_under d) qs))
    (numbered 1 (first_seen (map domain_of qs))) (chapters (book_locals b)).
Proof.
  intros qs title book_id now icon b H.
  exact (proj1 (proj2 (build_epub_run _ _ _ _ _ _ H))).
Qed.

Lemma build_epub_chapters_witness :
  build_epub two_domains (T "t") (T "id") (T "now") None = Ok two_domains_book
  /\ Forall2 (chapter_for (fun d => filter (filed_under d) two_domains))
       (numbered 1 (first_seen (map domain_of two_domains)))
       (chapters (book_locals two_domains_book)).
Proof.
  assert (H : build_epub two_domains (T "t") (T "id") (T "now") None
              = Ok two_domains_book) by (vm_compute; reflexivity).
  split; [exact H|].
  exact (build_epub_chapters two_domains (T "t") (T "id") (T "now") None
           two_domains_book H).
Defined.

Lemma numbered_ge : forall l idx i d, In (i, d) (numbered idx l) -> idx <= i.
Proof.
  induction l as [|x l IH]; intros idx i d H; [destruct H|].
  cbn [numbered] in H. destruct H as [H|H].
  - inversion H. lia.
  - apply IH in H. lia.
Qed.

Lemma chapter_keys_nodup : forall (R : text -> list json) chs docs,
  Forall2 (chapter_for R) chs docs ->
  forall idx l, chs = numbered idx l ->
  NoDup (map fst docs)
  /\ forall k, In k (map fst docs) ->
       exists i d, idx <= i /\ k = file_name_of i (slug_of d).
Proof.
  intros R chs docs H. induction H as [|[i d] kv chs docs Hh Ht IH];
    intros idx l E.
  - split; [constructor | intros k []].
  - destruct l as [|x l]; [discriminate|]. cbn [numbered] in E.
    inversion E; subst i d chs. clear E.
    destruct (IH (S idx) l eq_refl) as [Hn Hk].
    cbn [chapter_for] in Hh. destruct Hh as [Hf _]. cbn [map]. split.
    + constructor; [|exact Hn]. intros Hin. destruct (Hk _ Hin) as (i & d & Hi & E).
      rewrite Hf in E. apply file_name_inj in E. lia.
    + intros k [Hin|Hin].
      * exists idx, x. split; [lia | congruence].
      * destruct (Hk _ Hin) as (i & d & Hi & E). exists i, d. split; [lia|exact E].
Qed.

Lemma chapter_name_entry : forall i s,
  chapter_entry_name (T "OEBPS" ++ T "/" ++ file_name_of i s) = true.
Proof.
  intros i s. unfold file_name_of. destruct (pad2_head i) as (c & r & E & Hc).
  rewrite E. cbn. exact Hc.
Qed.

Lemma NoDup_append : forall (A : Type) (l l' : list A),
  NoDup l -> NoDup l' -> (forall x, In x l -> ~ In x l') -> NoDup (l ++ l').
Proof.
  intros A l l' H H' Hd. induction H as [|x l Hx Hl IH]; [exact H'|].
  cbn [app]. constructor.
  - intros Hin. apply in_app_or in Hin. destruct Hin as [Hin|Hin].
    + exact (Hx Hin).
    + exact (Hd x (or_introl eq_refl) Hin).
  - apply IH. intros y Hy. apply Hd. right. exact Hy.
Qed.

Lemma NoDup_map_inj : forall (A B : Type) (f : A -> B) l,
  (forall x y, f x = f y -> x = y) -> NoDup l -> NoDup (map f l).
Proof.
  intros A B f l Hf H. induction H as [|x l Hx Hl IH]; [constructor|].
  cbn [map]. constructor; [|exact IH]. intros Hin.
  apply in_map_iff in Hin. destruct Hin as (y & E & Hy).
  apply Hf in E. subst y. exact (Hx Hy).
Qed.

Lemma archive_names : forall st book_id title now icon,
  map e_name (write_archive st book_id title now icon)
  = [T "mimetype"; T "META-INF/container.xml"; T "OEBPS/content.opf";
     T "OEBPS/toc.ncx"; T "OEBPS/nav.xhtml"; T "OEBPS/styles/style.css"]
    ++ match icon with
       | Some _ => [T "OEBPS/pwa-icon.svg"]
       | None => []
       end
    ++ [T "OEBPS/text/title.xhtml"]
    ++ map (fun k => T "OEBPS" ++ T "/" ++ k) (map fst (chapters st)).
Proof.
  intros st book_id title now icon. unfold write_archive.
  rewrite write_chapters. unfold writestr, write.
  assert (E : forall chs,
            map e_name
              (map (fun '(href, content) =>
                      mkEntry (T "OEBPS" ++ T "/" ++ href) (utf8 content)
                        ZIP_DEFLATED) chs)
            = map (fun k => T "OEBPS" ++ T "/" ++ k) (map fst chs)).
  { induction chs as [|[h c] chs IH]; [reflexivity|]. cbn [map fst e_name].
    rewrite IH. reflexivity. }
  destruct icon; rewrite map_app, E; reflexivity.
Qed.

(** X14.  Whenever [build_epub] returns, no two entries of the
    archive have the same name, and there is one chapter entry for each
    distinct domain. *)
Theorem archive_names_distinct : forall qs title book_id now icon b,
  build_epub qs title book_id now icon = Ok b ->
  NoDup (map e_name (book_archive b))
  /\ length (filter chapter_entry_name (map e_name (book_archive b)))
     = length (first_seen (map domain_of qs)).
Proof.
  intros qs title book_id now icon b H.
  destruct (build_epub_run _ _ _ _ _ _ H) as (_ & Hc & Ea).
  rewrite Ea, archive_names.
  destruct (chapter_keys_nodup _ _ _ Hc 1 _ eq_refl)
    as [Hn Hk].
  assert (Hch : forall x,
            In x (map (fun k => T "OEBPS" ++ T "/" ++ k)
                    (map fst (chapters (book_locals b)))) ->
            chapter_entry_name x = true).
  { intros x Hin. apply in_map_iff in Hin. destruct Hin as (k & E & Hin).
    destruct (Hk _ Hin) as (i & d & _ & Ek). subst x k.
    apply chapter_name_entry. }
  assert (Hlen : length (chapters (book_locals b))
                 = length (first_seen (map domain_of qs))).
  { clear - Hc. revert Hc. generalize 1.
    generalize (chapters (book_locals b)).
    induction (first_seen (map domain_of qs)) as [|d l IH]; intros docs n Hc;
      inversion Hc; subst; [reflexivity|].
    cbn [length]. f_equal. eapply IH. eassumption. }
  split.
  - rewrite !app_assoc. apply NoDup_append.
    + destruct icon; cbv;
        repeat (constructor; [cbn; intuition discriminate|]); constructor.
    + apply NoDup_map_inj; [|exact Hn]. intros x y E.
      apply app_inv_head in E. apply app_inv_head in E. exact E.
    + intros x Hx Hin. apply Hch in Hin.
      destruct icon; cbn [app] in Hx;
        repeat (destruct Hx as [Hx|Hx]; [subst x; discriminate|]);
        destruct Hx.
  - rewrite !app_assoc, filter_app.
    assert (F : forall l, (forall x, In x l -> chapter_entry_name x = true) ->
                          filter chapter_entry_name l = l).
    { induction l as [|x l IH]; intros Hl; [reflexivity|]. cbn [filter].
      rewrite (Hl x (or_introl eq_refl)). f_equal. apply IH.
      intros y Hy. apply Hl. right. exact Hy. }
    rewrite (F _ Hch).
    match goal with
    | |- context [filter chapter_entry_name ?l ++ _] =>
        assert (Z : filter chapter_entry_name l = [])
          by (destruct icon; reflexivity);
        rewrite Z
    end.
    cbn [app]. rewrite !length_map. exact Hlen.
Qed.

Lemma archive_names_distinct_witness :
  build_epub two_domains (T "t") (T "id") (T "now") None = Ok two_domains_book
  /\ NoDup (map e_name (book_archive two_domains_book)).
Proof.
  assert (H : build_epub two_domains (T "t") (T "id") (T "now") None
              = Ok two_domains_book) by (vm_compute; reflexivity).
  split; [exact H|].
  exact (proj1 (archive_names_distinct two_domains (T "t") (T "id") (T "now")
                  None two_domains_book H)).
Defined.

Lemma first_seen_In : forall l x, In x l -> In x (first_seen l).
Proof.
  induction l as [|y l IH]; intros x H; [destruct H|].
  cbn [first_seen]. destruct (text_eqb y x) eqn:E.
  - left. apply text_eqb_eq. exact E.
  - right. apply filter_In. split.
    + apply IH. destruct H as [H|H]; [|exact H].
      subst y. rewrite text_eqb_refl in E. discriminate.
    + rewrite E. reflexivity.
Qed.

Lemma numbered_In : forall l idx d,
  In d l -> exists i, In (i, d) (numbered idx l).
Proof.
  induction l as [|x l IH]; intros idx d H; [destruct H|].
  cbn [numbered]. destruct H as [H|H].
  - subst x. exists idx. left. reflexivity.
  - destruct (IH (S idx) d H) as [i Hi]. exists i. right. exact Hi.
Qed.

Lemma Forall2_In_l : forall (A B : Type) (R : A -> B -> Prop) l l' x,
  Forall2 R l l' -> In x l -> exists y, In y l' /\ R x y.
Proof.
  intros A B R l l' x H. induction H as [|a b l l' Hh Ht IH]; intros Hin;
    [destruct Hin|].
  destruct Hin as [Hin|Hin].
  - subst a. exists b. split; [left; reflexivity | exact Hh].
  - destruct (IH Hin) as (y & Hy & Hr). exists y. split; [right|]; assumption.
Qed.

Lemma map_result_In : forall (A B : Type) (f : A -> result B) l ys x,
  map_result f l = Ok ys -> In x l -> exists y, f x = Ok y.
Proof.
  intros A B f. induction l as [|a l IH]; intros ys x H Hin; [destruct Hin|].
  cbn [map_result] in H. destruct (f a) as [y|] eqn:E; [|discriminate].
  cbn [bind] in H. destruct (map_result f l) as [ys'|] eqn:E'; [|discriminate].
  destruct Hin as [Hin|Hin].
  - subst a. exists y. exact E.
  - eapply IH; [reflexivity | exact Hin].
Qed.

Lemma domain_is_text_iff : forall q,
  domain_is_text q = true <-> is_obj_with_str_domain q.
Proof.
  intros q. split.
  - intros H. destruct q as [| | | | |items]; try discriminate.
    exists items. split; [reflexivity|]. cbn [domain_is_text] in H.
    destruct (dict_lookup (T "domain") items) as [[| | |d| |]|];
      try discriminate; [right; exists d; reflexivity | left; reflexivity].
  - intros (items & E & [H|[d H]]); subst q; cbn [domain_is_text];
      rewrite H; reflexivity.
Qed.

Lemma group_dicts : forall qs acc,
  forallb is_dict qs = true ->
  group_domains qs acc = Raise TypeError
  \/ exists domains, group_domains qs acc = Ok domains.
Proof.
  induction qs as [|q qs IH]; intros acc H.
  - right. exists acc. reflexivity.
  - cbn [forallb] in H. apply andb_true_iff in H. destruct H as [Hq Hr].
    destruct q as [| | | | |items]; try discriminate.
    cbn [group_domains get bind].
    destruct (hashable _); [apply IH; exact Hr | left; reflexivity].
Qed.

Lemma domain_items_type_error : forall (domains : list (json * list json)),
  map_result (fun '(domain, _) => domain_item domain) domains = Raise TypeError
  \/ exists items,
       map_result (fun '(domain, _) => domain_item domain) domains = Ok items.
Proof.
  induction domains as [|[k its] domains IH].
  - right. exists []. reflexivity.
  - cbn [map_result]. destruct k; cbn [domain_item bind]; auto.
    destruct IH as [E|[items E]]; rewrite E; cbn [bind]; eauto.
Qed.

(** X17.  With every question a dict, a domain that is present and
    not a string makes [build_epub] raise [TypeError]. *)
Theorem build_epub_non_text_domain : forall qs title book_id now icon,
  forallb is_dict qs = true ->
  forallb domain_is_text qs = false ->
  build_epub qs title book_id now icon = Raise TypeError.
Proof.
  intros qs title book_id now icon Hd Hn. unfold build_epub.
  destruct (group_dicts qs [] Hd) as [E|[domains E]]; rewrite E; cbn [bind];
    [reflexivity|].
  destruct (domain_items_type_error domains) as [Ei|[items Ei]]; rewrite Ei;
    cbn [bind]; [reflexivity|].
  exfalso. destruct (grouped_items _ _ _ E Ei) as [_ Hs].
  destruct (group_index _ _ _ E Hs) as [Hall _].
  assert (C : forallb domain_is_text qs = true).
  { apply forallb_forall. intros q Hq. apply domain_is_text_iff.
    rewrite Forall_forall in Hall. exact (Hall q Hq). }
  congruence.
Qed.

Lemma build_epub_non_text_domain_witness :
  forallb is_dict numeric_domain = true
  /\ forallb domain_is_text numeric_domain = false
  /\ build_epub numeric_domain (T "t") (T "id") (T "now") None
     = Raise TypeError.
Proof.
  split; [reflexivity|]. split; [reflexivity|].
  apply (build_epub_non_text_domain numeric_domain (T "t") (T "id") (T "now")
           None); reflexivity.
Defined.

End Chapters.

(** * Paragraphs *)

Section Paragraphs.

Lemma lstrip_last : forall u c,
  is_space c = false -> exists w, lstrip (u ++ [c]) = w ++ [c].
Proof.
  induction u as [|d u IH]; intros c H.
  - exists []. cbn [app lstrip]. rewrite H. reflexivity.
  - cbn [app lstrip]. destruct (is_space d).
    + apply IH. exact H.
    + exists (d :: u). reflexivity.
Qed.

Lemma strip_head : forall c s,
  is_space c = false -> exists w, strip (c :: s) = c :: w.
Proof.
  intros c s H. unfold strip, rstrip. cbn [lstrip]. rewrite H. cbn [rev].
  destruct (lstrip_last (rev s) c H) as [w E]. rewrite E, rev_app_distr.
  exists (rev w). reflexivity.
Qed.

Lemma strip_no_lead : forall s, no_lead (strip s) = true.
Proof.
  intros s. unfold strip.
  destruct (rstrip_prefix (lstrip s)) as [w E].
  apply no_lead_prefix with (v := w). rewrite <- E. apply lstrip_no_lead.
Qed.

Lemma split_blank_head : forall s cur,
  exists p rest, split_blank cur s = (rev cur ++ p) :: rest.
Proof.
  induction s as [|c1 s1 IH]; intros cur.
  - exists [], []. cbn [split_blank]. rewrite app_nil_r. reflexivity.
  - cbn [split_blank]. destruct s1 as [|c2 s2].
    + exists [c1], []. reflexivity.
    + destruct (Ascii.eqb c1 nl && Ascii.eqb c2 nl).
      * exists [], (split_blank [] s2). rewrite app_nil_r. reflexivity.
      * destruct (IH (c1 :: cur)) as (p & rest & E). rewrite E.
        exists (c1 :: p), rest. cbn [rev]. rewrite <- app_assoc. reflexivity.
Qed.

Lemma split_blank_first : forall c s,
  is_space c = false ->
  exists p rest, split_blank [] (c :: s) = (c :: p) :: rest.
Proof.
  intros c s H. cbn [split_blank]. destruct s as [|c2 s2].
  - exists [], []. reflexivity.
  - assert (E : Ascii.eqb c nl = false).
    { destruct (Ascii.eqb c nl) eqn:E; [|reflexivity].
      apply Ascii.eqb_eq in E. subst c. discriminate. }
    rewrite E. cbn [andb].
    destruct (split_blank_head (c2 :: s2) [c]) as (p & rest & Ep).
    rewrite Ep. exists p, rest. reflexivity.
Qed.

Lemma join_starts : forall mk sep p ps,
  starts_with mk p = true -> starts_with mk (join sep (p :: ps)) = true.
Proof.
  intros mk sep p ps H. cbn [join]. destruct ps; [exact H|].
  apply starts_with_app. exact H.
Qed.

Lemma ends_with_app : forall p s t,
  ends_with p t = true -> ends_with p (s ++ t) = true.
Proof.
  intros p s t H. unfold ends_with in *. rewrite rev_app_distr.
  apply starts_with_app. exact H.
Qed.

Lemma join_ends : forall mk sep ps p,
  Forall (fun x => ends_with mk x = true) (p :: ps) ->
  ends_with mk (join sep (p :: ps)) = true.
Proof.
  intros mk sep. induction ps as [|q ps IH]; intros p H.
  - inversion H; subst. assumption.
  - inversion H as [|? ? Hp Hr]; subst.
    change (join sep (p :: q :: ps)) with (p ++ sep ++ join sep (q :: ps)).
    apply ends_with_app, ends_with_app, IH. exact Hr.
Qed.

(** X12.  [_as_paragraphs] returns the empty string for a text that
    is empty or blank, and otherwise a text that opens with a paragraph
    tag and closes with one. *)
Theorem as_paragraphs_shape : forall s,
  match strip s with
  | [] => _as_paragraphs s = []
  | _ :: _ =>
      starts_with (T "<p>") (_as_paragraphs s) = true
      /\ ends_with (T "</p>") (_as_paragraphs s) = true
  end.
Proof.
  intros s. unfold _as_paragraphs. pose proof (strip_no_lead s) as Hl.
  destruct (strip s) as [|c t]; [reflexivity|].
  cbn [no_lead] in Hl. apply negb_true_iff in Hl. cbn [nonempty].
  destruct (split_blank_first c t Hl) as (p & rest & E). rewrite E.
  cbn [map]. destruct (strip_head c p Hl) as [w Ew]. rewrite Ew.
  cbn [filter nonempty map]. split.
  - apply join_starts. reflexivity.
  - apply join_ends. apply Forall_forall. intros x Hx.
    assert (Hx' : In x (map (fun p0 => T "<p>"
                     ++ replace_char nl (T "<br/>") (html_escape p0)
                     ++ T "</p>")
                    ((c :: w) :: filter nonempty (map strip rest))))
      by exact Hx.
    apply in_map_iff in Hx'. destruct Hx' as (p0 & Ex & _). subst x.
    apply ends_with_app, ends_with_app. reflexivity.
Qed.

Lemma split_blank_one : forall t cur,
  find_sub [nl; nl] t = None -> split_blank cur t = [rev cur ++ t].
Proof.
  induction t as [|c1 t IH]; intros cur H.
  - cbn [split_blank]. rewrite app_nil_r. reflexivity.
  - unfold find_sub in H. cbn [first_where] in H.
    destruct (starts_with [nl; nl] (c1 :: t)) eqn:Es; [discriminate|].
    destruct (first_where (starts_with [nl; nl]) t) eqn:Ef; [discriminate|].
    cbn [split_blank]. destruct t as [|c2 t2].
    + reflexivity.
    + assert (Ec : Ascii.eqb c1 nl && Ascii.eqb c2 nl = false).
      { cbn [starts_with] in Es. rewrite andb_true_r in Es.
        rewrite (Ascii.eqb_sym c1), (Ascii.eqb_sym c2). exact Es. }
      rewrite Ec, (IH (c1 :: cur) Ef). cbn [rev].
      rewrite <- app_assoc. reflexivity.
Qed.

(** X19.  A text without a blank line becomes one paragraph: the
    stripped text, escaped, with a line break for each newline. *)
Theorem as_paragraphs_single : forall s,
  nonempty (strip s) = true ->
  find_sub [nl; nl] (strip s) = None ->
  _as_paragraphs s
  = T "<p>" ++ replace_char nl (T "<br/>") (html_escape (strip s)) ++ T "</p>".
Proof.
  intros s Hn Hb. unfold _as_paragraphs. rewrite Hn.
  rewrite (split_blank_one _ [] Hb). cbn [rev app map].
  rewrite strip_idempotent. cbn [filter]. rewrite Hn. reflexivity.
Qed.

Lemma as_paragraphs_single_witness :
  nonempty (strip two_lines) = true
  /\ find_sub [nl; nl] (strip two_lines) = None
  /\ _as_paragraphs two_lines = T "<p>a &lt; b<br/>c &amp; d</p>".
Proof.
  split; [reflexivity|]. split; [reflexivity|].
  rewrite (as_paragraphs_single two_lines); reflexivity.
Defined.

End Paragraphs.

(** * Runs of the parsers *)

Section Runs.

Lemma parse_matches_run : forall limit body cleaned ms acc,
  parse_matches limit body cleaned ms acc
  = if existsb (fun m => over_limit limit (group m 1)) ms
    then Raise ValueError
    else Ok (acc ++ parse_loop body (blocks_of cleaned ms)).
Proof.
  intros limit body cleaned ms. induction ms as [|m ms IH]; intros acc.
  - cbn. rewrite app_nil_r. reflexivity.
  - cbn [parse_matches existsb blocks_of parse_loop]. unfold int_.
    destruct (over_limit limit (group m 1)); cbn [bind orb]; [reflexivity|].
    rewrite IH.
    destruct (existsb (fun m0 => over_limit limit (group m0 1)) ms);
      [reflexivity|].
    destruct (body _); [rewrite <- app_assoc|]; reflexivity.
Qed.




Lemma fixed_none_iff : forall b,
  is_none (Fixed.parse_block b) = fixed_lacks b.
Proof.
  intros b. unfold Fixed.parse_block, fixed_lacks.
  pose proof (q_re_search (b_content b)) as Hq.
  destruct (find_sub (T "A.") (b_content b)) as [i|];
    [|rewrite Hq; reflexivity].
  destruct Hq as (qm & Eq & _ & G2). rewrite Eq, G2.
  set (rest := lstrip (skipn (i + 2) (b_content b))).
  change a_re with (choice_re "A." "B.").
  change b_re with (choice_re "B." "C.").
  change c_re with (choice_re "C." "D.").
  change Fixed.d_re with (choice_re "D." "Answer:").
  pose proof (choice_found "A." "B." rest) as Fa.
  pose proof (choice_found "B." "C." rest) as Fb.
  pose proof (choice_found "C." "D." rest) as Fc.
  pose proof (choice_found "D." "Answer:" rest) as Fd.
  pose proof (answer_re_search rest) as Ha.
  unfold choice_text in Fa, Fb, Fc, Fd. unfold answer_split in Ha.
  destruct (re_search (choice_re "A." "B.") rest);
    destruct (find_sub (T "A.") rest); try discriminate; [|reflexivity].
  destruct (re_search (choice_re "B." "C.") rest);
    destruct (find_sub (T "B.") rest); try discriminate; [|reflexivity].
  destruct (re_search (choice_re "C." "D.") rest);
    destruct (find_sub (T "C.") rest); try discriminate; [|reflexivity].
  destruct (re_search (choice_re "D." "Answer:") rest);
    destruct (find_sub (T "D.") rest); try discriminate; [|reflexivity].
  destruct (re_search answer_re rest);
    destruct (first_where answer_at rest); try discriminate; reflexivity.
Qed.

(** ** Decimal numerals and [int] *)

Lemma digit_cases : forall c,
  is_digit c = true ->
  c = "0"%char \/ c = "1"%char \/ c = "2"%char \/ c = "3"%char
  \/ c = "4"%char \/ c = "5"%char \/ c = "6"%char \/ c = "7"%char
  \/ c = "8"%char \/ c = "9"%char.
Proof.
  intros c. destruct c as [[] [] [] [] [] [] [] []]; vm_compute;
    intros H; try discriminate; tauto.
Qed.

Lemma uint_of_digits_string : forall ds,
  forallb is_digit ds = true ->
  T (NilEmpty.string_of_uint (uint_of_digits ds)) = ds.
Proof.
  induction ds as [|c ds IH]; [reflexivity|]. cbn [forallb]. intros H.
  apply andb_true_iff in H. destruct H as [Hc Hd].
  cbn [uint_of_digits].
  destruct (digit_cases c Hc) as [E|[E|[E|[E|[E|[E|[E|[E|[E|E]]]]]]]]];
    subst c; cbn; f_equal; apply (IH Hd).
Qed.

Lemma int_of_uint : forall d acc,
  fold_left digit_step (T (NilEmpty.string_of_uint d)) acc
  = (acc * 10 ^ DecimalPos.Unsigned.usize d + N.of_uint d)%N.
Proof.
  unfold N.of_uint.
  induction d; intros acc;
    cbn [NilEmpty.string_of_uint T list_ascii_of_string fold_left];
    [cbn; lia | ..];
    rewrite IHd; unfold digit_step;
    rewrite !DecimalPos.Unsigned.of_uint_alt;
    cbn [Decimal.rev Decimal.revapp];
    rewrite !DecimalPos.Unsigned.of_lu_revapp;
    cbn [DecimalPos.Unsigned.usize DecimalPos.Unsigned.of_lu
         DecimalPos.Unsigned.hd DecimalPos.Unsigned.tl Decimal.revapp];
    rewrite N.pow_succ_r';
    generalize (10 ^ DecimalPos.Unsigned.usize d)%N
               (DecimalPos.Unsigned.of_lu (Decimal.rev d));
    intros p v;
    match goal with
    | |- context [(code ?c - 48)%N] =>
        let k := eval vm_compute in (code c - 48)%N in
        change (code c - 48)%N with k
    end; ring.
Qed.

Lemma int_of_digits_uint : forall ds,
  forallb is_digit ds = true ->
  int_of_digits ds = N.of_uint (uint_of_digits ds).
Proof.
  intros ds H. unfold int_of_digits.
  rewrite <- (uint_of_digits_string ds H) at 1.
  change (fun acc c => (acc * 10 + (code c - 48))%N) with digit_step.
  rewrite int_of_uint. lia.
Qed.

Lemma int_of_digits_value : forall ds,
  forallb is_digit ds = true ->
  str_of_int (int_of_digits ds) = numeral (numeral_value ds).
Proof.
  intros ds H. rewrite (int_of_digits_uint ds H). reflexivity.
Qed.

(** ** Header matches *)

Lemma Step_cap_free : forall r st st',
  Step r st st' -> cap_free r = true -> caps st' = caps st.
Proof.
  intros r st st' H. induction H; cbn [cap_free caps]; intros C;
    try reflexivity; try discriminate.
  - apply andb_true_iff in C. destruct C as [C1 C2].
    rewrite (IHStep2 C2). apply (IHStep1 C1).
  - apply andb_true_iff in C. apply IHStep. tauto.
  - apply andb_true_iff in C. apply IHStep. tauto.
Qed.

Lemma lit_cap_free : forall s, cap_free (lit s) = true.
Proof. induction s; cbn; auto. Qed.

Lemma Step_grp_rep : forall n g lo p st st',
  Step (Grp n (Rep g lo p)) st st' ->
  exists ds, forallb p ds = true /\ caps st' = (n, ds) :: caps st.
Proof.
  intros n g lo p st st' H. inversion H as [| | | | | |n' r' s1 s2 Hr| | | | |];
    subst.
  inversion Hr; subst. exists (firstn n0 a). split; [assumption|].
  unfold set_cap. cbn [caps]. f_equal. f_equal.
  unfold consumed. cbn [after]. rewrite length_skipn. f_equal. lia.
Qed.

Lemma header_group1_digits : forall b a m,
  match_at header_re b a = Some m -> forallb is_digit (group m 1) = true.
Proof.
  intros b a m H. destruct (match_at_Step _ _ _ _ H) as (st' & Hs & E).
  subst m. unfold group. cbn [m_caps].
  unfold header_re in Hs. cbn [seqs] in Hs.
  repeat match type of Hs with
  | Step (Seq ?r _) _ _ =>
      let s1 := fresh "s" in let H1 := fresh "H" in let H2 := fresh "H" in
      inversion Hs as [| |? ? ? s1 ? H1 H2| | | | | | | | |]; subst;
      clear Hs; rename H2 into Hs;
      first [ apply Step_cap_free in H1; [|first [apply lit_cap_free | reflexivity]]
            | apply Step_grp_rep in H1 ]
  end.
  apply Step_cap_free in Hs; [|reflexivity].
  repeat match goal with
  | H : exists _, _ |- _ => destruct H as (? & ? & ?)
  end.
  cbn [caps] in *.
  repeat match goal with
  | H : caps ?x = _ |- context [caps ?x] => rewrite H; clear H
  end.
  cbn [lookup_cap Nat.eqb]. assumption.
Qed.

Lemma finditer_match_at : forall r a skip b m,
  In m (finditer_loop r skip b a) ->
  exists b' a', match_at r b' a' = Some m.
Proof.
  intros r. induction a as [|c a IH]; intros skip b m H.
  - destruct skip; cbn [finditer_loop] in H; [|contradiction].
    destruct (match_at r b []) eqn:E; [|contradiction].
    destruct H as [->|[]]. eauto.
  - destruct skip; cbn [finditer_loop] in H.
    + destruct (match_at r b (c :: a)) eqn:E.
      * destruct H as [->|H]; [eauto | eapply IH; exact H].
      * eapply IH; exact H.
    + eapply IH; exact H.
Qed.

Lemma header_digits : forall text_ m,
  In m (headers text_) -> forallb is_digit (group m 1) = true.
Proof.
  intros text_ m H. apply finditer_match_at in H.
  destruct H as (b & a & H). exact (header_group1_digits _ _ _ H).
Qed.

Lemma blocks_of_nth : forall cleaned ms k m,
  nth_error ms k = Some m ->
  exists e,
    nth_error (blocks_of cleaned ms) k
    = Some (mkBlock (int_of_digits (group m 1)) (strip (group m 2))
                    (strip (slice cleaned (m_end m) e)))
    /\ e = match nth_error ms (S k) with
           | Some m' => m_start m'
           | None => length cleaned
           end.
Proof.
  intros cleaned ms. induction ms as [|m0 ms IH]; intros k m H.
  - destruct k; discriminate.
  - destruct k as [|k]; cbn [nth_error] in *.
    + inversion H; subst m0. cbn [blocks_of nth_error].
      eexists. split; [reflexivity|]. destruct ms; reflexivity.
    + cbn [blocks_of nth_error]. exact (IH k m H).
Qed.

Lemma parse_loop_nth : forall body bs q,
  In q (parse_loop body bs) ->
  exists k b, nth_error bs k = Some b /\ body b = Some q.
Proof.
  intros body bs q H. destruct (parse_loop_In _ _ _ H) as (b & Hin & Hb).
  destruct (In_nth_error _ _ Hin) as [k Hk]. eauto.
Qed.

Lemma baseline_block_domain : forall b q,
  Baseline.parse_block b = Some q -> q_domain q = b_domain b.
Proof.
  intros b q H. unfold Baseline.parse_block in H.
  destruct (re_search answer_re (b_content b)); [|discriminate].
  destruct (re_search q_re (b_content b)); [|discriminate].
  inversion H; subst q. reflexivity.
Qed.

Lemma fixed_block_domain : forall b q,
  Fixed.parse_block b = Some q -> q_domain q = b_domain b.
Proof.
  intros b q H. unfold Fixed.parse_block in H.
  destruct (re_search q_re (b_content b)) as [qm|]; [|discriminate].
  destruct (re_search a_re (group qm 2)); [|discriminate].
  destruct (re_search b_re (group qm 2)); [|discriminate].
  destruct (re_search c_re (group qm 2)); [|discriminate].
  destruct (re_search Fixed.d_re (group qm 2)); [|discriminate].
  destruct (re_search answer_re (group qm 2)); [|discriminate].
  inversion H; subst q. reflexivity.
Qed.

Lemma run_ok : forall limit body text_ qs,
  parse_matches limit body (re_sub page_marker_re [nl] text_)
    (headers text_) [] = Ok qs ->
  qs = parse_loop body (blocks text_).
Proof.
  intros limit body text_ qs H. rewrite parse_matches_run in H.
  destruct (existsb _ (headers text_)); [discriminate|].
  inversion H. reflexivity.
Qed.

Lemma fixed_lacks_le : forall bs,
  count_if (fun b => lacks_answer b || lacks_choice_A b) bs
  <= count_if fixed_lacks bs.
Proof.
  intros bs. apply count_if_le. intros b H.
  rewrite <- fixed_none_iff.
  pose proof (baseline_none_iff b) as E. rewrite H in E.
  destruct (Fixed.parse_block b) as [qf|] eqn:Ef; [|reflexivity].
  destruct (fixed_some_baseline b qf Ef) as (qb & Eb & _).
  rewrite Eb in E. discriminate.
Qed.



(** C10.  Every record a run of either parser returns comes from one
    header of the text and the block cut after that header: its id is
    [Q] followed by the decimal numeral of the number that the digits
    of this header denote, its domain is the bracketed text of this
    header, its choice ids are [A], [B], [C], [D] in this order, and
    its reference is empty. *)
Theorem C10_record_shape : forall max_str_digits text_ qs q,
  baseline_parse_questions max_str_digits text_ = Ok qs
  \/ fixed_parse_questions max_str_digits text_ = Ok qs ->
  In q qs ->
  exists k m b,
    nth_error (headers text_) k = Some m
    /\ nth_error (blocks text_) k = Some b
    /\ (Baseline.parse_block b = Some q \/ Fixed.parse_block b = Some q)
    /\ forallb is_digit (group m 1) = true
    /\ q_id q = T "Q" ++ numeral (numeral_value (group m 1))
    /\ q_domain q = strip (group m 2)
    /\ map c_id (q_choices q) = [T "A"; T "B"; T "C"; T "D"]
    /\ q_reference q = [].
Proof.
  intros limit text_ qs q Hrun Hq.
  assert (G : exists k b, nth_error (blocks text_) k = Some b
                /\ (Baseline.parse_block b = Some q
                    \/ Fixed.parse_block b = Some q)
                /\ map c_id (q_choices q) = [T "A"; T "B"; T "C"; T "D"]
                /\ q_id q = T "Q" ++ str_of_int (b_num b)
                /\ q_domain q = b_domain b
                /\ q_reference q = []).
  { destruct Hrun as [H|H]; apply run_ok in H; subst qs;
      apply parse_loop_nth in Hq; destruct Hq as (k & b & Hk & Hb);
      exists k, b; (split; [exact Hk|]).
    - destruct (baseline_block_shape b q Hb) as (S1 & S2 & S3).
      pose proof (baseline_block_domain b q Hb). auto 7.
    - destruct (fixed_block_shape b q Hb) as (S1 & S2 & S3).
      pose proof (fixed_block_domain b q Hb). auto 7. }
  destruct G as (k & b & Hk & Hb & Hc & Hid & Hd & Hr).
  assert (Hm : exists m, nth_error (headers text_) k = Some m).
  { destruct (nth_error (headers text_) k) as [m|] eqn:E; [eauto|].
    apply nth_error_None in E. rewrite <- blocks_length in E.
    apply nth_error_None in E. congruence. }
  destruct Hm as [m Hm]. exists k, m, b.
  destruct (blocks_of_nth (re_sub page_marker_re [nl] text_) _ _ _ Hm)
    as (e & Hn & _).
  change (blocks_of (re_sub page_marker_re [nl] text_) (headers text_))
    with (blocks text_) in Hn.
  rewrite Hk in Hn. inversion Hn; subst b; clear Hn.
  cbn [b_num b_domain] in Hid, Hd.
  assert (Dg : forallb is_digit (group m 1) = true).
  { apply (header_digits text_). eapply nth_error_In. exact Hm. }
  rewrite (int_of_digits_value _ Dg) in Hid.
  repeat split; assumption.
Qed.

Lemma C10_record_shape_witness :
  baseline_parse_questions default_max_str_digits three_blocks
  = Ok (Baseline.parse_questions three_blocks)
  /\ map q_id (Baseline.parse_questions three_blocks) = [T "Q1"; T "Q3"]
  /\ forall q, In q (Baseline.parse_questions three_blocks) ->
       exists k m b,
         nth_error (headers three_blocks) k = Some m
         /\ nth_error (blocks three_blocks) k = Some b
         /\ (Baseline.parse_block b = Some q \/ Fixed.parse_block b = Some q)
         /\ forallb is_digit (group m 1) = true
         /\ q_id q = T "Q" ++ numeral (numeral_value (group m 1))
         /\ q_domain q = strip (group m 2)
         /\ map c_id (q_choices q) = [T "A"; T "B"; T "C"; T "D"]
         /\ q_reference q = [].
Proof.
  assert (H : baseline_parse_questions default_max_str_digits three_blocks
              = Ok (Baseline.parse_questions three_blocks))
    by (vm_compute; reflexivity).
  split; [exact H|]. split; [vm_compute; reflexivity|].
  intros q Hq.
  exact (C10_record_shape default_max_str_digits three_blocks _ q
           (or_introl H) Hq).
Defined.

Lemma parse_loop_fewer : forall (bs : list block) b,
  In b bs -> Baseline.parse_block b <> None -> Fixed.parse_block b = None ->
  length (parse_loop Fixed.parse_block bs)
  < length (parse_loop Baseline.parse_block bs).
Proof.
  intros bs b Hin Hb Hf.
  pose proof (parse_loop_count Baseline.parse_block bs) as Cb.
  pose proof (parse_loop_count Fixed.parse_block bs) as Cf.
  enough (count_if (fun x => is_none (Baseline.parse_block x)) bs
          < count_if (fun x => is_none (Fixed.parse_block x)) bs) by lia.
  clear Cb Cf. unfold count_if.
  induction bs as [|x bs IH]; [contradiction|].
  assert (L : length (filter (fun x => is_none (Baseline.parse_block x)) bs)
              <= length (filter (fun x => is_none (Fixed.parse_block x)) bs)).
  { apply (count_if_le _ (fun x => is_none (Baseline.parse_block x))
             (fun x => is_none (Fixed.parse_block x))).
    intros y Hy. destruct (Fixed.parse_block y) as [qf|] eqn:Ef; [|reflexivity].
    destruct (fixed_some_baseline y qf Ef) as (qb & Eb & _).
    rewrite Eb in Hy. discriminate. }
  cbn [filter]. destruct Hin as [->|Hin].
  - rewrite Hf. destruct (Baseline.parse_block b); [|congruence].
    cbn [is_none length]. lia.
  - specialize (IH Hin).
    destruct (Fixed.parse_block x) as [qf|] eqn:Ef.
    + destruct (fixed_some_baseline x qf Ef) as (qb & Eb & _). rewrite Eb.
      cbn [is_none]. exact IH.
    + destruct (Baseline.parse_block x); cbn [is_none length]; lia.
Qed.

Lemma single_A_fixed_none : forall b i,
  find_sub (T "A.") (b_content b) = Some i ->
  find_sub (T "A.") (skipn (i + 2) (b_content b)) = None ->
  Fixed.parse_block b = None.
Proof.
  intros b i Hi Hn.
  pose proof (fixed_none_iff b) as E. unfold fixed_lacks in E.
  rewrite Hi in E.
  pose proof (find_sub_lstrip "A" (T ".") (skipn (i + 2) (b_content b))
                eq_refl) as F.
  change ("A"%char :: T ".") with (T "A.") in F. rewrite Hn in F.
  destruct (find_sub (T "A.") (lstrip (skipn (i + 2) (b_content b))));
    [discriminate|].
  cbn [is_none orb] in E.
  destruct (Fixed.parse_block b); [discriminate | reflexivity].
Qed.

(** C4 (the fixed variant breaks it).  Where both runs return, the
    records of the fixed variant are, in order, among those of the
    baseline, with the same id, domain, question, choice ids and
    reference.  But a block that has the answer marker and one [A.]
    only, as every block with one marker per choice has, gives a
    baseline record and no fixed one, so the fixed variant returns
    fewer records: it looks for the [A.] marker in the text after that
    very marker. *)
Theorem C4_fixed_drops_what_baseline_keeps :
  forall max_str_digits text_ qb qf b i,
  baseline_parse_questions max_str_digits text_ = Ok qb ->
  fixed_parse_questions max_str_digits text_ = Ok qf ->
  In b (blocks text_) ->
  has_markers b = true ->
  find_sub (T "A.") (b_content b) = Some i ->
  find_sub (T "A.") (skipn (i + 2) (b_content b)) = None ->
  embeds same_head qf qb /\ length qf < length qb.
Proof.
  intros limit text_ qb qf b i Hb Hf Hin Hm Hi Hn.
  apply run_ok in Hb. apply run_ok in Hf. subst qb qf. split.
  - apply fixed_embeds_in_baseline.
  - apply (parse_loop_fewer _ b Hin).
    + pose proof (baseline_none_iff b) as E. unfold has_markers in Hm.
      apply negb_true_iff in Hm. rewrite Hm in E.
      destruct (Baseline.parse_block b); [discriminate | discriminate].
    + exact (single_A_fixed_none b i Hi Hn).
Qed.

Lemma C4_fixed_drops_what_baseline_keeps_witness :
  well_marked one_block = true
  /\ baseline_parse_questions default_max_str_digits one_block
     = Ok [one_block_record]
  /\ fixed_parse_questions default_max_str_digits one_block = Ok []
  /\ embeds same_head [] [one_block_record]
  /\ length (@nil QuestionRecord) < length [one_block_record].
Proof.
  split; [vm_compute; reflexivity|].
  assert (Hb : baseline_parse_questions default_max_str_digits one_block
               = Ok [one_block_record]) by (vm_compute; reflexivity).
  assert (Hf : fixed_parse_questions default_max_str_digits one_block = Ok [])
    by (vm_compute; reflexivity).
  split; [exact Hb|]. split; [exact Hf|].
  apply (C4_fixed_drops_what_baseline_keeps default_max_str_digits one_block
           [one_block_record] []
           (mkBlock 1 (T "Access Control")
              (lines [T "What is it?"; T "A. foo B. bar C. baz D. qux";
                      T "Answer: B"; T "Because."]))
           12 Hb Hf).
  - vm_compute. left. reflexivity.
  - vm_compute. reflexivity.
  - vm_compute. reflexivity.
  - vm_compute. reflexivity.
Defined.

End Runs.

(** * Rendered documents *)

Section Rendering.

Lemma escape_char_entity : forall x, html_escape [x] = entity x.
Proof. intros [[] [] [] [] [] [] [] []]; reflexivity. Qed.

Lemma html_escape_escaped_eq : forall s, html_escape s = escaped s.
Proof.
  intros s. rewrite html_escape_chars. unfold escaped.
  apply flat_map_ext. exact escape_char_entity.
Qed.

Lemma escape_char_br : forall x,
  replace_char nl (T "<br/>") (html_escape [x])
  = if Ascii.eqb x nl then T "<br/>" else entity x.
Proof. intros [[] [] [] [] [] [] [] []]; reflexivity. Qed.

Lemma paragraph_eq : forall p,
  T "<p>" ++ replace_char nl (T "<br/>") (html_escape p) ++ T "</p>"
  = paragraph p.
Proof.
  intros p. unfold paragraph. f_equal. f_equal.
  rewrite html_escape_chars, replace_char_flat_map.
  apply flat_map_ext. exact escape_char_br.
Qed.

Lemma as_paragraphs_parts : forall s,
  exists parts, _as_paragraphs s = join [nl] (map paragraph parts).
Proof.
  intros s. unfold _as_paragraphs. destruct (nonempty (strip s)).
  - exists (filter nonempty (map strip (split_blank [] (strip s)))).
    f_equal. apply map_ext. exact paragraph_eq.
  - exists []. reflexivity.
Qed.

Lemma block_of_rendered : forall q,
  exists parts, block_of q = rendered_block q parts.
Proof.
  intros q. destruct (as_paragraphs_parts (strip (q_question q))) as [parts E].
  exists parts. unfold block_of, qa_block, rendered_block, answer_line, answer_of.
  rewrite E, !html_escape_escaped_eq.
  destruct (find c_correct (q_choices q)) as [c|]; cbn [fst snd];
    rewrite <- ?app_assoc; reflexivity.
Qed.

Lemma chapter_rendered : forall d blocks,
  chapter_xhtml d blocks = rendered_chapter d blocks.
Proof.
  intros. unfold chapter_xhtml, rendered_chapter.
  rewrite !html_escape_escaped_eq. reflexivity.
Qed.

Lemma blocks_rendered : forall qs,
  Forall2 (fun q blk => exists parts, blk = rendered_block q parts)
    qs (map block_of qs).
Proof.
  induction qs as [|q qs IH]; constructor; [apply block_of_rendered | exact IH].
Qed.

Lemma build_epub_phases : forall qs title book_id now icon,
  build_epub qs title book_id now icon
  = (st <- chapter_documents qs ;;
     Ok (mkBook st (write_archive st book_id title now icon))).
Proof.
  intros. unfold build_epub, chapter_documents.
  destruct (group_domains qs []); [|reflexivity]. cbn [bind].
  destruct (map_result _ _); reflexivity.
Qed.

Lemma typed_all_renderable : forall qs,
  Forall renderable (map json_of_question qs).
Proof.
  intros qs. apply Forall_forall. intros x Hx. apply in_map_iff in Hx.
  destruct Hx as (q & E & _). subst x. apply typed_renderable.
Qed.

Lemma typed_chapters : forall qs title book_id now icon b,
  build_epub (map json_of_question qs) title book_id now icon = Ok b ->
  chapters_of qs (book_locals b).
Proof.
  intros qs title book_id now icon b Hb. unfold build_epub in Hb.
  destruct (group_typed qs []) as (domains & Eg & Hd). rewrite Eg in Hb.
  cbn [bind] in Hb.
  destruct (map_result (fun '(domain, _) => domain_item domain) domains)
    as [items|]; [|discriminate].
  cbn [bind] in Hb.
  destruct (chapters_loop domains items 1 initial_locals) as [st|] eqn:Ec;
    [|discriminate].
  cbn [bind] in Hb. inversion Hb; subst b; clear Hb. cbn [book_locals].
  apply (chapters_loop_typed qs) in Ec; [exact Ec | exact Hd | constructor].
Qed.

(** C8.  [html.escape] replaces each of the five markup characters by
    its reference and leaves every other character as it is, so that
    its result holds no [<], [>] or quote and no [&] but at the head of
    a reference; [_as_paragraphs] returns paragraphs of text so
    escaped, its newlines made line breaks.  Every chapter document of
    a book built from records is the chapter template around the
    blocks of the records of its domain, and in it the domain, the id
    (in the [id] attribute too), the stem and the id and text of the
    answer stand escaped. *)
Theorem C8_chapter_text_is_escaped :
  (forall s, html_escape s = escaped s /\ escaped_text (html_escape s) = true)
  /\ (forall s, exists parts,
        _as_paragraphs s = join [nl] (map paragraph parts))
  /\ forall qs title book_id now icon b name doc,
       build_epub (map json_of_question qs) title book_id now icon = Ok b ->
       In (name, doc) (chapters (book_locals b)) ->
       exists d blocks,
         doc = rendered_chapter d blocks
         /\ Forall2 (fun q blk => exists parts, blk = rendered_block q parts)
              (filter (in_domain d) qs) blocks.
Proof.
  split; [|split].
  - intros s. split; [apply html_escape_escaped_eq | apply html_escape_escaped].
  - exact as_paragraphs_parts.
  - intros qs title book_id now icon b name doc H Hin.
    pose proof (typed_chapters _ _ _ _ _ _ H) as Hc.
    unfold chapters_of in Hc. rewrite Forall_forall in Hc.
    destruct (Hc (name, doc) Hin) as [d Hd]. cbn [snd] in Hd.
    exists d, (map block_of (filter (in_domain d) qs)).
    split; [rewrite Hd; apply chapter_rendered | apply blocks_rendered].
Qed.

Lemma C8_chapter_text_is_escaped_witness :
  exists b doc,
    build_epub [json_of_question quoted_question] (T "t") (T "id") (T "now")
      None = Ok b
    /\ chapters (book_locals b) = [(T "text/01-risk---audit.xhtml", doc)]
    /\ doc = rendered_chapter (T "Risk & Audit")
               [rendered_block quoted_question [T "Is a < b & c?"]]
    /\ exists d blocks,
         doc = rendered_chapter d blocks
         /\ Forall2 (fun q blk => exists parts, blk = rendered_block q parts)
              (filter (in_domain d) [quoted_question]) blocks.
Proof.
  exists (book_or_empty (build_epub [json_of_question quoted_question]
                           (T "t") (T "id") (T "now") None)).
  eexists.
  assert (H : build_epub [json_of_question quoted_question] (T "t") (T "id")
                (T "now") None
              = Ok (book_or_empty
                      (build_epub [json_of_question quoted_question]
                         (T "t") (T "id") (T "now") None)))
    by (vm_compute; reflexivity).
  split; [exact H|]. split; [vm_compute; reflexivity|].
  split; [vm_compute; reflexivity|].
  apply (proj2 (proj2 C8_chapter_text_is_escaped) [quoted_question] _ _ _ _ _
           (T "text/01-risk---audit.xhtml") _ H).
  vm_compute. left. reflexivity.
Defined.

End Rendering.

Section Answers.

Lemma join_In : forall (sep : text) parts x,
  In x parts -> exists pre post, join sep parts = pre ++ x ++ post.
Proof.
  intros sep. induction parts as [|p parts IH]; intros x H; [destruct H|].
  destruct H as [H|H].
  - subst p. exists []. destruct parts as [|p' parts'].
    + exists []. cbn [join app]. rewrite app_nil_r. reflexivity.
    + exists (sep ++ join sep (p' :: parts')). reflexivity.
  - destruct parts as [|p' parts']; [destruct H|].
    destruct (IH x H) as (pre & post & E).
    exists (p ++ sep ++ pre), post.
    change (join sep (p :: p' :: parts'))
      with (p ++ sep ++ join sep (p' :: parts')).
    rewrite E, <- !app_assoc. reflexivity.
Qed.

Lemma chapter_split : forall d blocks,
  exists hd tl, chapter_xhtml d blocks = hd ++ join [nl] blocks ++ tl.
Proof.
  intros d blocks. unfold chapter_xhtml.
  exists (ln "<?xml version=`1.0` encoding=`utf-8`?>"
          ++ ln "<!DOCTYPE html>"
          ++ ln "<html xmlns=`http://www.w3.org/1999/xhtml` xml:lang=`en`>"
          ++ ln "<head>"
          ++ T "  <title>" ++ html_escape d ++ ln "</title>"
          ++ ln "  <link rel=`stylesheet` type=`text/css` href=`../styles/style.css`/>"
          ++ ln "</head>"
          ++ ln "<body>"
          ++ Tq "  <p class=`domain`>" ++ html_escape d ++ ln "</p>"
          ++ T "  <h1>" ++ html_escape d ++ ln "</h1>"),
         ([nl] ++ ln "</body>" ++ ln "</html>").
  rewrite <- !app_assoc. reflexivity.
Qed.

Lemma filed_under_typed : forall d qs,
  filter (filed_under d) (map json_of_question qs)
  = map json_of_question (filter (in_domain d) qs).
Proof.
  intros d. induction qs as [|q qs IH]; [reflexivity|].
  cbn [map filter].
  change (filed_under d (json_of_question q)) with (in_domain d q).
  destruct (in_domain d q); cbn [map]; rewrite IH; reflexivity.
Qed.

Lemma find_unmarked : forall cs,
  find c_correct (map (fun c => mkChoice (c_id c) (c_text c) false) cs) = None.
Proof. induction cs as [|c cs IH]; [reflexivity | exact IH]. Qed.

(** C7.  The block rendered for a record is the block template with,
    on its answer line, the id and the text of the first choice marked
    correct; with no such choice the line reads [Answer:] and nothing
    else, and the block is rendered all the same.  For every list of
    records the chapter documents are made, whatever the correct flags,
    and they are the ones of the book when [build_epub] returns; then
    each record has its block in a chapter document, and the book of
    the same records with no choice marked correct is built as well. *)
Theorem C7_answer_is_first_correct :
  (forall q, exists parts,
     render_question (json_of_question q) = Ok (rendered_block q parts))
  /\ (forall q, find c_correct (q_choices q) = None ->
        exists pre,
          render_question (json_of_question q)
          = Ok (pre ++ ln "  <p class=`answer`><b>Answer:</b> </p>"
                ++ ln "  <hr/>" ++ T "</div>"))
  /\ (forall qs, exists st,
        chapter_documents (map json_of_question qs) = Ok st
        /\ forall title book_id now icon b,
             build_epub (map json_of_question qs) title book_id now icon = Ok b ->
             book_locals b = st)
  /\ forall qs title book_id now icon b,
       build_epub (map json_of_question qs) title book_id now icon = Ok b ->
       (forall q, In q qs ->
          exists name doc pre post parts,
            In (name, doc) (chapters (book_locals b))
            /\ doc = pre ++ rendered_block q parts ++ post)
       /\ exists b',
            build_epub (map json_of_question (map unmarked qs))
              title book_id now icon = Ok b'.
Proof.
  split; [|split; [|split]].
  - intros q. rewrite render_typed. destruct (block_of_rendered q) as [parts E].
    exists parts. f_equal. exact E.
  - intros q H. rewrite render_typed.
    destruct (block_of_rendered q) as [parts E].
    change (qa_block _ _ _ _ _) with (block_of q). rewrite E.
    unfold rendered_block, answer_line. rewrite H.
    exists (ln "<div class=`qa`>"
            ++ Tq "  <h2 id=`" ++ escaped (q_id q) ++ Tq "`>"
            ++ escaped (q_id q) ++ ln "</h2>"
            ++ T "  " ++ join [nl] (map paragraph parts) ++ [nl]).
    f_equal. rewrite <- !app_assoc. reflexivity.
  - intros qs.
    destruct (build_epub_ok (map json_of_question qs) [] [] [] None
                (typed_all_renderable qs)) as [b0 H0].
    rewrite build_epub_phases in H0.
    destruct (chapter_documents (map json_of_question qs)) as [st|] eqn:Es;
      [|discriminate].
    exists st. split; [reflexivity|].
    intros title book_id now icon b H. rewrite build_epub_phases, Es in H.
    cbn [bind] in H. inversion H. reflexivity.
  - intros qs title book_id now icon b H. split.
    + intros q Hq.
      destruct (build_epub_run _ _ _ _ _ _ H) as (_ & Hc & _).
      assert (Hd : In (q_domain q)
                     (first_seen (map domain_of (map json_of_question qs)))).
      { apply first_seen_In. rewrite map_map.
        change (q_domain q) with (domain_of (json_of_question q)).
        apply (in_map (fun x => domain_of (json_of_question x))). exact Hq. }
      destruct (numbered_In _ 1 _ Hd) as [i Hi].
      destruct (Forall2_In_l _ _ _ _ _ _ Hc Hi) as ([name doc] & Hin & Hr).
      cbn [chapter_for fst snd] in Hr. destruct Hr as (_ & q_blocks & Er & Ed).
      rewrite filed_under_typed, render_all_typed in Er.
      inversion Er; subst q_blocks; clear Er.
      assert (Hb : In (block_of q)
                     (map block_of (filter (in_domain (q_domain q)) qs))).
      { apply in_map. apply filter_In. split; [exact Hq|].
        unfold in_domain. apply text_eqb_refl. }
      destruct (join_In [nl] _ _ Hb) as (pre & post & Ej).
      destruct (block_of_rendered q) as [parts Ep].
      destruct (chapter_split (q_domain q)
                  (map block_of (filter (in_domain (q_domain q)) qs)))
        as (hd & tl & Ec).
      exists name, doc, (hd ++ pre), (post ++ tl), parts.
      split; [exact Hin|]. rewrite Ed, Ec, Ej, Ep, <- !app_assoc.
      reflexivity.
    + apply build_epub_ok. apply typed_all_renderable.
Qed.

Lemma C7_answer_is_first_correct_witness :
  find c_correct (q_choices no_correct) = None
  /\ (exists pre,
        render_question (json_of_question no_correct)
        = Ok (pre ++ ln "  <p class=`answer`><b>Answer:</b> </p>"
              ++ ln "  <hr/>" ++ T "</div>"))
  /\ exists b b',
       build_epub (map json_of_question [markup_question; no_correct])
         (T "t") (T "id") (T "now") None = Ok b
       /\ build_epub (map json_of_question
                        (map unmarked [markup_question; no_correct]))
            (T "t") (T "id") (T "now") None = Ok b'
       /\ forall q, In q [markup_question; no_correct] ->
            exists name doc pre post parts,
              In (name, doc) (chapters (book_locals b))
              /\ doc = pre ++ rendered_block q parts ++ post.
Proof.
  assert (H : find c_correct (q_choices no_correct) = None) by reflexivity.
  split; [exact H|].
  split; [exact (proj1 (proj2 C7_answer_is_first_correct) no_correct H)|].
  assert (Hb : build_epub (map json_of_question [markup_question; no_correct])
                 (T "t") (T "id") (T "now") None
               = Ok (book_or_empty
                       (build_epub
                          (map json_of_question [markup_question; no_correct])
                          (T "t") (T "id") (T "now") None)))
    by (vm_compute; reflexivity).
  destruct (proj2 (proj2 (proj2 C7_answer_is_first_correct))
              [markup_question; no_correct] _ _ _ _ _ Hb) as (Hq & b' & Hb').
  eexists. exists b'. split; [exact Hb|]. split; [exact Hb' | exact Hq].
Defined.

End Answers.

Section Documents.

Lemma utf8_decode_char : forall c rest,
  utf8_decode (utf8_char c ++ rest) = option_map (cons c) (utf8_decode rest).
Proof. intros [[] [] [] [] [] [] [] []] rest; reflexivity. Qed.

Lemma utf8_decode_utf8 : forall s, utf8_decode (utf8 s) = Some s.
Proof.
  induction s as [|c s IH]; [reflexivity|].
  unfold utf8 in *. cbn [flat_map]. rewrite utf8_decode_char, IH. reflexivity.
Qed.

Lemma ncx_navpoints_numbered : forall ds idx,
  ncx_navpoints idx
    (map (fun '(i, d) => (d, file_name_of i (slug_of d))) (numbered idx ds))
  = map (fun '(i, d) => nav_point i d (file_name_of i (slug_of d)))
        (numbered idx ds).
Proof.
  induction ds as [|d ds IH]; intros idx; [reflexivity|].
  cbn [numbered map ncx_navpoints]. rewrite IH. reflexivity.
Qed.

Lemma build_epub_lists : forall qs title book_id now icon b,
  build_epub qs title book_id now icon = Ok b ->
  nav_items (book_locals b)
  = map (fun '(i, d) => (d, file_name_of i (slug_of d))) (book_chapters qs)
  /\ manifest_items (book_locals b)
     = manifest_items initial_locals
       ++ map (fun '(i, d) =>
                 manifest_item (item_id_of i) (file_name_of i (slug_of d)))
              (book_chapters qs)
  /\ spine_items (book_locals b)
     = spine_items initial_locals
       ++ map (fun '(i, d) => spine_item (item_id_of i)) (book_chapters qs)
  /\ book_archive b = write_archive (book_locals b) book_id title now icon.
Proof.
  intros qs title book_id now icon b H. unfold build_epub in H.
  destruct (group_domains qs []) as [domains|] eqn:Eg; [|discriminate].
  cbn [bind] in H.
  destruct (map_result (fun '(domain, _) => domain_item domain) domains)
    as [items|] eqn:Ei; [|discriminate].
  cbn [bind] in H.
  destruct (chapters_loop domains items 1 initial_locals) as [st|] eqn:Ec;
    [|discriminate].
  cbn [bind] in H. inversion H; subst b; clear H.
  cbn [book_locals book_archive].
  destruct (domain_items_spec _ _ Ei) as [Hk Hi].
  assert (Hd : map fst items = first_seen (map domain_of qs)).
  { assert (G : map fst domains
                = map JStr (fold_left add_label (map domain_of qs) [])).
    { apply group_keys with (acc := []); [exact Eg | reflexivity|].
      intros k Hin. rewrite Hk in Hin. apply in_map_iff in Hin.
      destruct Hin as (d & E & _). eauto. }
    rewrite first_seen_fold, Hk in G.
    clear - G. revert G. generalize (first_seen (map domain_of qs)).
    induction (map fst items) as [|x l IH]; intros [|y l'] G;
      try discriminate; [reflexivity|].
    simpl in G. inversion G. f_equal. apply IH. assumption. }
  rewrite Hi, Hd in Ec. apply chapters_loop_spec in Ec.
  destruct Ec as (H1 & H2 & H3). unfold book_chapters. auto.
Qed.

Lemma concat_map_map : forall (A B : Type) (f : A -> B) (g : B -> text) l,
  concat (map g (map f l)) = concat (map (fun x => g (f x)) l).
Proof. intros. rewrite map_map. reflexivity. Qed.

Lemma concat_map_ext : forall (A : Type) (f g : A -> text) l,
  (forall x, f x = g x) -> concat (map f l) = concat (map g l).
Proof. intros A f g l H. f_equal. apply map_ext. exact H. Qed.

Lemma nav_xhtml_document : forall chs,
  nav_xhtml (map (fun '(i, d) => (d, file_name_of i (slug_of d))) chs)
  = toc_document chs.
Proof.
  intros chs. unfold nav_xhtml, toc_document. rewrite concat_map_map.
  rewrite (concat_map_ext _ _
             (fun '(i, d) =>
                Tq "      <li><a href=`" ++ escaped (chapter_file i d)
                ++ Tq "`>" ++ escaped d ++ ln "</a></li>") chs);
    [reflexivity|].
  intros [i d]. rewrite !html_escape_escaped_eq. reflexivity.
Qed.

Lemma toc_ncx_document : forall book_id title ds,
  toc_ncx book_id title
    (map (fun '(i, d) => (d, file_name_of i (slug_of d))) (numbered 1 ds))
  = ncx_document book_id title (numbered 1 ds).
Proof.
  intros book_id title ds. unfold toc_ncx, ncx_document.
  rewrite ncx_navpoints_numbered, !html_escape_escaped_eq.
  rewrite (concat_map_ext _ _
             (fun '(i, d) =>
                Tq "    <navPoint id=`navPoint-" ++ str_of_int (N.of_nat i)
                ++ Tq "` playOrder=`" ++ str_of_int (N.of_nat i) ++ ln "`>"
                ++ T "      <navLabel><text>" ++ escaped d
                ++ ln "</text></navLabel>"
                ++ Tq "      <content src=`" ++ escaped (chapter_file i d)
                ++ ln "`/>"
                ++ ln "    </navPoint>") (numbered 1 ds));
    [reflexivity|].
  intros [i d]. unfold nav_point.
  rewrite !html_escape_escaped_eq, <- ?app_assoc. reflexivity.
Qed.

Lemma manifest_lines : forall chs,
  concat (map (fun line => T "    " ++ line ++ [nl])
            (map (fun '(i, d) =>
                    manifest_item (item_id_of i) (file_name_of i (slug_of d)))
                 chs))
  = concat (map (fun '(i, d) =>
                   Tq "    <item id=`" ++ chapter_id i ++ Tq "` href=`"
                   ++ chapter_file i d
                   ++ ln "` media-type=`application/xhtml+xml`/>") chs).
Proof.
  intros chs. rewrite concat_map_map. apply concat_map_ext. intros [i d].
  unfold manifest_item, ln. rewrite <- ?app_assoc. reflexivity.
Qed.

Lemma spine_lines : forall chs,
  concat (map (fun line => T "    " ++ line ++ [nl])
            (map (fun '(i, d) => spine_item (item_id_of i)) chs))
  = concat (map (fun '(i, d) =>
                   Tq "    <itemref idref=`" ++ chapter_id i ++ ln "`/>")
                (chs : list (nat * text))).
Proof.
  intros chs. rewrite concat_map_map. apply concat_map_ext. intros [i d].
  unfold spine_item, ln. rewrite <- ?app_assoc. reflexivity.
Qed.

Lemma content_opf_document : forall book_id title now chs,
  content_opf book_id title now
    (manifest_items initial_locals
     ++ map (fun '(i, d) =>
               manifest_item (item_id_of i) (file_name_of i (slug_of d))) chs)
    (spine_items initial_locals
     ++ map (fun '(i, d) => spine_item (item_id_of i)) chs)
  = package_document book_id title now chs.
Proof.
  intros book_id title now chs. unfold content_opf, package_document.
  rewrite !map_app, !concat_app, manifest_lines, spine_lines.
  rewrite !html_escape_escaped_eq, <- !app_assoc. reflexivity.
Qed.

(** C5.  Whenever [build_epub] returns, the third, fourth and fifth
    entries of the archive are the package document, the NCX table of
    contents and the navigation document, and each lists the chapters,
    one for each distinct domain of the input, in the order in which
    the domains first occur, numbered from 1: the navigation document
    and the NCX in their entries, the package document in its manifest
    after the five fixed items and in its spine after the title
    page. *)
Theorem C5_chapters_in_first_seen_order :
  forall qs title book_id now icon b,
    build_epub qs title book_id now icon = Ok b ->
    map entry_text (firstn 3 (skipn 2 (book_archive b)))
    = [ (T "OEBPS/content.opf",
         Some (package_document book_id title now (book_chapters qs)));
        (T "OEBPS/toc.ncx",
         Some (ncx_document book_id title (book_chapters qs)));
        (T "OEBPS/nav.xhtml", Some (toc_document (book_chapters qs))) ].
Proof.
  intros qs title book_id now icon b H.
  destruct (build_epub_lists _ _ _ _ _ _ H) as (H1 & H2 & H3 & Ha).
  rewrite Ha. unfold write_archive. rewrite write_chapters.
  unfold writestr, write.
  destruct icon; cbn [app skipn firstn map]; unfold entry_text;
    cbn [e_name e_data]; rewrite !utf8_decode_utf8, H1, H2, H3;
    unfold book_chapters;
    rewrite content_opf_document, toc_ncx_document, nav_xhtml_document;
    reflexivity.
Qed.

Lemma C5_chapters_in_first_seen_order_witness :
  build_epub two_domains (T "t") (T "id") (T "now") None = Ok two_domains_book
  /\ book_chapters two_domains = [(1, T "Risk"); (2, T "Access")]
  /\ map entry_text (firstn 3 (skipn 2 (book_archive two_domains_book)))
     = [ (T "OEBPS/content.opf",
          Some (package_document (T "id") (T "t") (T "now")
                  (book_chapters two_domains)));
         (T "OEBPS/toc.ncx",
          Some (ncx_document (T "id") (T "t") (book_chapters two_domains)));
         (T "OEBPS/nav.xhtml",
          Some (toc_document (book_chapters two_domains))) ].
Proof.
  assert (H : build_epub two_domains (T "t") (T "id") (T "now") None
              = Ok two_domains_book) by (vm_compute; reflexivity).
  split; [exact H|]. split; [reflexivity|].
  exact (C5_chapters_in_first_seen_order two_domains (T "t") (T "id")
           (T "now") None two_domains_book H).
Defined.

End Documents.

(** * Further properties of runs *)

Section More.

Lemma records_of_blocks : forall cleaned ms,
  Forall (fun m => forallb is_digit (group m 1) = true) ms ->
  map (fun q => (q_id q, q_domain q))
      (parse_loop Baseline.parse_block (blocks_of cleaned ms))
  = map (fun mb => (T "Q" ++ numeral (numeral_value (group (fst mb) 1)),
                    strip (group (fst mb) 2)))
        (filter (fun mb => has_markers (snd mb))
                (combine ms (blocks_of cleaned ms))).
Proof.
  intros cleaned ms H. induction H as [|m ms Hm Hr IH]; [reflexivity|].
  cbn [blocks_of combine filter parse_loop snd].
  set (b := mkBlock (int_of_digits (group m 1)) (strip (group m 2)) _).
  unfold has_markers at 1. rewrite <- baseline_none_iff.
  destruct (Baseline.parse_block b) as [q|] eqn:E; cbn [is_none negb map fst].
  - rewrite IH. f_equal.
    destruct (baseline_block_shape _ _ E) as (_ & Ei & _).
    rewrite Ei, (baseline_block_domain _ _ E). subst b. cbn [b_num b_domain].
    rewrite (int_of_digits_value _ Hm). reflexivity.
  - exact IH.
Qed.

(** X7.  Where a run of the baseline parser returns, it has one
    record for each block that has an answer marker and an [A.] marker,
    in the order of the headers, each with the number and the domain of
    the header before its block. *)
Theorem baseline_records_in_order : forall max_str_digits text_ qs,
  baseline_parse_questions max_str_digits text_ = Ok qs ->
  map (fun q => (q_id q, q_domain q)) qs
  = map (fun mb => (T "Q" ++ numeral (numeral_value (group (fst mb) 1)),
                    strip (group (fst mb) 2)))
        (filter (fun mb => has_markers (snd mb))
                (combine (headers text_) (blocks text_))).
Proof.
  intros limit text_ qs H. apply run_ok in H. subst qs.
  apply records_of_blocks. apply Forall_forall. intros m Hm.
  exact (header_digits text_ m Hm).
Qed.

Lemma baseline_records_in_order_witness :
  baseline_parse_questions default_max_str_digits three_blocks
  = Ok (Baseline.parse_questions three_blocks)
  /\ map (fun q => (q_id q, q_domain q)) (Baseline.parse_questions three_blocks)
     = [(T "Q1", T "X"); (T "Q3", T "Y")]
  /\ map (fun q => (q_id q, q_domain q)) (Baseline.parse_questions three_blocks)
     = map (fun mb => (T "Q" ++ numeral (numeral_value (group (fst mb) 1)),
                       strip (group (fst mb) 2)))
           (filter (fun mb => has_markers (snd mb))
                   (combine (headers three_blocks) (blocks three_blocks))).
Proof.
  assert (H : baseline_parse_questions default_max_str_digits three_blocks
              = Ok (Baseline.parse_questions three_blocks))
    by (vm_compute; reflexivity).
  split; [exact H|]. split; [vm_compute; reflexivity|].
  exact (baseline_records_in_order default_max_str_digits three_blocks _ H).
Defined.

Lemma chapter_documents_ok : forall qs,
  Forall renderable qs -> exists st, chapter_documents qs = Ok st.
Proof.
  intros qs H. destruct (build_epub_ok qs [] [] [] None H) as [b Hb].
  rewrite build_epub_phases in Hb.
  destruct (chapter_documents qs) as [st|]; [eauto | discriminate].
Qed.

Lemma build_epub_locals : forall qs st title book_id now icon b,
  chapter_documents qs = Ok st ->
  build_epub qs title book_id now icon = Ok b -> book_locals b = st.
Proof.
  intros qs st title book_id now icon b Hs H.
  rewrite build_epub_phases, Hs in H. cbn [bind] in H. inversion H.
  reflexivity.
Qed.

Lemma chapter_documents_renderable : forall qs st,
  chapter_documents qs = Ok st -> Forall renderable qs.
Proof.
  intros qs st Hs.
  assert (H : build_epub qs [] [] [] None
              = Ok (mkBook st (write_archive st [] [] [] None))).
  { rewrite build_epub_phases, Hs. reflexivity. }
  destruct (build_epub_run _ _ _ _ _ _ H) as (Hall & Hc & _).
  apply Forall_forall. intros q Hq. split.
  - rewrite Forall_forall in Hall. exact (Hall q Hq).
  - assert (Hd : In (domain_of q) (first_seen (map domain_of qs))).
    { apply first_seen_In, in_map. exact Hq. }
    destruct (numbered_In _ 1 _ Hd) as [i Hi].
    destruct (Forall2_In_l _ _ _ _ _ _ Hc Hi) as (kv & _ & Hr).
    cbn [chapter_for] in Hr. destruct Hr as (_ & q_blocks & Er & _).
    eapply map_result_In; [exact Er|].
    apply filter_In. split; [exact Hq|]. unfold filed_under.
    apply text_eqb_refl.
Qed.

(** X16.  The chapter documents are made exactly when every question
    is a dict whose domain is absent or a string and whose block
    renders; and when [build_epub] returns, they are the documents of
    its book. *)
Theorem chapter_documents_iff : forall qs,
  ((exists st, chapter_documents qs = Ok st) <-> Forall renderable qs)
  /\ forall title book_id now icon b,
       build_epub qs title book_id now icon = Ok b ->
       chapter_documents qs = Ok (book_locals b).
Proof.
  intros qs. split.
  - split; [|apply chapter_documents_ok].
    intros [st H]. exact (chapter_documents_renderable qs st H).
  - intros title book_id now icon b H. rewrite build_epub_phases in H.
    destruct (chapter_documents qs) as [st|]; [|discriminate].
    cbn [bind] in H. inversion H. reflexivity.
Qed.

Lemma chapter_documents_iff_witness :
  build_epub two_domains (T "t") (T "id") (T "now") None = Ok two_domains_book
  /\ chapter_documents two_domains = Ok (book_locals two_domains_book).
Proof.
  assert (H : build_epub two_domains (T "t") (T "id") (T "now") None
              = Ok two_domains_book) by (vm_compute; reflexivity).
  split; [exact H|].
  exact (proj2 (chapter_documents_iff two_domains) _ _ _ _ _ H).
Defined.

(** X18.  With the domain absent or a string, an id, a question or
    choices that are missing or [null] do not stop the chapter loop:
    the chapter documents are made, and they are the documents of the
    book when [build_epub] returns. *)
Theorem missing_fields_render : forall qs,
  Forall (fun q => exists items, q = JObj items
            /\ absent_or_null (T "id") items = true
            /\ absent_or_null (T "question") items = true
            /\ absent_or_null (T "choices") items = true
            /\ (dict_lookup (T "domain") items = None
                \/ exists d, dict_lookup (T "domain") items = Some (JStr d)))
         qs ->
  exists st,
    chapter_documents qs = Ok st
    /\ forall title book_id now icon b,
         build_epub qs title book_id now icon = Ok b -> book_locals b = st.
Proof.
  intros qs H.
  destruct (chapter_documents_ok qs) as [st Hs].
  { eapply Forall_impl; [|exact H]. intros q (items & E & Hi & Hq & Hc & Hd).
    subst q. split.
    - exists items. auto.
    - eexists. apply render_missing_fields; assumption. }
  exists st. split; [exact Hs|]. intros title book_id now icon b Hb.
  exact (build_epub_locals _ _ _ _ _ _ _ Hs Hb).
Qed.

Lemma missing_fields_render_witness :
  Forall (fun q => exists items, q = JObj items
            /\ absent_or_null (T "id") items = true
            /\ absent_or_null (T "question") items = true
            /\ absent_or_null (T "choices") items = true
            /\ (dict_lookup (T "domain") items = None
                \/ exists d, dict_lookup (T "domain") items = Some (JStr d)))
         [JObj []; JObj [(T "domain", JStr (T "Risk")); (T "id", JNull)]]
  /\ exists st,
       chapter_documents
         [JObj []; JObj [(T "domain", JStr (T "Risk")); (T "id", JNull)]]
       = Ok st
       /\ forall title book_id now icon b,
            build_epub
              [JObj []; JObj [(T "domain", JStr (T "Risk")); (T "id", JNull)]]
              title book_id now icon = Ok b ->
            book_locals b = st.
Proof.
  assert (H : Forall (fun q => exists items, q = JObj items
            /\ absent_or_null (T "id") items = true
            /\ absent_or_null (T "question") items = true
            /\ absent_or_null (T "choices") items = true
            /\ (dict_lookup (T "domain") items = None
                \/ exists d, dict_lookup (T "domain") items = Some (JStr d)))
         [JObj []; JObj [(T "domain", JStr (T "Risk")); (T "id", JNull)]]).
  { constructor; [|constructor; [|constructor]].
    - exists []. repeat split; auto.
    - eexists. split; [reflexivity|]. repeat split; try reflexivity.
      right. exists (T "Risk"). reflexivity. }
  split; [exact H|].
  exact (missing_fields_render _ H).
Defined.

Lemma strip_dash_l_nil : forall t,
  strip_dash_l t = [] <-> forallb (Ascii.eqb "-") t = true.
Proof.
  induction t as [|c t IH]; [split; reflexivity|].
  cbn [strip_dash_l forallb]. rewrite (Ascii.eqb_sym "-" c).
  destruct (Ascii.eqb c "-"); cbn [andb]; [exact IH|].
  split; discriminate.
Qed.

Lemma slug_char_dash : forall c,
  Ascii.eqb "-" (if is_alnum c then char_lower c else "-"%char)
  = negb (is_alnum c).
Proof. intros [[] [] [] [] [] [] [] []]; reflexivity. Qed.

Lemma slugify_nil : forall s,
  _slugify s = [] <-> forallb (fun c => negb (is_alnum c)) s = true.
Proof.
  intros s. unfold _slugify.
  set (t := map (fun ch => if is_alnum ch then char_lower ch else "-"%char) s).
  assert (E : forallb (Ascii.eqb "-") t
              = forallb (fun c => negb (is_alnum c)) s).
  { subst t. induction s as [|c s IH]; [reflexivity|].
    cbn [map forallb]. rewrite IH, slug_char_dash. reflexivity. }
  rewrite <- E, <- strip_dash_l_nil. split.
  - intros H. apply (f_equal (@rev ascii)) in H.
    rewrite rev_involutive in H. cbn [rev] in H.
    pose proof (strip_dash_l_begins t) as Hb.
    destruct (strip_dash_l t) as [|c x] eqn:Ex; [reflexivity|].
    exfalso. cbn [begins] in Hb.
    destruct (strip_dash_l_last (rev x) c) as [w Ew].
    { rewrite Ascii.eqb_sym. exact Hb. }
    cbn [rev] in H. rewrite Ew in H. destruct w; discriminate.
  - intros H. rewrite H. reflexivity.
Qed.

(** X10.  A slug has no hyphen at either end, and it is empty exactly
    when the text has no alphanumeric character. *)
Theorem slugify_shape : forall s,
  begins "-" (_slugify s) = false
  /\ begins "-" (rev (_slugify s)) = false
  /\ (_slugify s = [] <-> forallb (fun c => negb (is_alnum c)) s = true).
Proof.
  intros s. split; [apply slugify_begins|].
  split; [apply slugify_ends | apply slugify_nil].
Qed.

End More.

Section Raw.

Lemma embeds_length : forall (l l' : text), embeds eq l l' -> length l <= length l'.
Proof. induction 1; cbn [length]; lia. Qed.

Lemma raw_marker_digit : forall b a m,
  match_at raw_marker_re b a = Some m ->
  m_start m < m_end m
  /\ exists c a', a = c :: a' /\ is_digit c = true.
Proof.
  intros b a m H. destruct (match_at_Step _ _ _ _ H) as (st' & Hs & E).
  subst m. cbn [m_start m_end].
  unfold raw_marker_re in Hs. cbn [seqs] in Hs.
  inversion Hs as [| |? ? ? s1 ? H1 H2| | | | | | | | |]; subst; clear Hs.
  inversion H1; subst; clear H1.
  inversion H2 as [| |? ? ? s2 ? H3 H4| | | | | | | | |]; subst; clear H2.
  inversion H3 as [| | | | |g lo p b0 a0 cs n Hlo Hn Hp| | | | | |]; subst;
    clear H3.
  destruct (Step_before _ _ _ H4) as (u & _ & B). cbn [before] in B.
  split.
  - rewrite B, !length_app, !length_rev, length_firstn. lia.
  - destruct a as [|c a']; [cbn [length] in Hn; lia|].
    destruct n as [|n]; [lia|]. cbn [firstn forallb] in Hp.
    apply andb_true_iff in Hp. exists c, a'. tauto.
Qed.

Lemma sub_loop_shorter : forall r,
  (forall b a m, match_at r b a = Some m -> m_start m < m_end m) ->
  forall a b,
    search_from r b a <> None -> length (sub_loop r [] 0 b a) < length a.
Proof.
  intros r Hr. induction a as [|c a IH]; intros b H.
  - exfalso. cbn [search_from] in H.
    destruct (match_at r b []) as [m|] eqn:E; [|congruence].
    pose proof (Hr _ _ _ E) as N.
    destruct (match_at_span _ _ _ _ E) as (S1 & u & v & A & S2).
    destruct u; [|discriminate]. cbn [length] in S2. lia.
  - cbn [search_from] in H. cbn [sub_loop].
    destruct (match_at r b (c :: a)) as [m|] eqn:E.
    + pose proof (Hr _ _ _ E) as N.
      assert (Z : (m_end m - m_start m =? 0) = false)
        by (apply Nat.eqb_neq; lia).
      rewrite Z. cbn [app length].
      pose proof (embeds_length _ _
                    (sub_loop_deletes r a (m_end m - m_start m - 1) (c :: b))).
      lia.
    + cbn [length]. apply -> Nat.succ_lt_mono. apply IH. exact H.
Qed.

Lemma no_digit_no_marker : forall a b,
  forallb (fun c => negb (is_digit c)) a = true ->
  search_from raw_marker_re b a = None.
Proof.
  induction a as [|c a IH]; intros b H; cbn [search_from].
  - destruct (match_at raw_marker_re b []) as [m|] eqn:E; [|reflexivity].
    destruct (raw_marker_digit _ _ _ E) as (_ & c & a' & Ea & _).
    discriminate.
  - cbn [forallb] in H. apply andb_true_iff in H. destruct H as [Hc Ha].
    destruct (match_at raw_marker_re b (c :: a)) as [m|] eqn:E.
    + destruct (raw_marker_digit _ _ _ E) as (_ & c' & a' & Ea & Hd).
      inversion Ea; subst c' a'. rewrite Hd in Hc. discriminate.
    + apply IH. exact Ha.
Qed.

(** X9.  [extract_raw_text] only deletes: what it returns is the text
    read with some characters left out.  It returns the text as it is
    when no page marker is found in it, as in every text without a
    digit, and a shorter text when one is found. *)
Theorem raw_text_removals : forall raw,
  embeds eq (extract_raw_text raw) raw
  /\ (re_search raw_marker_re raw = None -> extract_raw_text raw = raw)
  /\ (re_search raw_marker_re raw <> None ->
      length (extract_raw_text raw) < length raw)
  /\ (forallb (fun c => negb (is_digit c)) raw = true ->
      re_search raw_marker_re raw = None).
Proof.
  intros raw. split; [apply re_sub_deletes|].
  split; [intros H; apply sub_loop_no_match; exact H|].
  split.
  - intros H. apply sub_loop_shorter; [|exact H].
    intros b a m E. exact (proj1 (raw_marker_digit _ _ _ E)).
  - apply no_digit_no_marker.
Qed.

Lemma raw_text_removals_witness :
  re_search raw_marker_re (T "Page 3 of 246 ends") <> None
  /\ extract_raw_text (T "Page 3 of 246 ends") = T "Page  ends"
  /\ length (extract_raw_text (T "Page 3 of 246 ends"))
     < length (T "Page 3 of 246 ends")
  /\ re_search raw_marker_re (T "one of two") = None
  /\ extract_raw_text (T "one of two") = T "one of two".
Proof.
  assert (H : re_search raw_marker_re (T "Page 3 of 246 ends") <> None)
    by (vm_compute; discriminate).
  split; [exact H|]. split; [vm_compute; reflexivity|].
  split; [exact (proj1 (proj2 (proj2 (raw_text_removals _))) H)|].
  assert (N : forallb (fun c => negb (is_digit c)) (T "one of two") = true)
    by reflexivity.
  pose proof (proj2 (proj2 (proj2 (raw_text_removals _))) N) as S.
  split; [exact S|].
  exact (proj1 (proj2 (raw_text_removals _)) S).
Defined.

End Raw.
